(** * textmation: the scene-building pass, embedded and verified

    The development follows the two build pipelines of the repository,
    [scenebuilder.py] (class [SceneBuilder]) and [interpreter.py] (class
    [Interpreter]).  Python objects with identity (elements) live in an
    explicit store and are named by their index; methods that raise are
    functions into an outcome type, and the builder's attributes are threaded
    through a state-and-exception monad in which the state survives a raise,
    as it does in Python. *)

From Stdlib Require Import Ascii.
From stdpp Require Import gmap strings list pretty.

#[local] Set Warnings "-register-all".
Set Default Proof Using "Type".

(** ** Exceptions and the state-and-exception monad *)

Inductive exn : Type :=
| SceneBuilderError (message : string)
| InterpreterError (message : string)
| AssertionError
| NotImplementedError
| KeyError (key : string)
| IndexError
| TypeError (message : string)
| ValueError
| AttributeError (attr : string)
| ElementPropertyDefinedError (message : string)
| CircularReferenceError (message : string) (paths : list (list string)).

(** [str(ex)] as the f-strings of the builders use it. *)
Definition str_exn (ex : exn) : string :=
  match ex with
  | SceneBuilderError m | InterpreterError m | TypeError m
  | ElementPropertyDefinedError m | CircularReferenceError m _ => m
  | KeyError k => "'" +:+ k +:+ "'"
  | AttributeError a => a
  | AssertionError | NotImplementedError | IndexError | ValueError => ""
  end.

Inductive outcome (A : Type) : Type :=
| Return (a : A)
| Raise (ex : exn).
Arguments Return {A} a.
Arguments Raise {A} ex.

Definition M (S A : Type) : Type := S → outcome A * S.

Definition ret {S A} (a : A) : M S A := λ s, (Return a, s).
Definition raise {S A} (ex : exn) : M S A := λ s, (Raise ex, s).
Definition bind {S A B} (m : M S A) (k : A → M S B) : M S B :=
  λ s, match m s with
       | (Return a, s') => k a s'
       | (Raise ex, s') => (Raise ex, s')
       end.

#[global] Instance M_ret {S} : MRet (M S) := λ A, @ret S A.
#[global] Instance M_bind {S} : MBind (M S) := λ A B k m, bind m k.

(** [try: m except ...: h]: the handler sees the exception and the state the
    body left behind. *)
Definition try_except {S A} (m : M S A) (h : exn → M S A) : M S A :=
  λ s, match m s with
       | (Return a, s') => (Return a, s')
       | (Raise ex, s') => h ex s'
       end.

(** [assert b]. *)
Definition assert {S} (b : bool) : M S unit :=
  if b then ret () else raise AssertionError.

(** One hexadecimal digit, in lower case. *)
Definition hex_digit (n : nat) : ascii :=
  default "0"%char (String.list_ascii_of_string "0123456789abcdef" !! n).

(** What [repr] writes for one character inside the quotes [quote]: the
    quote and the backslash behind a backslash, tab, newline and carriage
    return by their letter, any other control character as [\xhh], and
    every other character as it is.  A byte above [0x7f] belongs to the
    UTF-8 encoding of a character, which is taken to be printable. *)
Definition repr_char (quote c : ascii) : string :=
  if bool_decide (c = quote) || bool_decide (c = "\"%char)
  then String "\"%char (String c "")
  else if bool_decide (c = "009"%char) then "\t"
  else if bool_decide (c = "010"%char) then "\n"
  else if bool_decide (c = "013"%char) then "\r"
  else if bool_decide (nat_of_ascii c < 32) || bool_decide (nat_of_ascii c = 127)
  then String "\"%char
         (String "x"%char
            (String (hex_digit (nat_of_ascii c / 16))
               (String (hex_digit (nat_of_ascii c `mod` 16)) "")))
  else String c "".

(** [repr] of a [str]: in single quotes, or in double quotes when the
    string holds a single quote and no double quote. *)
Definition repr (s : string) : string :=
  let single := "039"%char in
  let double := "034"%char in
  let characters := String.list_ascii_of_string s in
  let quote := if bool_decide (single ∈ characters)
                  && negb (bool_decide (double ∈ characters))
               then double else single in
  String quote
    (String.concat "" (repr_char quote <$> characters) +:+ String quote "").

Definition newline : string := String "010"%char "".

(** Truthiness of an optional string: [None] and the empty string are falsy. *)
Definition truthy (o : option string) : bool :=
  match o with
  | Some s => bool_decide (s ≠ "")
  | None => false
  end.

(** [l.pop()] on a Python list: the last item and the list without it. *)
Fixpoint list_pop {A} (l : list A) : option (list A * A) :=
  match l with
  | [] => None
  | x :: l' =>
      match list_pop l' with
      | None => Some ([], x)
      | Some (front, y) => Some (x :: front, y)
      end
  end.

(** ** parser.py: the node classes *)
Module parser.

(** Modelled from the spec: the token class of [parser.py], which is not
    among the sources; a token carries the source span
    [((startLine, startCol), (endLine, endCol))] of §6. *)
Record Token : Type := mkToken { span : (nat * nat) * (nat * nat) }.

(** Modelled from the spec: the node classes of [parser.py], which is not
    among the sources; they are the syntax tree of §3.  Every node has a
    [children] list and a [token] ([None] when it was not made by the
    parser); the attributes the builders read are fields.  [Define.name] and
    [Define.value], and likewise for [Assign], are the two children, in that
    order ([Interpreter._interpret_Assign] unpacks them so).  [scalar] is the
    type of the number a [Number] node holds. *)
Inductive Node (scalar : Type) : Type :=
| Create (element : string) (name : option string)
    (children : list (Node scalar)) (token : option Token)
| Template (name : string) (inherit : option string)
    (children : list (Node scalar)) (token : option Token)
| Define (children : list (Node scalar)) (token : option Token)
| Assign (children : list (Node scalar)) (token : option Token)
| UnaryOp (op : string) (children : list (Node scalar)) (token : option Token)
| BinOp (op : string) (children : list (Node scalar)) (token : option Token)
| Number (value : scalar) (unit : option string)
    (children : list (Node scalar)) (token : option Token)
| String (string : string) (children : list (Node scalar)) (token : option Token)
| Call (name : string) (children : list (Node scalar)) (token : option Token)
| Name (name : string) (children : list (Node scalar)) (token : option Token).
Arguments Create {scalar}.
Arguments Template {scalar}.
Arguments Define {scalar}.
Arguments Assign {scalar}.
Arguments UnaryOp {scalar}.
Arguments BinOp {scalar}.
Arguments Number {scalar}.
Arguments String {scalar}.
Arguments Call {scalar}.
Arguments Name {scalar}.

Definition children {scalar} (node : Node scalar) : list (Node scalar) :=
  match node with
  | Create _ _ c _ | Template _ _ c _ | Define c _ | Assign c _
  | UnaryOp _ c _ | BinOp _ c _ | Number _ _ c _ | String _ c _
  | Call _ c _ | Name _ c _ => c
  end.

(** Induction over a node and, through [Forall], over its children. *)
Section Node_rect.
Context {scalar : Type} (P : Node scalar → Prop).
Hypothesis step : ∀ node, Forall P (children node) → P node.

Fixpoint Node_children_ind (node : Node scalar) : P node :=
  let fix all (l : list (Node scalar)) : Forall P l :=
    match l with
    | [] => Forall_nil_2 P
    | c :: l' => Forall_cons_2 P c l' (Node_children_ind c) (all l')
    end in
  step node
    match node return Forall P (children node) with
    | Create _ _ c _ | Template _ _ c _ | Define c _ | Assign c _
    | UnaryOp _ c _ | BinOp _ c _ | Number _ _ c _ | String _ c _
    | Call _ c _ | Name _ c _ => all c
    end.
End Node_rect.

End parser.

(** ** datatypes.py: values *)
Module datatypes.

(** Modelled from the spec: the classes of [datatypes.py] and the classes
    [Percentage] and property reference of [element.py], none of which is
    among the sources; they are the closed set of Value variants of §3.  With
    them come the two other kinds of object a visitor of the scene builder
    can return, [None] and an element.  A property reference is the pair
    (element, property name) of §4.1; an element is named by its index in the
    store.  [TimeUnit(unit)] is represented by the suffix it was made from,
    and [func] is the type of the entries of the function registry. *)
Inductive Obj (scalar func : Type) : Type :=
| PyNone
| ElementRef (id : nat)
| Number (value : scalar)
| Percentage (value : scalar)
| Time (value : scalar) (unit : string)
| String (string : string)
| UnaryOp (op : string) (operand : Obj scalar func)
| BinOp (op : string) (lhs rhs : Obj scalar func)
| Call (function : func) (args : list (Obj scalar func))
| ElementProperty (element : nat) (name : string).
Arguments PyNone {scalar func}.
Arguments ElementRef {scalar func}.
Arguments Number {scalar func}.
Arguments Percentage {scalar func}.
Arguments Time {scalar func}.
Arguments String {scalar func}.
Arguments UnaryOp {scalar func}.
Arguments BinOp {scalar func}.
Arguments Call {scalar func}.
Arguments ElementProperty {scalar func}.

(** Induction over a value and, through [Forall], over the arguments of a
    call. *)
Section Obj_rect.
Context {scalar func : Type} (P : Obj scalar func → Prop).
Hypothesis atoms :
  P PyNone ∧ (∀ id, P (ElementRef id)) ∧ (∀ v, P (Number v))
  ∧ (∀ v, P (Percentage v)) ∧ (∀ v u, P (Time v u)) ∧ (∀ s, P (String s))
  ∧ (∀ e n, P (ElementProperty e n)).
Hypothesis unary : ∀ op o, P o → P (UnaryOp op o).
Hypothesis binary : ∀ op l r, P l → P r → P (BinOp op l r).
Hypothesis call : ∀ f args, Forall P args → P (Call f args).

Fixpoint Obj_args_ind (o : Obj scalar func) : P o :=
  let fix all (l : list (Obj scalar func)) : Forall P l :=
    match l with
    | [] => Forall_nil_2 P
    | a :: l' => Forall_cons_2 P a l' (Obj_args_ind a) (all l')
    end in
  match o with
  | PyNone => proj1 atoms
  | ElementRef id => proj1 (proj2 atoms) id
  | Number v => proj1 (proj2 (proj2 atoms)) v
  | Percentage v => proj1 (proj2 (proj2 (proj2 atoms))) v
  | Time v u => proj1 (proj2 (proj2 (proj2 (proj2 atoms)))) v u
  | String s => proj1 (proj2 (proj2 (proj2 (proj2 (proj2 atoms))))) s
  | ElementProperty e n =>
      proj2 (proj2 (proj2 (proj2 (proj2 (proj2 atoms))))) e n
  | UnaryOp op o => unary op o (Obj_args_ind o)
  | BinOp op l r => binary op l r (Obj_args_ind l) (Obj_args_ind r)
  | Call f args => call f args (all args)
  end.
End Obj_rect.

(** [isinstance(o, Value)]. *)
Definition isinstance_Value {scalar func} (o : Obj scalar func) : bool :=
  match o with
  | PyNone | ElementRef _ => false
  | _ => true
  end.

(** [isinstance(o, Element)]. *)
Definition isinstance_Element {scalar func} (o : Obj scalar func) : bool :=
  match o with
  | ElementRef _ => true
  | _ => false
  end.

End datatypes.

(** ** element.py: the element class of the scene builder *)
Module element.
Section element.
Context {scalar func : Type}.
Abbreviation Obj := (datatypes.Obj scalar func).

(** Modelled from the spec: the class [Element] of [element.py], which is
    not among the sources; an element has a kind name, an ordered list of
    owned children and a property table from names to bound values (§3). *)
Record Element : Type := mkElement {
  type_name : string;
  children : list nat;
  properties : gmap string Obj;
}.

(** Modelled from the spec: [Element()] of [element.py]; a fresh element
    has no children and no properties (its kind before a template is applied
    is not observed by the builder). *)
Definition new : Element :=
  {| type_name := "Element"; children := []; properties := ∅ |}.

(** Modelled from the spec: [Element.add] of [element.py]; the child becomes
    the last child (§4.1). *)
Definition add (child : nat) (self : Element) : Element :=
  {| type_name := type_name self;
     children := children self ++ [child];
     properties := properties self |}.

(** Modelled from the spec: [Element.define] of [element.py]; it adds an
    entry and raises [ElementPropertyDefinedError] for a name the table has
    (§4.1; the text of the message is not in the sources). *)
Definition define (name : string) (value : Obj) (self : Element)
  : outcome Element :=
  match properties self !! name with
  | Some _ =>
      Raise (ElementPropertyDefinedError
               ("Property " +:+ repr name +:+ " already defined"))
  | None =>
      Return {| type_name := type_name self;
                children := children self;
                properties := <[name := value]> (properties self) |}
  end.

(** Modelled from the spec: [Element.set] of [element.py]; it replaces the
    binding of an existing entry (§3) and raises [KeyError] for a name the
    table lacks, which is what the handler in [SceneBuilder._build_Assign]
    expects. *)
Definition set (name : string) (value : Obj) (self : Element)
  : outcome Element :=
  match properties self !! name with
  | Some _ =>
      Return {| type_name := type_name self;
                children := children self;
                properties := <[name := value]> (properties self) |}
  | None => Raise (KeyError name)
  end.

(** Modelled from the spec: [Element.get] of [element.py]; it returns the
    reference to an entry of the table, whatever the entry is bound to, and
    raises [KeyError] for a name the table lacks, which is what
    [SceneBuilder._build_Name] suppresses.  [self_id] is the identity of
    [self], which the reference records. *)
Definition get (self_id : nat) (name : string) (self : Element)
  : outcome Obj :=
  match properties self !! name with
  | Some _ => Return (datatypes.ElementProperty self_id name)
  | None => Raise (KeyError name)
  end.

#[global] Instance Element_inhabited : Inhabited Element := populate new.

End element.
Arguments Element : clear implicits.
End element.

(** ** templates.py: the built-in template classes *)
Module templates.
Section templates.
Context {scalar func : Type}.
Abbreviation Obj := (datatypes.Obj scalar func).
Abbreviation Element := (element.Element scalar func).

(** Modelled from the spec: a subclass of [Template] of [templates.py],
    which is not among the sources; a template is a named prototype with
    predeclared default properties (glossary). *)
Record Template : Type := mkTemplate {
  __name__ : string;
  declared : gmap string Obj;
}.

(** Modelled from the spec: [Template.apply] of [templates.py]; applying a
    template to an element makes the element of the template's kind and
    copies the declarations into the element's own table (§4.2, structural
    copy). *)
Definition apply (template : Template) (target : Element) : Element :=
  {| element.type_name := __name__ template;
     element.children := element.children target;
     element.properties := declared template ∪ element.properties target |}.

End templates.
Arguments Template : clear implicits.
End templates.

(** ** scenebuilder.py: class SceneBuilder *)
Module SceneBuilder.
Section SceneBuilder.
Context {scalar func : Type}.
Abbreviation Obj := (datatypes.Obj scalar func).
Abbreviation Element := (element.Element scalar func).
Abbreviation Template := (templates.Template scalar func).
Abbreviation Node := (parser.Node scalar).

(** What the imports of the module provide, none of it among the sources:
    the function registry [functions.functions], a dictionary; the values of
    the enumeration [datatypes.TimeUnit]; the text of [parser._units]; and
    the result of [Template.list_templates()]. *)
Variable functions : gmap string func.
Variable TimeUnit : list string.
Variable _units : string.
Variable list_templates : list Template.

(** The attributes of the builder ([self.templates], [self._elements], the
    scope stack with its top at the end, as the Python list has it) and the
    store of the elements created so far.  [__init__] leaves both attributes
    at [None]; [build] assigns both before anything reads them. *)
Record State : Type := mkState {
  templates : gmap string Template;
  _elements : list nat;
  heap : list Element;
}.

Abbreviation Py := (M State).

Definition set_elements (l : list nat) (s : State) : State :=
  {| templates := templates s; _elements := l; heap := heap s |}.
Definition set_heap (h : list Element) (s : State) : State :=
  {| templates := templates s; _elements := _elements s; heap := h |}.

Definition gets {A} (f : State → A) : Py A := λ s, (Return (f s), s).
Definition modify (f : State → State) : Py unit := λ s, (Return (), f s).

(** [Element()]: a fresh object, named by the next free index. *)
Definition Element_new : Py nat :=
  λ s, (Return (length (heap s)), set_heap (heap s ++ [element.new]) s).

(** A method that mutates the element [id] in place. *)
Definition update (id : nat) (method : Element → Element) : Py unit :=
  λ s, (Return (), set_heap (alter method id (heap s)) s).

(** A method that mutates the element [id] in place or raises. *)
Definition call (id : nat) (method : Element → outcome Element) : Py unit :=
  λ s, match method (heap s !!! id) with
       | Return e => (Return (), set_heap (<[id := e]> (heap s)) s)
       | Raise ex => (Raise ex, s)
       end.

(** Reading an attribute of the element [id]. *)
Definition read {A} (id : nat) (attribute : Element → A) : Py A :=
  λ s, (Return (attribute (heap s !!! id)), s).

(** [self._element]: [self._elements[-1]]. *)
Definition _element : Py nat :=
  λ s, match last (_elements s) with
       | Some e => (Return e, s)
       | None => (Raise IndexError, s)
       end.

(** [with self._push_element(element): body].  The pop and its assertion
    run only when the body returns; a raise leaves the stack as it is. *)
Definition _push_element {A} (element : nat) (body : Py A) : Py A :=
  modify (λ s, set_elements (_elements s ++ [element]) s) ;;
  a ← body;
  top ← (λ s, match list_pop (_elements s) with
              | Some (front, top) => (Return top, set_elements front s)
              | None => (Raise IndexError, s)
              end);
  assert (bool_decide (top = element)) ;;
  mret a.

Definition _create_error (message : string) (after : option string)
    (token : option parser.Token) : exn :=
  match token with
  | Some tok =>
      let '((bl, bc), (el, ec)) := parser.span tok in
      let located :=
        message +:+ " at " +:+ pretty bl +:+ ":" +:+ pretty bc
                +:+ " to " +:+ pretty el +:+ ":" +:+ pretty ec in
      if truthy after
      then SceneBuilderError (located +:+ newline +:+ default "" after)
      else SceneBuilderError located
  | None =>
      if truthy after
      then SceneBuilderError (message +:+ newline +:+ default "" after)
      else SceneBuilderError message
  end.

Definition _fail {A} (message : string) (after : option string)
    (token : option parser.Token) : Py A :=
  raise (_create_error message after token).

Definition _build_Create (element : string) (name : option string)
    (token : option parser.Token) (_build_children : Py (list Obj)) : Py Obj :=
  template ← (λ s, match templates s !! element with
                   | Some t => (Return t, s)
                   | None =>
                       (Raise (_create_error
                                 ("Creating undefined " +:+ repr element +:+ " template")
                                 None token), s)
                   end);
  new ← Element_new;
  if truthy name then raise NotImplementedError else
  parent ← try_except (p ← _element; mret (Some p))
             (λ ex, match ex with
                    | IndexError => mret None
                    | _ => raise ex
                    end);
  match parent with
  | Some p => update p (element.add new)
  | None => mret ()
  end ;;
  update new (templates.apply template) ;;
  _push_element new _build_children ;;
  mret (datatypes.ElementRef new).

Definition _build_Template : Py Obj := raise NotImplementedError.

(** [name] is [define.name], [_build_value] is [self._build(define.value)]. *)
Definition _build_Define (name : Node) (token : option parser.Token)
    (_build_value : Py Obj) : Py Obj :=
  match name with
  | parser.Name name _ _ =>
      value ← _build_value;
      assert (datatypes.isinstance_Value value) ;;
      try_except
        (self ← _element; call self (element.define name value))
        (λ ex, match ex with
               | ElementPropertyDefinedError _ =>
                   self ← _element;
                   type_name ← read self element.type_name;
                   raise (_create_error (str_exn ex +:+ " in " +:+ type_name)
                            None token)
               | _ => raise ex
               end) ;;
      mret datatypes.PyNone
  | _ => raise AssertionError
  end.

Definition _build_Assign (name : Node) (token : option parser.Token)
    (_build_value : Py Obj) : Py Obj :=
  match name with
  | parser.Name name _ _ =>
      value ← _build_value;
      assert (datatypes.isinstance_Value value) ;;
      try_except
        (self ← _element; call self (element.set name value))
        (λ ex, match ex with
               | KeyError _ =>
                   self ← _element;
                   type_name ← read self element.type_name;
                   raise (_create_error
                            ("Assigning value to undefined property "
                               +:+ repr name +:+ " in " +:+ type_name)
                            None token)
               | TypeError _ =>
                   self ← _element;
                   type_name ← read self element.type_name;
                   raise (_create_error (str_exn ex +:+ " in " +:+ type_name)
                            None token)
               | CircularReferenceError _ paths =>
                   let paths :=
                     String.concat newline (String.concat " -> " <$> paths) in
                   self ← _element;
                   type_name ← read self element.type_name;
                   raise (_create_error (str_exn ex +:+ " in " +:+ type_name)
                            (Some ("Paths:" +:+ newline +:+ paths)) token)
               | _ => raise ex
               end) ;;
      mret datatypes.PyNone
  | _ => raise AssertionError
  end.

Definition _build_UnaryOp (op : string) (_build_operand : Py Obj) : Py Obj :=
  operand ← _build_operand;
  mret (datatypes.UnaryOp op operand).

Definition _build_BinOp (op : string) (_build_lhs _build_rhs : Py Obj) : Py Obj :=
  lhs ← _build_lhs;
  rhs ← _build_rhs;
  mret (datatypes.BinOp op lhs rhs).

(** The [return number] after the last branch is never reached: [_fail]
    raises. *)
Definition _build_Number (value : scalar) (unit : option string)
    (children : list Node) (token : option parser.Token) : Py Obj :=
  assert (bool_decide (length children = 0)) ;;
  match unit with
  | None => mret (datatypes.Number value)
  | Some unit =>
      if bool_decide (unit = "%") then mret (datatypes.Percentage value)
      else if bool_decide (unit ∈ TimeUnit) then mret (datatypes.Time value unit)
      else _fail ("Unexpected unit " +:+ repr unit +:+ ", expected any of "
                    +:+ _units) None token
  end.

Definition _build_String (string : string) (children : list Node) : Py Obj :=
  assert (bool_decide (length children = 0)) ;;
  mret (datatypes.String string).

(** [functions[call.name]] raises [KeyError] for an unknown name; nothing
    here catches it. *)
Definition _build_Call (name : string) (_build_children : Py (list Obj)) : Py Obj :=
  args ← _build_children;
  match functions !! name with
  | Some function => mret (datatypes.Call function args)
  | None => raise (KeyError name)
  end.

(** The loop of [_build_Name] over [reversed(self._elements)]. *)
Fixpoint _build_Name_scan (name : string) (token : option parser.Token)
    (elements : list nat) : Py Obj :=
  match elements with
  | [] => _fail ("Undefined property " +:+ repr name) None token
  | e :: elements =>
      λ s, match element.get e name (heap s !!! e) with
           | Return property => (Return property, s)
           | Raise (KeyError _) => _build_Name_scan name token elements s
           | Raise ex => (Raise ex, s)
           end
  end.

Definition _build_Name (name : string) (children : list Node)
    (token : option parser.Token) : Py Obj :=
  assert (bool_decide (length children = 0)) ;;
  elements ← gets (λ s, reverse (_elements s));
  _build_Name_scan name token elements.

(** [_build]: the dispatch on the class of the node.  [_build_children] is
    the generator over [node.children], run to its end. *)
Fixpoint _build (node : Node) {struct node} : Py Obj :=
  let fix _build_children (children : list Node) : Py (list Obj) :=
    match children with
    | [] => mret []
    | child :: children =>
        built ← _build child;
        rest ← _build_children children;
        mret (built :: rest)
    end in
  match node with
  | parser.Create element name children token =>
      _build_Create element name token (_build_children children)
  | parser.Template _ _ _ _ => _build_Template
  | parser.Define children token =>
      match children with
      | [name; value] => _build_Define name token (_build value)
      | _ => raise AssertionError
      end
  | parser.Assign children token =>
      match children with
      | [name; value] => _build_Assign name token (_build value)
      | _ => raise AssertionError
      end
  | parser.UnaryOp op children _ =>
      match children with
      | [operand] => _build_UnaryOp op (_build operand)
      | _ => raise AssertionError
      end
  | parser.BinOp op children _ =>
      match children with
      | [lhs; rhs] => _build_BinOp op (_build lhs) (_build rhs)
      | _ => raise AssertionError
      end
  | parser.Number value unit children token =>
      _build_Number value unit children token
  | parser.String string children _ => _build_String string children
  | parser.Call name children _ => _build_Call name (_build_children children)
  | parser.Name name children token => _build_Name name children token
  end.

Fixpoint _build_children (children : list Node) : Py (list Obj) :=
  match children with
  | [] => mret []
  | child :: children =>
      built ← _build child;
      rest ← _build_children children;
      mret (built :: rest)
  end.

(** [build] on a syntax tree (the [str] branch only parses and recurses). *)
Definition build (string : Node) : Py Obj :=
  match string with
  | parser.Create element _ _ _ =>
      assert (bool_decide (element = "Scene")) ;;
      modify (λ s, {| templates :=
                        foldl (λ d template,
                                 <[templates.__name__ template := template]> d)
                          ∅ list_templates;
                      _elements := [];
                      heap := heap s |}) ;;
      scene ← _build string;
      assert (datatypes.isinstance_Element scene) ;;
      match scene with
      | datatypes.ElementRef id =>
          type_name ← read id element.type_name;
          assert (bool_decide (type_name = "Scene"))
      | _ => raise AssertionError
      end ;;
      mret scene
  | _ => raise AssertionError
  end.

End SceneBuilder.
Arguments State : clear implicits.
End SceneBuilder.

(** ** elements.py: the element class of the interpreter *)
Module elements.
Section elements.
Context {scalar : Type}.

(** What a visitor of [Interpreter] returns: [None], a string, a syntax node
    or an element, named by its index in the store. *)
Inductive Obj : Type :=
| PyNone
| PyStr (s : string)
| NodeObj (node : parser.Node scalar)
| ElementRef (id : nat).

(** Modelled from the spec: the class [Element] of [elements.py], which is
    not among the sources; an element has a name, owned children and a
    property table (§3), and is an instance of [Element] or of one of its
    subclasses. *)
Record Element : Type := mkElement {
  class_name : string;
  name : string;
  children : list nat;
  properties : gmap string Obj;
}.

(** Modelled from the spec: [Element()] of [elements.py]; a fresh element has
    no children and no properties. *)
Definition new : Element :=
  {| class_name := "Element"; name := ""; children := []; properties := ∅ |}.

(** [element.name = n]. *)
Definition set_name (n : string) (self : Element) : Element :=
  {| class_name := class_name self; name := n;
     children := children self; properties := properties self |}.

(** Modelled from the spec: [Element.add] of [elements.py]; the child becomes
    the last child. *)
Definition add (child : nat) (self : Element) : Element :=
  {| class_name := class_name self; name := name self;
     children := children self ++ [child]; properties := properties self |}.

(** [isinstance(o, Element)]. *)
Definition isinstance_Element (o : Obj) : bool :=
  match o with
  | ElementRef _ => true
  | _ => false
  end.

#[global] Instance Element_inhabited : Inhabited Element := populate new.

End elements.
Arguments Obj : clear implicits.
Arguments Element : clear implicits.
End elements.

(** ** interpreter.py: class Interpreter *)
Module Interpreter.
Section Interpreter.
Context {scalar : Type}.
Abbreviation Obj := (elements.Obj scalar).
Abbreviation Element := (elements.Element scalar).
Abbreviation Node := (parser.Node scalar).

(** A registry entry is a class of [elements] (given by the instance its
    constructor makes) or a prototype declared by a [Template] node. *)
Inductive template : Type :=
| Class (constructed : Element)
| Prototype (id : nat).

(** What [elements.py], which is not among the sources, decides:
    [internal_templates], as the module-level loop leaves it, and the two
    methods of [elements.Element] whose effect the spec does not fix for
    this pipeline, [template.apply(element)], which may read and write the
    store and, when it does not raise, returns [element], and
    [element.set(name, value)]. *)
Variable internal_templates : gmap string Element.
Variable Element_apply :
  nat → nat → list Element → outcome () * list Element.
Variable Element_set : Obj → Obj → Element → outcome Element.

Record State : Type := mkState {
  templates : gmap string template;
  _elements : list nat;
  heap : list Element;
}.

Abbreviation Py := (M State).

Definition set_templates (d : gmap string template) (s : State) : State :=
  {| templates := d; _elements := _elements s; heap := heap s |}.
Definition set_elements (l : list nat) (s : State) : State :=
  {| templates := templates s; _elements := l; heap := heap s |}.
Definition set_heap (h : list Element) (s : State) : State :=
  {| templates := templates s; _elements := _elements s; heap := h |}.

Definition gets {A} (f : State → A) : Py A := λ s, (Return (f s), s).
Definition modify (f : State → State) : Py unit := λ s, (Return (), f s).

(** A constructor call: a fresh object with the given contents. *)
Definition construct (e : Element) : Py nat :=
  λ s, (Return (length (heap s)), set_heap (heap s ++ [e]) s).

Definition update (id : nat) (method : Element → Element) : Py unit :=
  λ s, (Return (), set_heap (alter method id (heap s)) s).

Definition call (id : nat) (method : Element → outcome Element) : Py unit :=
  λ s, match method (heap s !!! id) with
       | Return e => (Return (), set_heap (<[id := e]> (heap s)) s)
       | Raise ex => (Raise ex, s)
       end.

Definition read {A} (id : nat) (attribute : Element → A) : Py A :=
  λ s, (Return (attribute (heap s !!! id)), s).

Definition _create_error (message : string) (token : option parser.Token) : exn :=
  match token with
  | Some tok =>
      let '((bl, bc), (el, ec)) := parser.span tok in
      InterpreterError
        (message +:+ " at " +:+ pretty bl +:+ ":" +:+ pretty bc
                 +:+ " to " +:+ pretty el +:+ ":" +:+ pretty ec)
  | None => InterpreterError message
  end.

Definition _fail {A} (message : string) (token : option parser.Token) : Py A :=
  raise (_create_error message token).

Definition _get_template (name : string) (token : option parser.Token)
  : Py template :=
  λ s, match templates s !! name with
       | Some t => (Return t, s)
       | None =>
           (Raise (_create_error
                     ("Creating undefined " +:+ repr name +:+ " template") token), s)
       end.

(** The two assertions hold of every entry: a class in the registry is a
    subclass of [Element], a prototype is an [Element]. *)
Definition apply (source element : nat) : Py nat :=
  λ s, match Element_apply source element (heap s) with
       | (Return _, h) => (Return element, set_heap h s)
       | (Raise ex, h) => (Raise ex, set_heap h s)
       end.

Definition _apply_template (t : template) (element : nat) : Py nat :=
  match t with
  | Class constructed =>
      source ← construct constructed;
      apply source element
  | Prototype id => apply id element
  end.

Definition _instantiate_template (t : template) : Py nat :=
  element ← construct elements.new;
  _apply_template t element.

Definition _element : Py nat :=
  λ s, match last (_elements s) with
       | Some e => (Return e, s)
       | None => (Raise IndexError, s)
       end.

Definition _push_element {A} (element : nat) (body : Py A) : Py A :=
  modify (λ s, set_elements (_elements s ++ [element]) s) ;;
  a ← body;
  top ← (λ s, match list_pop (_elements s) with
              | Some (front, top) => (Return top, set_elements front s)
              | None => (Raise IndexError, s)
              end);
  assert (bool_decide (top = element)) ;;
  mret a.

(** One turn of the loop over [_interpret_children]: what is done with a
    child once it is interpreted. *)
Definition attach (element : nat) (child : Obj) : Py unit :=
  match child with
  | elements.PyNone => mret ()
  | elements.ElementRef c => update element (elements.add c)
  | _ => raise AssertionError
  end.

(** [children_loop element] is the [for] loop over the children, attaching
    to [element]. *)
Definition _interpret_Create (element : string) (name : option string)
    (token : option parser.Token) (children_loop : nat → Py unit) : Py Obj :=
  t ← _get_template element token;
  new ← _instantiate_template t;
  if truthy name then raise NotImplementedError else
  _push_element new (children_loop new) ;;
  mret (elements.ElementRef new).

Definition _interpret_Template (name : string) (inherit : option string)
    (token : option parser.Token) (children_loop : nat → Py unit) : Py Obj :=
  element_template ← construct elements.new;
  update element_template (elements.set_name name) ;;
  registered ← gets (λ s, bool_decide (is_Some (templates s !! name)));
  if registered : bool
  then _fail ("Redeclaration of " +:+ repr name) token else
  (match inherit with
   | Some base =>
       _template ← _get_template base token;
       _apply_template _template element_template ;;
       mret ()
   | None => mret ()
   end : Py ()) ;;
  _push_element element_template (children_loop element_template) ;;
  modify (λ s, set_templates
                 (<[name := Prototype element_template]> (templates s)) s) ;;
  mret elements.PyNone.

Definition _interpret_BinOp : Py Obj := raise NotImplementedError.
Definition _interpret_UnaryOp : Py Obj := raise NotImplementedError.

Definition _interpret_Assign (name value : Obj) : Py Obj :=
  self ← _element;
  call self (Element_set name value) ;;
  mret elements.PyNone.

Definition _interpret_Name (name : string) (children : list Node) : Py Obj :=
  assert (bool_decide (length children = 0)) ;;
  mret (elements.PyStr name).

Definition _interpret_Number (number : Node) : Py Obj :=
  assert (bool_decide (length (parser.children number) = 0)) ;;
  mret (elements.NodeObj number).

Definition _interpret_String (string : string) (children : list Node) : Py Obj :=
  assert (bool_decide (length children = 0)) ;;
  mret (elements.PyStr string).

(** [_interpret]: dispatch on the class of the node; [Define] and [Call]
    have no visitor, so [getattr] raises.  The unpacking in
    [_interpret_Assign] draws one item more than it binds to find out
    whether the generator is exhausted. *)
Fixpoint _interpret (node : Node) {struct node} : Py Obj :=
  let fix children_loop (children : list Node) (element : nat) : Py unit :=
    match children with
    | [] => mret ()
    | child :: children =>
        built ← _interpret child;
        attach element built ;;
        children_loop children element
    end in
  match node with
  | parser.Create element name children token =>
      _interpret_Create element name token (children_loop children)
  | parser.Template name inherit children token =>
      _interpret_Template name inherit token (children_loop children)
  | parser.Define _ _ => raise (AttributeError "_interpret_Define")
  | parser.Call _ _ _ => raise (AttributeError "_interpret_Call")
  | parser.BinOp _ _ _ => _interpret_BinOp
  | parser.UnaryOp _ _ _ => _interpret_UnaryOp
  | parser.Assign children _ =>
      match children with
      | [] => raise ValueError
      | [name] => _interpret name ;; raise ValueError
      | [name; value] =>
          name ← _interpret name;
          value ← _interpret value;
          _interpret_Assign name value
      | name :: value :: extra :: _ =>
          _interpret name ;; _interpret value ;; _interpret extra ;;
          raise ValueError
      end
  | parser.Name name children _ => _interpret_Name name children
  | parser.Number _ _ _ _ => _interpret_Number node
  | parser.String string children _ => _interpret_String string children
  end.

Fixpoint children_loop (children : list Node) (element : nat) : Py unit :=
  match children with
  | [] => mret ()
  | child :: children =>
      built ← _interpret child;
      attach element built ;;
      children_loop children element
  end.

(** [interpret] on a syntax tree (the [str] branch only parses and recurses). *)
Definition interpret (string : Node) : Py Obj :=
  match string with
  | parser.Create element _ _ _ =>
      assert (bool_decide (element = "Scene")) ;;
      modify (λ s, {| templates := Class <$> internal_templates;
                      _elements := [];
                      heap := heap s |}) ;;
      scene ← _interpret string;
      match scene with
      | elements.ElementRef id =>
          class_name ← read id elements.class_name;
          name ← read id elements.name;
          assert (bool_decide (class_name = "Scene")
                  || bool_decide (name = "Scene"))
      | _ => raise AssertionError
      end ;;
      mret scene
  | _ => raise AssertionError
  end.

End Interpreter.
Arguments State : clear implicits.
Arguments template : clear implicits.
End Interpreter.

(** ** rasterizer.py: images and fonts *)
Module rasterizer.

(** A pixel of an ["RGBA"] image: red, green, blue, alpha. *)
Definition Pixel : Type := (Z * Z * Z * Z)%type.

(** A PIL image, as far as this module looks into one: its [mode] and the
    pixels [getdata()] yields when the mode is ["RGBA"]. *)
Record PIL_Image : Type := mkPIL_Image {
  mode : string;
  getdata : list Pixel;
}.

(** The [for] loop of [_is_opaque]. *)
Fixpoint _is_opaque_loop (data : list Pixel) : bool :=
  match data with
  | [] => true
  | (_, _, _, a) :: data =>
      if bool_decide (a ≠ 255%Z) then false else _is_opaque_loop data
  end.

Definition _is_opaque (image : PIL_Image) : outcome bool :=
  if bool_decide (mode image ∈ ["RGB"; "RGBA"]) then
    if bool_decide (mode image = "RGB") then Return true
    else Return (_is_opaque_loop (getdata image))
  else Raise AssertionError.

(** [class Image]: the wrapped PIL image and the cached opacity. *)
Record Image : Type := mkImage {
  _image : PIL_Image;
  _opaque : option bool;
}.

Definition Image__init__ (image : PIL_Image) : Image :=
  {| _image := image; _opaque := None |}.

(** The property [Image.opaque]. *)
Definition opaque : M Image bool :=
  λ self, match _opaque self with
          | None =>
              match _is_opaque (_image self) with
              | Return b => (Return b, {| _image := _image self;
                                          _opaque := Some b |})
              | Raise ex => (Raise ex, self)
              end
          | Some b => (Return b, self)
          end.

(** [self._image = image]: the one write that [resize], [paste] and the
    [draw_*] methods make to the object. *)
Definition set_image (image : PIL_Image) (self : Image) : Image :=
  {| _image := image; _opaque := _opaque self |}.

(** [sequence[index]] of Python, with its negative indices. *)
Definition getitem {A} (sequence : list A) (index : Z) : outcome A :=
  let n := Z.of_nat (length sequence) in
  let index := if bool_decide (index < 0)%Z then (n + index)%Z else index in
  if bool_decide (0 ≤ index)%Z
  then match sequence !! Z.to_nat index with
       | Some a => Return a
       | None => Raise IndexError
       end
  else Raise IndexError.

Section draw_polygon.
Context {number : Type}.

(** A [Point] of [properties.py], as far as it is read here: [x] and [y]. *)
Record Point : Type := mkPoint { x : number; y : number }.

(** The outline loop of [draw_polygon] over [range(0, len(points))];
    [lines] are the arguments of the calls of [draw.line] made so far. *)
Fixpoint outline_loop (points : list Point) (range : list nat)
    (lines : list (number * number * number * number))
  : outcome (list (number * number * number * number)) :=
  match range with
  | [] => Return lines
  | i :: range =>
      match getitem points (Z.of_nat i - 1) with
      | Return p =>
          match getitem points (Z.of_nat i) with
          | Return q =>
              outline_loop points range (lines ++ [(x p, y p, x q, y q)])
          | Raise ex => Raise ex
          end
      | Raise ex => Raise ex
      end
  end.

Definition outline (points : list Point)
  : outcome (list (number * number * number * number)) :=
  outline_loop points (seq 0 (length points)) [].

End draw_polygon.
Arguments Point : clear implicits.

(** [class Font].  [getsize] is [self._font.getsize] of PIL and
    [splitlines] is [str.splitlines]. *)
Section Font.
Variable getsize : string → Z * Z.
Variable splitlines : string → list string.

Definition measure_line (line : string) : Z * Z := getsize line.

Definition measure_lines (text : string) : list (Z * Z) :=
  measure_line <$> splitlines text.

(** The loop of [measure_text] over [enumerate(self.measure_lines(text))],
    from the index [i] on. *)
Fixpoint measure_text_loop (spacing : Z) (i : nat) (lines : list (Z * Z))
    (width height : Z) : Z * Z :=
  match lines with
  | [] => (width, height)
  | (w, h) :: lines =>
      let width := Z.max width w in
      let height := (height + h)%Z in
      let height := if bool_decide (0 < i) then (height + spacing)%Z
                    else height in
      measure_text_loop spacing (S i) lines width height
  end.

Definition measure_text (text : string) (spacing : Z) : Z * Z :=
  measure_text_loop spacing 0 (measure_lines text) 0%Z 0%Z.

End Font.

(** What [Font.load] is given as [font], and what the keys of [_fonts]
    hold: a file name, or a font object of PIL, known by its identity. *)
Abbreviation font_source := (string + nat)%type.

(** The module-level cache [_fonts], and the number of font objects
    [truetype] has made. *)
Record Fonts : Type := mkFonts {
  _fonts : gmap (font_source * Z) nat;
  objects : nat;
}.

(** What [Font.load] returns: the object found in the cache as it is, or a
    new [Font(font, size)]. *)
Inductive loaded : Type :=
| cached (font : nat)
| Font (font : nat) (size : Z).

Section load.
(** Whether [ImageFont.truetype(font, size)] raises, and what. *)
Variable truetype_raises : font_source → Z → option exn.

Definition truetype (font : font_source) (size : Z) : M Fonts nat :=
  λ st, match truetype_raises font size with
        | Some ex => (Raise ex, st)
        | None => (Return (objects st),
                   {| _fonts := _fonts st; objects := S (objects st) |})
        end.

(** [_fonts[key] = value]. *)
Definition setitem (key : font_source * Z) (value : nat) : M Fonts unit :=
  λ st, (Return (), {| _fonts := <[key := value]> (_fonts st);
                       objects := objects st |}).

(** [size] is [int(size)]. *)
Definition load (font : font_source) (size : Z) : M Fonts loaded :=
  try_except
    (λ st, match _fonts st !! (font, size) with
           | Some found => (Return (cached found), st)
           | None => (Raise (KeyError "(font, size)"), st)
           end)
    (λ ex, match ex with
           | KeyError _ =>
               font ← truetype font size;
               setitem (inr font, size) font ;;
               mret (Font font size)
           | _ => raise ex
           end).

End load.

End rasterizer.

(** ** A sample installation

    Concrete stand-ins for what the modules import, and two small states, to
    run the pipelines on: scalars are integers, a function is named by its
    slot in the registry. *)
Module sample.

Definition functions : gmap string nat := {[ "sin" := 0 ]}.
Definition TimeUnit : list string := ["s"; "ms"].
Definition _units : string := "['%', 's', 'ms']".

Definition Scene : templates.Template Z nat :=
  {| templates.__name__ := "Scene";
     templates.declared := {[ "width" := datatypes.Number 1920%Z ]} |}.
Definition Rectangle : templates.Template Z nat :=
  {| templates.__name__ := "Rectangle";
     templates.declared := {[ "x" := datatypes.Number 0%Z ]} |}.
Definition list_templates : list (templates.Template Z nat) :=
  [Scene; Rectangle].

(** A builder that was never used, with an empty store. *)
Definition fresh : SceneBuilder.State Z nat :=
  {| SceneBuilder.templates := ∅;
     SceneBuilder._elements := [];
     SceneBuilder.heap := [] |}.

(** The state inside the root [Create] of a scene: the scene element is
    element 0 and is on the stack. *)
Definition in_scene : SceneBuilder.State Z nat :=
  {| SceneBuilder.templates :=
       {[ "Scene" := Scene; "Rectangle" := Rectangle ]};
     SceneBuilder._elements := [0];
     SceneBuilder.heap :=
       [templates.apply Scene element.new] |}.

Definition build := SceneBuilder.build functions TimeUnit _units list_templates.
Definition _build := SceneBuilder._build (scalar:=Z) functions TimeUnit _units.

Definition a_rectangle : parser.Node Z :=
  parser.Create "Rectangle" None
    [parser.Define [parser.Name "y" [] None;
                    parser.Name "width" [] None] None] None.

Definition a_scene : parser.Node Z :=
  parser.Create "Scene" None
    [parser.Assign [parser.Name "width" [] None;
                    parser.Number 1280%Z None [] None] None;
     a_rectangle] None.

(** The interpreter's side: one class, a template application that copies
    the name and the declarations, and a [set] that replaces the binding of
    a declared name. *)
Definition Scene_class : elements.Element Z :=
  {| elements.class_name := "Scene"; elements.name := "Scene";
     elements.children := [];
     elements.properties := {[ "width" := elements.PyStr "1920" ]} |}.
Definition internal_templates : gmap string (elements.Element Z) :=
  {[ "Scene" := Scene_class ]}.

Definition Element_apply (source target : nat) (h : list (elements.Element Z))
  : outcome () * list (elements.Element Z) :=
  (Return (),
   alter (λ e, {| elements.class_name := elements.class_name e;
                  elements.name := elements.name (h !!! source);
                  elements.children := elements.children e;
                  elements.properties :=
                    elements.properties (h !!! source)
                      ∪ elements.properties e |}) target h).

Definition Element_set (name value : elements.Obj Z) (e : elements.Element Z)
  : outcome (elements.Element Z) :=
  match name with
  | elements.PyStr k =>
      match elements.properties e !! k with
      | Some _ =>
          Return {| elements.class_name := elements.class_name e;
                    elements.name := elements.name e;
                    elements.children := elements.children e;
                    elements.properties :=
                      <[k := value]> (elements.properties e) |}
      | None => Raise (KeyError k)
      end
  | _ => Raise (TypeError "property name")
  end.

Definition _interpret :=
  Interpreter._interpret (scalar:=Z) Element_apply Element_set.

Definition interpreting : Interpreter.State Z :=
  {| Interpreter.templates := Interpreter.Class <$> internal_templates;
     Interpreter._elements := [0];
     Interpreter.heap := [Scene_class] |}.

(** [width * 2], an expression over a property of the scene. *)
Definition an_expression : parser.Node Z :=
  parser.BinOp "*" [parser.Name "width" [] None;
                    parser.Number 2%Z None [] None] None.

(** The body of [a_scene]. *)
Definition a_body : list (parser.Node Z) :=
  [parser.Assign [parser.Name "width" [] None;
                  parser.Number 1280%Z None [] None] None;
   a_rectangle].

Definition _build_children :=
  SceneBuilder._build_children (scalar:=Z) functions TimeUnit _units.

End sample.

(** * Properties of the two pipelines *)

Ltac run_step :=
  repeat progress
    (unfold mbind, M_bind, mret, M_ret, bind, ret, raise, assert, try_except;
     cbv beta iota).

Tactic Notation "run_step" "in" hyp(H) :=
  repeat progress
    (unfold mbind, M_bind, mret, M_ret, bind, ret, raise, assert, try_except
       in H;
     cbv beta iota in H).

Section facts.
Context {scalar func : Type}.
Context (functions : gmap string func) (TimeUnit : list string)
  (_units : string) (list_templates : list (templates.Template scalar func)).
Context (internal_templates : gmap string (elements.Element scalar))
  (Element_apply :
     nat → nat → list (elements.Element scalar)
     → outcome () * list (elements.Element scalar))
  (Element_set :
     elements.Obj scalar → elements.Obj scalar → elements.Element scalar
     → outcome (elements.Element scalar)).

Abbreviation State := (SceneBuilder.State scalar func).
Abbreviation Node := (parser.Node scalar).
Abbreviation Obj := (datatypes.Obj scalar func).
Abbreviation _build :=
  (SceneBuilder._build (scalar:=scalar) functions TimeUnit _units).
Abbreviation _build_children :=
  (SceneBuilder._build_children (scalar:=scalar) functions TimeUnit _units).
Abbreviation build :=
  (SceneBuilder.build (scalar:=scalar) functions TimeUnit _units
     list_templates).
Abbreviation IState := (Interpreter.State scalar).
Abbreviation _interpret := (Interpreter._interpret Element_apply Element_set).
Abbreviation children_loop :=
  (Interpreter.children_loop Element_apply Element_set).
Abbreviation interpret :=
  (Interpreter.interpret internal_templates Element_apply Element_set).

(** ** The notions the statements are written with *)

(** The property table of the element [e] has an entry for [name], whatever
    the entry is bound to. *)
Definition declares (name : string) (s : State) (e : nat) : bool :=
  bool_decide
    (is_Some (element.properties (SceneBuilder.heap s !!! e) !! name)).

Definition is_Return {A} (o : outcome A) : Prop :=
  match o with Return _ => True | Raise _ => False end.

(** What a visit can do to the store and the registry: the registry is
    kept, elements are only added, an element that is not the current one
    is left alone, and children are only appended. *)
Definition grows (s s' : State) : Prop :=
  SceneBuilder.templates s' = SceneBuilder.templates s
  ∧ length (SceneBuilder.heap s) ≤ length (SceneBuilder.heap s')
  ∧ ∀ r, r < length (SceneBuilder.heap s) →
      (last (SceneBuilder._elements s) ≠ Some r →
       SceneBuilder.heap s' !! r = SceneBuilder.heap s !! r)
      ∧ element.children (SceneBuilder.heap s !!! r)
          `prefix_of` element.children (SceneBuilder.heap s' !!! r).

(** The state in which the children of a [Create] are built: the new
    element is allocated, attached to the element on top of the stack (if
    there is one), given the template, and pushed. *)
Definition attached (t : templates.Template scalar func) (s : State) : State :=
  let new := length (SceneBuilder.heap s) in
  let h := SceneBuilder.heap s ++ [element.new] in
  let h := match last (SceneBuilder._elements s) with
           | Some p => alter (element.add new) p h
           | None => h
           end in
  {| SceneBuilder.templates := SceneBuilder.templates s;
     SceneBuilder._elements := SceneBuilder._elements s ++ [new];
     SceneBuilder.heap := alter (templates.apply t) new h |}.

(** A computation that leaves the registry alone, only adds elements,
    mutates no old element but the current one, only appends children, and
    gives the scope stack back when it returns. *)
Definition visit_ok {A} (m : M State A) : Prop :=
  ∀ s out s', m s = (out, s') →
    grows s s'
    ∧ (is_Return out → SceneBuilder._elements s' = SceneBuilder._elements s).

(** The same for a computation that never moves the scope stack. *)
Definition quiet {A} (m : M State A) : Prop :=
  ∀ s out s', m s = (out, s') →
    grows s s' ∧ SceneBuilder._elements s' = SceneBuilder._elements s.

(** A computation of the interpreter that gives the scope stack back when
    it returns, and one that never moves it. *)
Definition balanced {A} (m : M IState A) : Prop :=
  ∀ s a s', m s = (Return a, s') →
    Interpreter._elements s' = Interpreter._elements s.

Definition still {A} (m : M IState A) : Prop :=
  ∀ s out s', m s = (out, s') →
    Interpreter._elements s' = Interpreter._elements s.

(** The state in which the body of a [Template] declaration without a base
    is interpreted: the prototype is allocated, named and pushed. *)
Definition declaring (name : string) (s : IState) : IState :=
  {| Interpreter.templates := Interpreter.templates s;
     Interpreter._elements :=
       Interpreter._elements s ++ [length (Interpreter.heap s)];
     Interpreter.heap :=
       alter (elements.set_name name) (length (Interpreter.heap s))
         (Interpreter.heap s ++ [elements.new]) |}.

(** Moving a build behind a store [old] that is already there: every
    element index grows by the length of [old]. *)
Fixpoint relocate_Obj (k : nat) (o : Obj) : Obj :=
  match o with
  | datatypes.ElementRef id => datatypes.ElementRef (k + id)
  | datatypes.ElementProperty e n => datatypes.ElementProperty (k + e) n
  | datatypes.UnaryOp op o => datatypes.UnaryOp op (relocate_Obj k o)
  | datatypes.BinOp op l r =>
      datatypes.BinOp op (relocate_Obj k l) (relocate_Obj k r)
  | datatypes.Call f args => datatypes.Call f (map (relocate_Obj k) args)
  | _ => o
  end.

Definition relocate_Element (k : nat) (e : element.Element scalar func)
  : element.Element scalar func :=
  {| element.type_name := element.type_name e;
     element.children := Nat.add k <$> element.children e;
     element.properties := relocate_Obj k <$> element.properties e |}.

Definition relocate_Template (k : nat) (t : templates.Template scalar func)
  : templates.Template scalar func :=
  {| templates.__name__ := templates.__name__ t;
     templates.declared := relocate_Obj k <$> templates.declared t |}.

Definition relocate (old : list (element.Element scalar func)) (s : State)
  : State :=
  {| SceneBuilder.templates :=
       relocate_Template (length old) <$> SceneBuilder.templates s;
     SceneBuilder._elements := Nat.add (length old) <$> SceneBuilder._elements s;
     SceneBuilder.heap :=
       old ++ (relocate_Element (length old) <$> SceneBuilder.heap s) |}.

Definition relocate_outcome {A} (f : A → A) (o : outcome A) : outcome A :=
  match o with
  | Return a => Return (f a)
  | Raise ex => Raise ex
  end.

(** [m'], run behind a store [old], does what [m] does on its own, moved. *)
Definition follows_behind {A} (old : list (element.Element scalar func))
    (f : A → A) (m' m : M State A) : Prop :=
  ∀ s, m' (relocate old s)
       = (relocate_outcome f (m s).1, relocate old (m s).2).

(** A value that names no element. *)
Fixpoint closed (o : Obj) : bool :=
  match o with
  | datatypes.ElementRef _ | datatypes.ElementProperty _ _ => false
  | datatypes.UnaryOp _ o => closed o
  | datatypes.BinOp _ l r => closed l && closed r
  | datatypes.Call _ args => forallb closed args
  | _ => true
  end.

Definition closed_Template (t : templates.Template scalar func) : Prop :=
  map_Forall (λ _ v, closed v = true) (templates.declared t).

(** The registry [build] starts from. *)
Definition builtin_registry : gmap string (templates.Template scalar func) :=
  foldl (λ d template, <[templates.__name__ template := template]> d)
    ∅ list_templates.

(** What [build] does once the root passed the entry assertions and the
    attributes are reset. *)
Definition build_scene (string : Node) : M State Obj :=
  scene ← _build string;
  assert (datatypes.isinstance_Element scene) ;;
  match scene with
  | datatypes.ElementRef id =>
      type_name ← SceneBuilder.read id element.type_name;
      assert (bool_decide (type_name = "Scene"))
  | _ => raise AssertionError
  end ;;
  mret scene.

Definition reset (s : State) : State :=
  {| SceneBuilder.templates := builtin_registry;
     SceneBuilder._elements := [];
     SceneBuilder.heap := SceneBuilder.heap s |}.

(** An expression: a tree of literals, names, operators and calls. *)
Fixpoint expression (node : Node) : bool :=
  match node with
  | parser.Number _ _ _ _ | parser.String _ _ _ | parser.Name _ _ _ => true
  | parser.UnaryOp _ children _ | parser.BinOp _ children _
  | parser.Call _ children _ => forallb expression children
  | _ => false
  end.

(** The property references a value holds, left to right. *)
Fixpoint references (o : Obj) : list (nat * string) :=
  match o with
  | datatypes.ElementProperty e n => [(e, n)]
  | datatypes.UnaryOp _ o => references o
  | datatypes.BinOp _ l r => references l ++ references r
  | datatypes.Call _ args => flat_map references args
  | _ => []
  end.


(** A computation that only pushes onto the scope stack it is given, and
    gives the stack back when it returns. *)
Definition scoped {A} (m : M State A) : Prop :=
  ∀ s out s', m s = (out, s') →
    SceneBuilder._elements s `prefix_of` SceneBuilder._elements s'
    ∧ (is_Return out → SceneBuilder._elements s' = SceneBuilder._elements s).

(** What [_build_Define] and [_build_Assign] do with the built value. *)
Definition define_value (name : string) (token : option parser.Token)
    (value : Obj) : M State Obj :=
  assert (datatypes.isinstance_Value value) ;;
  try_except
    (self ← SceneBuilder._element;
     SceneBuilder.call self (element.define name value))
    (λ ex, match ex with
           | ElementPropertyDefinedError _ =>
               self ← SceneBuilder._element;
               type_name ← SceneBuilder.read self element.type_name;
               raise (SceneBuilder._create_error
                        (str_exn ex +:+ " in " +:+ type_name) None token)
           | _ => raise ex
           end) ;;
  mret datatypes.PyNone.

Definition assign_value (name : string) (token : option parser.Token)
    (value : Obj) : M State Obj :=
  assert (datatypes.isinstance_Value value) ;;
  try_except
    (self ← SceneBuilder._element;
     SceneBuilder.call self (element.set name value))
    (λ ex, match ex with
           | KeyError _ =>
               self ← SceneBuilder._element;
               type_name ← SceneBuilder.read self element.type_name;
               raise (SceneBuilder._create_error
                        ("Assigning value to undefined property "
                           +:+ repr name +:+ " in " +:+ type_name)
                        None token)
           | TypeError _ =>
               self ← SceneBuilder._element;
               type_name ← SceneBuilder.read self element.type_name;
               raise (SceneBuilder._create_error
                        (str_exn ex +:+ " in " +:+ type_name) None token)
           | CircularReferenceError _ paths =>
               let paths :=
                 String.concat newline (String.concat " -> " <$> paths) in
               self ← SceneBuilder._element;
               type_name ← SceneBuilder.read self element.type_name;
               raise (SceneBuilder._create_error
                        (str_exn ex +:+ " in " +:+ type_name)
                        (Some ("Paths:" +:+ newline +:+ paths)) token)
           | _ => raise ex
           end) ;;
  mret datatypes.PyNone.


(** What the visitor of each node class returns. *)
Definition returns_of (node : Node) (v : Obj) : Prop :=
  match node with
  | parser.Create _ _ _ _ => datatypes.isinstance_Element v = true
  | parser.Template _ _ _ _ => False
  | parser.Define _ _ | parser.Assign _ _ => v = datatypes.PyNone
  | _ => datatypes.isinstance_Value v = true
  end.

(** A node whose visitor returns no value: a statement or a [Create]. *)
Definition not_a_value (node : Node) : bool :=
  match node with
  | parser.Create _ _ _ _ | parser.Template _ _ _ _
  | parser.Define _ _ | parser.Assign _ _ => true
  | _ => false
  end.

(** The element [e] is on the scope stack of [s] and its table has [n]. *)
Definition in_scope (s : State) (reference : nat * string) : Prop :=
  reference.1 ∈ SceneBuilder._elements s
  ∧ declares reference.2 s reference.1 = true.

(** Every element the value [o] names is one of the first [n]. *)
Fixpoint valid (n : nat) (o : Obj) : bool :=
  match o with
  | datatypes.ElementRef id => bool_decide (id < n)
  | datatypes.ElementProperty e _ => bool_decide (e < n)
  | datatypes.UnaryOp _ o => valid n o
  | datatypes.BinOp _ l r => valid n l && valid n r
  | datatypes.Call _ args => forallb (valid n) args
  | _ => true
  end.

(** The element [e], stored at [r] among [n] elements: its children were
    created after it, and its bindings name elements that exist. *)
Definition element_ok (n r : nat) (e : element.Element scalar func) : Prop :=
  Forall (λ c, r < c < n) (element.children e)
  ∧ map_Forall (λ _ v, valid n v = true) (element.properties e).

(** No element is listed as a child twice, be it by two parents or by one. *)
Definition single_parent (h : list (element.Element scalar func)) : Prop :=
  ∀ r1 r2 e1 e2 i j c,
    h !! r1 = Some e1 → h !! r2 = Some e2 →
    element.children e1 !! i = Some c → element.children e2 !! j = Some c →
    r1 = r2 ∧ i = j.

(** A state without dangling references in which the elements form a
    forest. *)
Definition well_formed (s : State) : Prop :=
  Forall (λ e, e < length (SceneBuilder.heap s)) (SceneBuilder._elements s)
  ∧ (∀ r e, SceneBuilder.heap s !! r = Some e →
            element_ok (length (SceneBuilder.heap s)) r e)
  ∧ single_parent (SceneBuilder.heap s)
  ∧ map_Forall (λ _ t, map_Forall
                         (λ _ v, valid (length (SceneBuilder.heap s)) v = true)
                         (templates.declared t))
      (SceneBuilder.templates s).

(** A computation that, started in a well-formed state among whose [n]
    elements [pre n] holds, ends in a well-formed state, only adds elements,
    and returns what is [ok] among the elements there are then. *)
Definition sound {A} (pre : nat → Prop) (ok : nat → A → Prop)
    (m : M State A) : Prop :=
  ∀ s out s', m s = (out, s') → well_formed s →
    pre (length (SceneBuilder.heap s)) →
    well_formed s'
    ∧ length (SceneBuilder.heap s) ≤ length (SceneBuilder.heap s')
    ∧ ∀ a, out = Return a → ok (length (SceneBuilder.heap s')) a.

(** [pre] stays true when elements are added. *)
Definition lasting (pre : nat → Prop) : Prop :=
  ∀ n n', n ≤ n' → pre n → pre n'.

(** The element [p] of [s] lists [r] as its child number [i]. *)
Definition parent_of (s : State) (r p i : nat) : Prop :=
  ∃ e, SceneBuilder.heap s !! p = Some e ∧ element.children e !! i = Some r.

(** A computation that, when it returns under a scope stack that is not
    empty, has made every element it created the child of some element. *)
Definition adopting {A} (m : M State A) : Prop :=
  ∀ s a s', m s = (Return a, s') → well_formed s →
    SceneBuilder._elements s ≠ [] →
    ∀ r, length (SceneBuilder.heap s) ≤ r < length (SceneBuilder.heap s') →
         ∃ p i, parent_of s' r p i.

(** A computation that neither adds nor removes an element. *)
Definition counted {A} (m : M State A) : Prop :=
  ∀ s out s', m s = (out, s') →
    length (SceneBuilder.heap s') = length (SceneBuilder.heap s).

(** A computation of the interpreter that touches neither the registry nor
    the scope stack. *)
Definition inert {A} (m : M IState A) : Prop :=
  ∀ s out s', m s = (out, s') →
    Interpreter.templates s' = Interpreter.templates s
    ∧ Interpreter._elements s' = Interpreter._elements s.

(** A computation of the interpreter that keeps every registry entry and
    every frame of the scope stack it started with. *)
Definition keeping {A} (m : M IState A) : Prop :=
  ∀ s out s', m s = (out, s') →
    Interpreter.templates s ⊆ Interpreter.templates s'
    ∧ Interpreter._elements s `prefix_of` Interpreter._elements s'.

(** What the visitor of each node class of the interpreter returns. *)
Definition interprets_to (node : Node) (v : elements.Obj scalar) : Prop :=
  match node with
  | parser.Create _ _ _ _ => elements.isinstance_Element v = true
  | parser.Template _ _ _ _ | parser.Assign _ _ => v = elements.PyNone
  | parser.Name name _ _ => v = elements.PyStr name
  | parser.String string _ _ => v = elements.PyStr string
  | parser.Number _ _ _ _ => v = elements.NodeObj node
  | _ => False
  end.

(** A node that can stand in the body of a [Create] or of a [Template]. *)
Definition statement (node : Node) : bool :=
  match node with
  | parser.Create _ _ _ _ | parser.Template _ _ _ _ | parser.Assign _ _ => true
  | _ => false
  end.

(** The sum of a list of integers. *)
Definition total (l : list Z) : Z := foldr Z.add 0%Z l.

(** Every key of the font cache holds a font object that [truetype] made,
    and is bound to that object. *)
Definition keyed_by_objects (st : rasterizer.Fonts) : Prop :=
  ∀ font size found,
    rasterizer._fonts st !! (font, size) = Some found →
    font = inr found ∧ found < rasterizer.objects st.

(** The line [draw_polygon] draws at turn [i] of its outline loop: from the
    point before [i], going round, to the point [i]. *)
Definition side {number} (points : list (rasterizer.Point number)) (i : nat)
  : option (number * number * number * number) :=
  p ← points !! ((i + length points - 1) `mod` length points);
  q ← points !! i;
  Some (rasterizer.x p, rasterizer.y p, rasterizer.x q, rasterizer.y q).

(** The elements among the values a run of children returned, in order. *)
Definition created (built : list Obj) : list nat :=
  omap (λ v, match v with
             | datatypes.ElementRef id => Some id
             | _ => None
             end) built.

(** A child as the grammar of a body has it: a [Create], or a [Define] or
    an [Assign] of an expression, or an expression. *)
Definition flat (node : Node) : bool :=
  match node with
  | parser.Create _ _ _ _ => true
  | parser.Define [_; value] _ | parser.Assign [_; value] _ => expression value
  | _ => expression node
  end.

(** What [_create_error] writes behind the message when it is given a
    token and no [after]: the span of the token. *)
Definition located (token : option parser.Token) : string :=
  match token with
  | Some tok =>
      let '((bl, bc), (el, ec)) := parser.span tok in
      " at " +:+ pretty bl +:+ ":" +:+ pretty bc
             +:+ " to " +:+ pretty el +:+ ":" +:+ pretty ec
  | None => ""
  end.

(** The depth of the nesting of a tree: the length of the longest chain of
    nodes in which each is a child of the one before. *)
Fixpoint height (node : Node) : nat :=
  S (foldr (λ child h, height child `max` h) 0 (parser.children node)).

(** The exceptions the interpreter raises itself: its own error, a failed
    assertion, an unsupported node, a node class without a visitor and an
    [Assign] that does not unpack. *)
Definition interpret_error (ex : exn) : bool :=
  match ex with
  | InterpreterError _ | AssertionError | NotImplementedError
  | AttributeError _ | ValueError => true
  | _ => false
  end.

(** The exceptions [Element.apply] and [Element.set] of [elements.py] can
    raise. *)
Definition raised_by_elements (ex : exn) : Prop :=
  (∃ source target h h', Element_apply source target h = (Raise ex, h'))
  ∨ (∃ name value e, Element_set name value e = Raise ex).

(** A computation of the interpreter that, under a non-empty scope stack,
    raises only what the interpreter raises itself or what the elements
    raise. *)
Definition guarded {A} (m : M IState A) : Prop :=
  ∀ s ex s', m s = (Raise ex, s') → Interpreter._elements s ≠ [] →
    interpret_error ex = true ∨ raised_by_elements ex.

(** ** Unfolding the dispatch *)

Lemma _build_Create_eq element name children token :
  _build (parser.Create element name children token)
  =@{M State Obj}
  SceneBuilder._build_Create element name token (_build_children children).
Proof. reflexivity. Qed.

Lemma _build_Call_eq name children token :
  _build (parser.Call name children token)
  =@{M State Obj}
  SceneBuilder._build_Call functions name (_build_children children).
Proof. reflexivity. Qed.

Lemma _interpret_Create_eq element name children token :
  _interpret (parser.Create element name children token)
  =@{M IState (elements.Obj scalar)}
  Interpreter._interpret_Create Element_apply element name token
    (children_loop children).
Proof. reflexivity. Qed.

Lemma _interpret_Template_eq name inherit children token :
  _interpret (parser.Template name inherit children token)
  =@{M IState (elements.Obj scalar)}
  Interpreter._interpret_Template Element_apply name inherit token
    (children_loop children).
Proof. reflexivity. Qed.

(** ** Name resolution *)

Lemma _build_Name_scan_find name token elements s :
  SceneBuilder._build_Name_scan name token elements s
  = (match find (declares name s) elements with
     | Some e => Return (datatypes.ElementProperty e name)
     | None =>
         Raise (SceneBuilder._create_error
                  ("Undefined property " +:+ repr name) None token)
     end, s).
Proof.
  induction elements as [|e elements IH]; simpl; [done|].
  unfold declares at 1, element.get.
  destruct (element.properties (SceneBuilder.heap s !!! e) !! name)
    as [v|] eqn:E.
  - rewrite bool_decide_eq_true_2; eauto.
  - rewrite bool_decide_eq_false_2; [exact IH|]. by intros [? ?].
Qed.

(** C1. A [Name] node resolves to the reference into the first frame,
    counted from the top of the scope stack outward, whose property table
    has the name, whatever that entry is bound to; with no such frame (an
    empty stack included) the build raises the error "Undefined property",
    and the state is left as it was. *)
Theorem Name_resolves_innermost_first name token s :
  _build (parser.Name name [] token) s
  = (match find (declares name s) (reverse (SceneBuilder._elements s)) with
     | Some e => Return (datatypes.ElementProperty e name)
     | None =>
         Raise (SceneBuilder._create_error
                  ("Undefined property " +:+ repr name) None token)
     end, s).
Proof.
  simpl. unfold SceneBuilder._build_Name. simpl. run_step. simpl.
  apply _build_Name_scan_find.
Qed.

(** ** Operators *)

(** C2. A [BinOp] (a [UnaryOp]) node builds to a value exactly when its
    operands do, built left to right, and the value is the deferred
    [BinOp] ([UnaryOp]) of the node's own operator over the built operands:
    no operator is applied.  In particular an operator over number literals
    always builds, whatever the operator is, to the deferred operation over
    the literals, and leaves the state as it was. *)
Theorem operators_are_deferred :
  (∀ op children token s v s',
     _build (parser.BinOp op children token) s = (Return v, s')
     ↔ ∃ (lhs rhs : Node) (l r : Obj) (s1 : State),
         children = [lhs; rhs]
         ∧ _build lhs s = (Return l, s1)
         ∧ _build rhs s1 = (Return r, s')
         ∧ v = datatypes.BinOp op l r)
  ∧ (∀ op children token s v s',
       _build (parser.UnaryOp op children token) s = (Return v, s')
       ↔ ∃ (operand : Node) (o : Obj),
           children = [operand]
           ∧ _build operand s = (Return o, s')
           ∧ v = datatypes.UnaryOp op o)
  ∧ (∀ op a b ta tb token (s : State),
       _build (parser.BinOp op [parser.Number a None [] ta;
                                parser.Number b None [] tb] token) s
       = (Return (datatypes.BinOp op (datatypes.Number a)
                    (datatypes.Number b)), s))
  ∧ (∀ op a ta token (s : State),
       _build (parser.UnaryOp op [parser.Number a None [] ta] token) s
       = (Return (datatypes.UnaryOp op (datatypes.Number a)), s)).
Proof.
  split; [|split; [|split; [done|done]]];
    intros op children token s v s'; split.
  - destruct children as [|lhs [|rhs [|? ?]]]; simpl; try done.
    unfold SceneBuilder._build_BinOp. run_step.
    destruct (_build lhs s) as [[l|?] s1] eqn:El; [|done].
    destruct (_build rhs s1) as [[r|?] s2] eqn:Er; [|done].
    intros [= <- <-]. by exists lhs, rhs, l, r, s1.
  - intros (lhs & rhs & l & r & s1 & -> & El & Er & ->). simpl.
    unfold SceneBuilder._build_BinOp. run_step. by rewrite El, Er.
  - destruct children as [|operand [|? ?]]; simpl; try done.
    unfold SceneBuilder._build_UnaryOp. run_step.
    destruct (_build operand s) as [[o|?] s1] eqn:Eo; [|done].
    intros [= <- <-]. by exists operand, o.
  - intros (operand & o & -> & Eo & ->). simpl.
    unfold SceneBuilder._build_UnaryOp. run_step. by rewrite Eo.
Qed.

(** ** Number literals *)

(** C3. A [Number] node is classified by its unit at build time: no unit
    gives [Number], ["%"] gives [Percentage], a value of [TimeUnit] gives
    [Time] with that unit, and every other suffix makes the build raise the
    error "Unexpected unit" on the spot. *)
Theorem Number_classified_by_unit value token s :
  _build (parser.Number value None [] token) s
  = (Return (datatypes.Number value), s)
  ∧ _build (parser.Number value (Some "%") [] token) s
    = (Return (datatypes.Percentage value), s)
  ∧ (∀ unit, unit ≠ "%" → unit ∈ TimeUnit →
       _build (parser.Number value (Some unit) [] token) s
       = (Return (datatypes.Time value unit), s))
  ∧ (∀ unit, unit ≠ "%" → unit ∉ TimeUnit →
       _build (parser.Number value (Some unit) [] token) s
       = (Raise (SceneBuilder._create_error
                   ("Unexpected unit " +:+ repr unit +:+ ", expected any of "
                      +:+ _units) None token), s)).
Proof.
  repeat split; try done.
  - intros unit Hp Ht. simpl. unfold SceneBuilder._build_Number. simpl.
    run_step. simpl.
    by rewrite (bool_decide_eq_false_2 _ Hp), (bool_decide_eq_true_2 _ Ht).
  - intros unit Hp Ht. simpl. unfold SceneBuilder._build_Number. simpl.
    run_step. simpl.
    by rewrite (bool_decide_eq_false_2 _ Hp), (bool_decide_eq_false_2 _ Ht).
Qed.

(** ** Calls *)

Lemma Call_resolved name children token s args s' function :
  _build_children children s = (Return args, s') →
  functions !! name = Some function →
  _build (parser.Call name children token) s
  = (Return (datatypes.Call function args), s').
Proof.
  intros Hargs Hf. rewrite _build_Call_eq. unfold SceneBuilder._build_Call.
  run_step. by rewrite Hargs, Hf.
Qed.

Lemma Call_unknown_function name children token s args s' :
  _build_children children s = (Return args, s') →
  functions !! name = None →
  _build (parser.Call name children token) s = (Raise (KeyError name), s').
Proof.
  intros Hargs Hf. rewrite _build_Call_eq. unfold SceneBuilder._build_Call.
  run_step. by rewrite Hargs, Hf.
Qed.

(** ** Named instances *)

(** C8. A [Create] node that carries an instance name never returns an
    element, in either pipeline.  The scene builder raises before anything
    is attached, pushed or built: it leaves at most one fresh, unattached
    element behind. *)
Theorem named_Create_fails_fast element name children token :
  truthy name = true →
  (∀ s : State,
     _build (parser.Create element name children token) s
     = match SceneBuilder.templates s !! element with
       | Some _ =>
           (Raise NotImplementedError,
            SceneBuilder.set_heap (SceneBuilder.heap s ++ [element.new]) s)
       | None =>
           (Raise (SceneBuilder._create_error
                     ("Creating undefined " +:+ repr element +:+ " template")
                     None token), s)
       end)
  ∧ (∀ s : IState, ∃ ex s',
       _interpret (parser.Create element name children token) s
       = (Raise ex, s')
       ∧ Interpreter.templates s' = Interpreter.templates s
       ∧ Interpreter._elements s' = Interpreter._elements s).
Proof.
  intros Hname. split; intros s.
  - rewrite _build_Create_eq. unfold SceneBuilder._build_Create. run_step.
    destruct (SceneBuilder.templates s !! element); [|done].
    unfold SceneBuilder.Element_new. by rewrite Hname.
  - rewrite _interpret_Create_eq.
    unfold Interpreter._interpret_Create, Interpreter._get_template,
      Interpreter._instantiate_template, Interpreter._apply_template,
      Interpreter.construct, Interpreter.apply.
    run_step. rewrite Hname.
    destruct (Interpreter.templates s !! element) as [[c|id]|];
      [| |by eauto]; simpl;
      match goal with |- context [Element_apply ?a ?b ?h] =>
        destruct (Element_apply a b h) as [[[]|?] ?] end; eauto.
Qed.

(** ** The entry points *)

Lemma build_rejects (node : Node) (s : State) :
  (∀ name children token,
     node ≠ parser.Create "Scene" name children token) →
  build node s = (Raise AssertionError, s).
Proof.
  intros Hnode. destruct node; try done.
  unfold SceneBuilder.build. run_step.
  rewrite bool_decide_eq_false_2; [done|]. intros ->. by eapply Hnode.
Qed.

(** C10. [build] and [interpret] refuse, by their entry assertions, every
    root that is not a [Create] of ["Scene"]; and what [build] returns is an
    element whose [type_name] is ["Scene"]. *)
Theorem root_is_a_Scene :
  (∀ (node : Node) (s : State),
     (∀ name children token,
        node ≠ parser.Create "Scene" name children token) →
     build node s = (Raise AssertionError, s))
  ∧ (∀ (node : Node) (s : IState),
       (∀ name children token,
          node ≠ parser.Create "Scene" name children token) →
       interpret node s = (Raise AssertionError, s))
  ∧ (∀ (node : Node) (s s' : State) (scene : Obj),
       build node s = (Return scene, s') →
       ∃ id, scene = datatypes.ElementRef id
             ∧ element.type_name (SceneBuilder.heap s' !!! id) = "Scene").
Proof.
  split; [|split].
  - apply build_rejects.
  - intros node s Hnode. destruct node; try done.
    unfold Interpreter.interpret. run_step.
    rewrite bool_decide_eq_false_2; [done|]. intros ->. by eapply Hnode.
  - intros node s s' scene. destruct node; try done.
    unfold SceneBuilder.build, SceneBuilder.modify, SceneBuilder.read.
    run_step. case_bool_decide; [|done].
    match goal with |- context [_build ?n ?st] =>
      destruct (_build n st) as [[v|?] s1] end; [|done].
    destruct v; simpl; try done.
    case_bool_decide as Htn; [|done].
    intros [= <- <-]. eauto.
Qed.

Lemma list_pop_snoc {A} (l : list A) x : list_pop (l ++ [x]) = Some (l, x).
Proof. induction l as [|y l IH]; simpl; [done|]. by rewrite IH. Qed.

Lemma grows_refl s : grows s s.
Proof. repeat split; auto. Qed.

Lemma grows_trans s1 s2 s3 :
  grows s1 s2 → SceneBuilder._elements s2 = SceneBuilder._elements s1 →
  grows s2 s3 → grows s1 s3.
Proof.
  intros (Ht1 & Hl1 & H1) Hst (Ht2 & Hl2 & H2). split; [congruence|].
  split; [lia|]. intros r Hr.
  destruct (H1 r Hr) as [Hf1 Hp1].
  destruct (H2 r ltac:(lia)) as [Hf2 Hp2]. split.
  - intros Hne. rewrite Hf2, Hf1; auto. by rewrite Hst.
  - by etrans.
Qed.

Lemma _build_Create_attached element name children token t s :
  SceneBuilder.templates s !! element = Some t →
  truthy name = false →
  _build (parser.Create element name children token) s
  = match _build_children children (attached t s) with
    | (Return _, s1) =>
        match list_pop (SceneBuilder._elements s1) with
        | Some (front, top) =>
            (if bool_decide (top = length (SceneBuilder.heap s))
             then Return (datatypes.ElementRef (length (SceneBuilder.heap s)))
             else Raise AssertionError,
             SceneBuilder.set_elements front s1)
        | None => (Raise IndexError, s1)
        end
    | (Raise ex, s1) => (Raise ex, s1)
    end.
Proof.
  intros Ht Hname. rewrite _build_Create_eq.
  unfold SceneBuilder._build_Create, SceneBuilder.Element_new,
    SceneBuilder._element, SceneBuilder.update, SceneBuilder._push_element,
    SceneBuilder.modify.
  run_step. rewrite Ht, Hname. simpl.
  unfold attached, SceneBuilder.set_elements, SceneBuilder.set_heap. simpl.
  destruct (last (SceneBuilder._elements s)) as [p|]; simpl;
    (destruct (_build_children children _) as [[?|?] s1]; [|done];
     destruct (list_pop (SceneBuilder._elements s1)) as [[front top]|];
       [|done]; by case_bool_decide).
Qed.

Lemma quiet_visit_ok {A} (m : M State A) : quiet m → visit_ok m.
Proof. intros H s out s' E. destruct (H _ _ _ E). auto. Qed.

Lemma quiet_ret {A} (a : A) : quiet (ret (S:=State) a).
Proof. intros s out s' [= <- <-]. split; [apply grows_refl|done]. Qed.

Lemma quiet_raise {A} ex : quiet (raise (S:=State) (A:=A) ex).
Proof. intros s out s' [= <- <-]. split; [apply grows_refl|done]. Qed.

Lemma quiet_bind {A B} (m : M State A) (k : A → M State B) :
  quiet m → (∀ a, quiet (k a)) → quiet (bind m k).
Proof.
  intros Hm Hk s out s' E. unfold bind in E.
  destruct (m s) as [[a|ex] s1] eqn:Em.
  - destruct (Hm _ _ _ Em) as [G1 S1]. destruct (Hk a _ _ _ E) as [G2 S2].
    split; [by eapply grows_trans|congruence].
  - injection E as <- <-. eauto.
Qed.

Lemma quiet_try_except {A} (m : M State A) h :
  quiet m → (∀ ex, quiet (h ex)) → quiet (try_except m h).
Proof.
  intros Hm Hh s out s' E. unfold try_except in E.
  destruct (m s) as [[a|ex] s1] eqn:Em.
  - injection E as <- <-. eauto.
  - destruct (Hm _ _ _ Em) as [G1 S1]. destruct (Hh ex _ _ _ E) as [G2 S2].
    split; [by eapply grows_trans|congruence].
Qed.

Lemma visit_ok_bind {A B} (m : M State A) (k : A → M State B) :
  visit_ok m → (∀ a, visit_ok (k a)) → visit_ok (bind m k).
Proof.
  intros Hm Hk s out s' E. unfold bind in E.
  destruct (m s) as [[a|ex] s1] eqn:Em.
  - destruct (Hm _ _ _ Em) as [G1 S1]. destruct (Hk a _ _ _ E) as [G2 S2].
    specialize (S1 I). split; [by eapply grows_trans|]. intros. rewrite S2; auto.
  - injection E as <- <-. destruct (Hm _ _ _ Em) as [G1 S1]. split; [done|].
    intros [].
Qed.

Lemma quiet_assert b : quiet (assert (S:=State) b).
Proof. destruct b; [apply quiet_ret|apply quiet_raise]. Qed.

Lemma quiet_gets {A} (f : State → A) : quiet (SceneBuilder.gets f).
Proof. intros s out s' [= <- <-]. split; [apply grows_refl|done]. Qed.

Lemma quiet_read {A} id (f : _ → A) : quiet (SceneBuilder.read id f).
Proof. intros s out s' [= <- <-]. split; [apply grows_refl|done]. Qed.

Lemma quiet__element : quiet SceneBuilder._element.
Proof.
  intros s out s' E. unfold SceneBuilder._element in E.
  destruct (last _); injection E as <- <-; (split; [apply grows_refl|done]).
Qed.

(** A method called on the current element that keeps its children. *)
Lemma quiet_call_current (method : _ → outcome (element.Element scalar func)) :
  (∀ e e', method e = Return e' → element.children e' = element.children e) →
  quiet (bind SceneBuilder._element (λ self, SceneBuilder.call self method)).
Proof.
  intros Hm s out s' E. unfold bind, SceneBuilder._element, SceneBuilder.call in E.
  destruct (last (SceneBuilder._elements s)) as [p|] eqn:Etop;
    [|injection E as <- <-; split; [apply grows_refl|done]].
  destruct (method (SceneBuilder.heap s !!! p)) as [e'|ex] eqn:Ecall;
    injection E as <- <-; (split; [|done]); [|apply grows_refl].
  split; [done|]. simpl. rewrite length_insert. split; [done|].
  intros r Hr. split.
  - intros Hne. rewrite list_lookup_insert_ne; [done|]. congruence.
  - destruct (decide (p = r)) as [->|Hne].
    + rewrite list_lookup_total_insert_eq by done. by rewrite (Hm _ _ Ecall).
    + by rewrite list_lookup_total_insert_ne.
Qed.

Lemma attached_lookup t s r :
  r < length (SceneBuilder.heap s) →
  SceneBuilder.heap (attached t s) !! r
  = (if decide (last (SceneBuilder._elements s) = Some r)
     then element.add (length (SceneBuilder.heap s))
     else id) <$> SceneBuilder.heap s !! r.
Proof.
  intros Hr. unfold attached. simpl.
  rewrite list_lookup_alter_ne by lia.
  destruct (last (SceneBuilder._elements s)) as [p|].
  - case_decide as Hp.
    + injection Hp as ->. by rewrite list_lookup_alter_eq, lookup_app_l.
    + rewrite list_lookup_alter_ne by congruence.
      rewrite lookup_app_l by done. by destruct (_ !! r).
  - rewrite decide_False by done.
    rewrite lookup_app_l by done. by destruct (_ !! r).
Qed.

Lemma attached_length t s :
  length (SceneBuilder.heap (attached t s)) = S (length (SceneBuilder.heap s)).
Proof.
  unfold attached. simpl. rewrite length_alter.
  destruct (last _); rewrite ?length_alter, length_app; simpl; lia.
Qed.

Lemma attached_grows t s s1 :
  grows (attached t s) s1 → grows s s1.
Proof.
  intros (Ht & Hl & H). rewrite attached_length in Hl.
  split; [done|]. split; [lia|]. intros r Hr.
  destruct (H r) as [Hf _]; [rewrite attached_length; lia|].
  assert (SceneBuilder.heap s1 !! r = SceneBuilder.heap (attached t s) !! r)
    as Hsame.
  { apply Hf. unfold attached. simpl. rewrite last_snoc. intros [= Heq]. lia. }
  rewrite attached_lookup in Hsame by done.
  destruct (lookup_lt_is_Some_2 (SceneBuilder.heap s) r Hr) as [e He].
  rewrite He in Hsame. simpl in Hsame. split.
  - intros Hne. rewrite decide_False in Hsame by done. by rewrite He.
  - rewrite (list_lookup_total_correct _ _ _ Hsame),
      (list_lookup_total_correct _ _ _ He).
    case_decide; simpl; [by apply prefix_app_r|done].
Qed.

Lemma _build_children_visit_ok children :
  Forall (λ node, visit_ok (_build node)) children →
  visit_ok (_build_children children).
Proof.
  induction 1 as [|child children Hchild _ IH]; simpl.
  - apply quiet_visit_ok, quiet_ret.
  - apply visit_ok_bind; [done|]. intros built.
    apply visit_ok_bind; [done|]. intros rest.
    apply quiet_visit_ok, quiet_ret.
Qed.

Lemma _build_visit_ok node : visit_ok (_build node).
Proof.
  induction node as [node IH] using parser.Node_children_ind.
  destruct node as [element name children token| | children token
                   | children token | op children token | op children token
                   | | | name children token | ]; simpl in IH.
  - (* Create *)
    intros s out s' E.
    destruct (SceneBuilder.templates s !! element) as [t|] eqn:Ht;
      [destruct (truthy name) eqn:Hname|].
    + rewrite _build_Create_eq in E. unfold SceneBuilder._build_Create in E.
      run_step in E. rewrite Ht in E. unfold SceneBuilder.Element_new in E.
      rewrite Hname in E. injection E as <- <-. split; [|intros []].
      split; [done|]. simpl. rewrite length_app. split; [lia|].
      intros r Hr. rewrite lookup_app_l, lookup_total_app_l by done. done.
    + rewrite (_build_Create_attached _ _ _ _ _ _ Ht Hname) in E.
      destruct (_build_children children (attached t s)) as [[built|ex] s1]
        eqn:Ec;
        destruct (_build_children_visit_ok _ IH _ _ _ Ec) as [G St].
      * specialize (St I).
        change (SceneBuilder._elements (attached t s))
          with (SceneBuilder._elements s ++ [length (SceneBuilder.heap s)])
          in St.
        rewrite St, list_pop_snoc, bool_decide_eq_true_2 in E by done.
        injection E as <- <-. split; [|done].
        apply attached_grows in G. exact G.
      * injection E as <- <-. split; [|intros []].
        by eapply attached_grows.
    + rewrite _build_Create_eq in E. unfold SceneBuilder._build_Create in E.
      run_step in E. rewrite Ht in E. injection E as <- <-.
      split; [apply grows_refl|done].
  - apply quiet_visit_ok, quiet_raise.
  - (* Define *)
    destruct children as [|name [|value [|? ?]]];
      try apply quiet_visit_ok, quiet_raise.
    apply Forall_cons_1 in IH as [_ IH]. apply Forall_cons_1 in IH as [IH _].
    unfold SceneBuilder._build_Define.
    destruct name; try apply quiet_visit_ok, quiet_raise.
    apply visit_ok_bind; [done|]. intros v. apply quiet_visit_ok.
    apply quiet_bind; [apply quiet_assert|]. intros _.
    apply quiet_bind; [|intros; apply quiet_ret].
    apply quiet_try_except.
    + apply quiet_call_current. intros e e'. unfold element.define.
      destruct (_ !! _); [done|]. by intros [= <-].
    + intros []; try apply quiet_raise.
      apply quiet_bind; [apply quiet__element|]. intros self.
      apply quiet_bind; [apply quiet_read|]. intros. apply quiet_raise.
  - (* Assign *)
    destruct children as [|name [|value [|? ?]]];
      try apply quiet_visit_ok, quiet_raise.
    apply Forall_cons_1 in IH as [_ IH]. apply Forall_cons_1 in IH as [IH _].
    unfold SceneBuilder._build_Assign.
    destruct name; try apply quiet_visit_ok, quiet_raise.
    apply visit_ok_bind; [done|]. intros v. apply quiet_visit_ok.
    apply quiet_bind; [apply quiet_assert|]. intros _.
    apply quiet_bind; [|intros; apply quiet_ret].
    apply quiet_try_except.
    + apply quiet_call_current. intros e e'. unfold element.set.
      destruct (_ !! _); [|done]. by intros [= <-].
    + intros []; try apply quiet_raise;
        (apply quiet_bind; [apply quiet__element|]; intros self;
         apply quiet_bind; [apply quiet_read|]; intros; apply quiet_raise).
  - (* UnaryOp *)
    destruct children as [|operand [|? ?]];
      try apply quiet_visit_ok, quiet_raise.
    apply Forall_cons_1 in IH as [IH _].
    apply visit_ok_bind; [done|]. intros. apply quiet_visit_ok, quiet_ret.
  - (* BinOp *)
    destruct children as [|lhs [|rhs [|? ?]]];
      try apply quiet_visit_ok, quiet_raise.
    apply Forall_cons_1 in IH as [IHl IH]. apply Forall_cons_1 in IH as [IHr _].
    apply visit_ok_bind; [done|]. intros.
    apply visit_ok_bind; [done|]. intros. apply quiet_visit_ok, quiet_ret.
  - (* Number *)
    apply quiet_visit_ok. unfold SceneBuilder._build_Number.
    apply quiet_bind; [apply quiet_assert|]. intros _.
    destruct unit; [|apply quiet_ret].
    repeat case_bool_decide; try apply quiet_ret. apply quiet_raise.
  - (* String *)
    apply quiet_visit_ok.
    apply quiet_bind; [apply quiet_assert|]. intros _. apply quiet_ret.
  - (* Call *)
    rewrite _build_Call_eq.
    apply visit_ok_bind; [by apply _build_children_visit_ok|]. intros args.
    apply quiet_visit_ok. destruct (functions !! name);
      [apply quiet_ret|apply quiet_raise].
  - (* Name *)
    apply quiet_visit_ok. unfold SceneBuilder._build_Name.
    apply quiet_bind; [apply quiet_assert|]. intros _.
    apply quiet_bind; [apply quiet_gets|]. intros els.
    intros s out s' E. rewrite _build_Name_scan_find in E.
    injection E as <- <-. split; [apply grows_refl|done].
Qed.

(** ** Assignment *)

(** C6. An [Assign] whose value builds to a [Value] replaces the binding
    of the named property on the element on top of the scope stack when the
    table of that element has the name; otherwise it raises the error
    "Assigning value to undefined property" and changes nothing.  Either
    way every property table keeps exactly the names it had. *)
Theorem Assign_replaces_declared
    name nchildren ntoken value_node token (s s1 : State) value front top :
  _build value_node s = (Return value, s1) →
  datatypes.isinstance_Value value = true →
  SceneBuilder._elements s = front ++ [top] →
  top < length (SceneBuilder.heap s1) →
  let target := SceneBuilder.heap s1 !!! top in
  ∃ out s',
    _build (parser.Assign [parser.Name name nchildren ntoken; value_node] token) s
    = (out, s')
    ∧ match element.properties target !! name with
      | Some _ =>
          out = Return datatypes.PyNone
          ∧ element.properties (SceneBuilder.heap s' !!! top)
            = <[name := value]> (element.properties target)
          ∧ ∀ r, r ≠ top → SceneBuilder.heap s' !! r = SceneBuilder.heap s1 !! r
      | None =>
          out = Raise (SceneBuilder._create_error
                         ("Assigning value to undefined property "
                            +:+ repr name +:+ " in " +:+ element.type_name target)
                         None token)
          ∧ s' = s1
      end
    ∧ ∀ r, dom (element.properties (SceneBuilder.heap s' !!! r))
           = dom (element.properties (SceneBuilder.heap s1 !!! r)).
Proof.
  intros Ev Hval Hstack Htop target.
  destruct (_build_visit_ok value_node _ _ _ Ev) as [_ Hst].
  specialize (Hst I). rewrite Hstack in Hst.
  simpl. unfold SceneBuilder._build_Assign, SceneBuilder._element,
    SceneBuilder.call, SceneBuilder.read, element.set.
  run_step. rewrite Ev, Hval, Hst, last_snoc. fold target.
  destruct (element.properties target !! name) as [old|] eqn:Eprop.
  - eexists _, _. split; [done|]. simpl.
    rewrite list_lookup_total_insert_eq by done. simpl.
    repeat split; try done.
    + intros r Hr. by rewrite list_lookup_insert_ne.
    + intros r. destruct (decide (top = r)) as [<-|Hne].
      * rewrite list_lookup_total_insert_eq by done. simpl.
        apply dom_insert_lookup_L. unfold target in Eprop. by rewrite Eprop.
      * by rewrite list_lookup_total_insert_ne.
  - rewrite Hst, last_snoc. eexists _, _. split; [done|]. by fold target.
Qed.

(** ** Template declarations *)

Lemma still_balanced {A} (m : M IState A) : still m → balanced m.
Proof. intros H s a s' E. by eapply H. Qed.

Lemma still_ret {A} (a : A) : still (ret (S:=IState) a).
Proof. by intros s out s' [= <- <-]. Qed.

Lemma still_raise {A} ex : still (raise (S:=IState) (A:=A) ex).
Proof. by intros s out s' [= <- <-]. Qed.

Lemma still_bind {A B} (m : M IState A) (k : A → M IState B) :
  still m → (∀ a, still (k a)) → still (bind m k).
Proof.
  intros Hm Hk s out s' E. unfold bind in E.
  destruct (m s) as [[a|ex] s1] eqn:Em.
  - rewrite (Hk _ _ _ _ E). by eapply Hm.
  - injection E as <- <-. by eapply Hm.
Qed.

Lemma balanced_bind {A B} (m : M IState A) (k : A → M IState B) :
  balanced m → (∀ a, balanced (k a)) → balanced (bind m k).
Proof.
  intros Hm Hk s b s' E. unfold bind in E.
  destruct (m s) as [[a|ex] s1] eqn:Em; [|done].
  rewrite (Hk _ _ _ _ E). by eapply Hm.
Qed.

Lemma still_construct e : still (Interpreter.construct e).
Proof. by intros s out s' [= <- <-]. Qed.

Lemma still_update id f : still (Interpreter.update id f).
Proof. by intros s out s' [= <- <-]. Qed.

Lemma still_gets {A} (f : IState → A) : still (Interpreter.gets f).
Proof. by intros s out s' [= <- <-]. Qed.

Lemma still_apply source element :
  still (Interpreter.apply Element_apply source element).
Proof.
  intros s out s' E. unfold Interpreter.apply in E.
  destruct (Element_apply _ _ _) as [[[]|?] ?]; by injection E as <- <-.
Qed.

Lemma still__apply_template t element :
  still (Interpreter._apply_template Element_apply t element).
Proof.
  destruct t; simpl; [|apply still_apply].
  apply still_bind; [apply still_construct|]. intros. apply still_apply.
Qed.

Lemma still__get_template name token :
  still (Interpreter._get_template name token).
Proof.
  intros s out s' E. unfold Interpreter._get_template in E.
  destruct (_ !! _); by injection E as <- <-.
Qed.

Lemma still_attach element child : still (Interpreter.attach element child).
Proof.
  destruct child; simpl;
    [apply still_ret|apply still_raise..|apply still_update].
Qed.

Lemma balanced__push_element {A} element (body : M IState A) :
  balanced body → balanced (Interpreter._push_element element body).
Proof.
  intros Hb s a s' E.
  unfold Interpreter._push_element, Interpreter.modify in E. run_step in E.
  destruct (body _) as [[b|?] s1] eqn:Eb; [|done].
  apply Hb in Eb. simpl in Eb. rewrite Eb, list_pop_snoc in E.
  case_bool_decide; by simplify_eq.
Qed.

Lemma children_loop_balanced children element :
  Forall (λ node, balanced (_interpret node)) children →
  balanced (children_loop children element).
Proof.
  induction 1 as [|child children Hchild _ IH]; simpl.
  - apply still_balanced, still_ret.
  - apply balanced_bind; [done|]. intros built.
    apply balanced_bind; [apply still_balanced, still_attach|done].
Qed.

Lemma _interpret_balanced node : balanced (_interpret node).
Proof.
  induction node as [node IH] using parser.Node_children_ind.
  destruct node as [element name children token
                   | name inherit children token | | children token
                   | | | | | | ]; simpl in IH;
    try (apply still_balanced, still_raise).
  - rewrite _interpret_Create_eq.
    apply balanced_bind; [apply still_balanced, still__get_template|].
    intros t. apply balanced_bind.
    { apply still_balanced, still_bind; [apply still_construct|].
      intros. apply still__apply_template. }
    intros new. destruct (truthy name); [apply still_balanced, still_raise|].
    apply balanced_bind; [|intros; apply still_balanced, still_ret].
    by apply balanced__push_element, children_loop_balanced.
  - rewrite _interpret_Template_eq.
    apply balanced_bind; [apply still_balanced, still_construct|]. intros new.
    apply balanced_bind; [apply still_balanced, still_update|]. intros _.
    apply balanced_bind; [apply still_balanced, still_gets|].
    intros [|]; [apply still_balanced, still_raise|].
    apply balanced_bind.
    { apply still_balanced. destruct inherit; [|apply still_ret].
      apply still_bind; [apply still__get_template|]. intros.
      apply still_bind; [apply still__apply_template|]. intros.
      apply still_ret. }
    intros _. apply balanced_bind;
      [by apply balanced__push_element, children_loop_balanced|].
    intros _. apply balanced_bind; [|intros; apply still_balanced, still_ret].
    by intros s a s' [= <- <-].
  - destruct children as [|n [|v [|? ?]]].
    + apply still_balanced, still_raise.
    + apply balanced_bind; [|intros; apply still_balanced, still_raise].
      by apply Forall_cons_1 in IH as [IH _].
    + apply Forall_cons_1 in IH as [IHn IH].
      apply Forall_cons_1 in IH as [IHv _].
      apply balanced_bind; [done|]. intros.
      apply balanced_bind; [done|]. intros.
      apply still_balanced.
      apply still_bind; [|intros self].
      { intros s out s' E. unfold Interpreter._element in E.
        destruct (last _); by injection E as <- <-. }
      apply still_bind; [|intros; apply still_ret].
      intros s out s' E. unfold Interpreter.call in E.
      destruct (Element_set _ _ _); by injection E as <- <-.
    + apply Forall_cons_1 in IH as [IHn IH].
      apply Forall_cons_1 in IH as [IHv IH].
      apply Forall_cons_1 in IH as [IHe _].
      apply balanced_bind; [done|]. intros.
      apply balanced_bind; [done|]. intros.
      apply balanced_bind; [done|]. intros.
      apply still_balanced, still_raise.
  - apply still_balanced. apply still_bind; [|intros; apply still_ret].
    unfold assert. case_bool_decide; [apply still_ret|apply still_raise].
  - apply still_balanced. apply still_bind; [|intros; apply still_ret].
    unfold assert. case_bool_decide; [apply still_ret|apply still_raise].
  - apply still_balanced. apply still_bind; [|intros; apply still_ret].
    unfold assert. case_bool_decide; [apply still_ret|apply still_raise].
Qed.

(** C7, as amended.  In the interpreter a [Template] declaration whose name
    is in the registry raises the error "Redeclaration of" and leaves the
    registry as it was; one whose name is free and whose body is
    interpreted to its end returns with the prototype registered under the
    name.  The scene builder has no template declarations: every [Template]
    node raises [NotImplementedError] and the state is left as it was. *)
Theorem Template_declaration name inherit children token :
  (∀ s : IState,
     is_Some (Interpreter.templates s !! name) →
     ∃ s', _interpret (parser.Template name inherit children token) s
           = (Raise (Interpreter._create_error
                       ("Redeclaration of " +:+ repr name) token), s')
           ∧ Interpreter.templates s' = Interpreter.templates s)
  ∧ (∀ s s1 : IState,
       Interpreter.templates s !! name = None →
       children_loop children (length (Interpreter.heap s)) (declaring name s)
       = (Return (), s1) →
       _interpret (parser.Template name None children token) s
       = (Return elements.PyNone,
          {| Interpreter.templates :=
               <[name := Interpreter.Prototype (length (Interpreter.heap s))]>
                 (Interpreter.templates s1);
             Interpreter._elements := Interpreter._elements s;
             Interpreter.heap := Interpreter.heap s1 |}))
  ∧ (∀ (s s' : IState) v,
       _interpret (parser.Template name inherit children token) s
       = (Return v, s') →
       Interpreter.templates s !! name = None
       ∧ Interpreter.templates s' !! name
         = Some (Interpreter.Prototype (length (Interpreter.heap s))))
  ∧ (∀ s : State,
       _build (parser.Template name inherit children token) s
       = (Raise NotImplementedError, s)).
Proof.
  split; [|split; [|split]]; [| | |done].
  - intros s [t Ht]. rewrite _interpret_Template_eq.
    unfold Interpreter._interpret_Template, Interpreter.construct,
      Interpreter.update, Interpreter.gets, Interpreter._fail.
    run_step. simpl. rewrite Ht. rewrite bool_decide_eq_true_2 by eauto.
    by eexists.
  - intros s s1 Hfree Hbody. rewrite _interpret_Template_eq.
    pose proof (children_loop_balanced children (length (Interpreter.heap s))
                  ltac:(apply Forall_forall; intros; apply _interpret_balanced)
                  _ _ _ Hbody) as Hst.
    unfold Interpreter._interpret_Template, Interpreter.construct,
      Interpreter.update, Interpreter.gets, Interpreter._push_element,
      Interpreter.modify.
    run_step. simpl. rewrite Hfree.
    rewrite bool_decide_eq_false_2 by (by intros [? ?]).
    unfold declaring in Hbody, Hst. simpl in Hst.
    unfold Interpreter.set_elements, Interpreter.set_heap. simpl.
    rewrite Hbody, Hst, list_pop_snoc, bool_decide_eq_true_2 by done.
    done.
  - intros s s' v. rewrite _interpret_Template_eq.
    unfold Interpreter._interpret_Template, Interpreter.construct,
      Interpreter.update, Interpreter.gets, Interpreter._fail,
      Interpreter.modify.
    run_step. simpl.
    destruct (Interpreter.templates s !! name) as [t|] eqn:Ht.
    { by rewrite bool_decide_eq_true_2 by eauto. }
    rewrite bool_decide_eq_false_2 by (by intros [? ?]).
    match goal with |- context [match ?m ?st with _ => _ end] =>
      destruct (m st) as [[[]|?] s1] end; [|done].
    match goal with |- context [Interpreter._push_element ?e ?b ?st] =>
      destruct (Interpreter._push_element e b st) as [[[]|?] s2] end; [|done].
    intros [= <- <-]. split; [done|]. simpl. by rewrite lookup_insert_eq.
Qed.

(** ** Independence from earlier builds *)

Lemma closed_relocate k o : closed o = true → relocate_Obj k o = o.
Proof.
  revert o.
  apply (datatypes.Obj_args_ind (λ o, closed o = true → relocate_Obj k o = o));
    simpl.
  - repeat split; done.
  - intros op o IH H. by rewrite IH.
  - intros op l r IHl IHr [H1 H2]%andb_true_iff. by rewrite IHl, IHr.
  - intros f args IH H. f_equal.
    induction IH as [|a args Ha _ IHargs]; simpl; [done|].
    simpl in H. apply andb_true_iff in H as [H1 H2].
    by rewrite Ha, IHargs.
Qed.

Lemma closed_Template_relocate k t :
  closed_Template t → relocate_Template k t = t.
Proof.
  intros H. destruct t as [n d]. unfold relocate_Template. simpl. f_equal.
  apply map_eq. intros i. rewrite lookup_fmap.
  destruct (d !! i) as [v|] eqn:E; simpl; [|done].
  by rewrite (closed_relocate _ _ (H _ _ E)).
Qed.

Section relocation.
Variable old : list (element.Element scalar func).

Abbreviation follows := (follows_behind old).

Lemma follows_ret {A} (f : A → A) a : follows f (ret (f a)) (ret a).
Proof. done. Qed.

Lemma follows_raise {A} (f : A → A) ex : follows f (raise ex) (raise ex).
Proof. done. Qed.

Lemma follows_bind {A B} (f : A → A) (g : B → B) m' m (k' k : A → M State B) :
  follows f m' m → (∀ a, follows g (k' (f a)) (k a)) →
  follows g (bind m' k') (bind m k).
Proof.
  intros Hm Hk s. unfold bind. rewrite Hm.
  destruct (m s) as [[a|ex] s1]; simpl; [apply Hk|done].
Qed.

Lemma follows_try_except {A} (f : A → A) m' m (h' h : exn → M State A) :
  follows f m' m → (∀ ex, follows f (h' ex) (h ex)) →
  follows f (try_except m' h') (try_except m h).
Proof.
  intros Hm Hh s. unfold try_except. rewrite Hm.
  destruct (m s) as [[a|ex] s1]; simpl; [done|apply Hh].
Qed.

Lemma follows_assert b : follows id (assert b) (assert b).
Proof. by destruct b. Qed.

Lemma relocate_Element_new k :
  relocate_Element k element.new = element.new.
Proof. unfold relocate_Element. simpl. by rewrite fmap_empty. Qed.

Lemma relocate_lookup_total s r :
  SceneBuilder.heap (relocate old s) !!! (length old + r)
  = relocate_Element (length old) (SceneBuilder.heap s !!! r).
Proof.
  simpl. rewrite lookup_total_app_r by lia.
  replace (length old + r - length old) with r by lia.
  destruct (decide (r < length (SceneBuilder.heap s))) as [Hr|Hr].
  - by apply list_lookup_total_fmap.
  - rewrite !list_lookup_total_alt, !lookup_ge_None_2;
      rewrite ?length_fmap; try lia.
    simpl. symmetry. apply relocate_Element_new.
Qed.

Lemma relocate_set_heap h s :
  SceneBuilder.set_heap (old ++ (relocate_Element (length old) <$> h))
    (relocate old s)
  = relocate old (SceneBuilder.set_heap h s).
Proof. done. Qed.

Lemma follows_Element_new :
  follows (Nat.add (length old))
    SceneBuilder.Element_new SceneBuilder.Element_new.
Proof.
  intros s. unfold SceneBuilder.Element_new. simpl.
  rewrite length_app, length_fmap. f_equal.
  unfold relocate, SceneBuilder.set_heap. simpl. f_equal.
  rewrite fmap_app, <-(assoc_L (++)). simpl.
  by rewrite relocate_Element_new.
Qed.

Lemma follows_update id (f' f : _ → element.Element scalar func) :
  (∀ e, f' (relocate_Element (length old) e)
        = relocate_Element (length old) (f e)) →
  follows_behind (A:=unit) old Datatypes.id
    (SceneBuilder.update (length old + id) f') (SceneBuilder.update id f).
Proof.
  intros Hf s. unfold SceneBuilder.update. simpl. f_equal.
  rewrite <-relocate_set_heap. f_equal.
  rewrite alter_app_r. f_equal. symmetry. apply list_fmap_alter.
  apply Forall_forall. intros. symmetry. apply Hf.
Qed.

Lemma follows_call id (m' m : _ → outcome (element.Element scalar func)) :
  (∀ e, m' (relocate_Element (length old) e)
        = relocate_outcome (relocate_Element (length old)) (m e)) →
  follows_behind (A:=unit) old Datatypes.id
    (SceneBuilder.call (length old + id) m') (SceneBuilder.call id m).
Proof.
  intros Hm s. unfold SceneBuilder.call.
  rewrite relocate_lookup_total, Hm.
  destruct (m (SceneBuilder.heap s !!! id)) as [e|ex]; simpl; [|done].
  f_equal. rewrite <-relocate_set_heap. f_equal.
  by rewrite insert_app_r, list_fmap_insert.
Qed.

Lemma follows_read {A} id (g : A → A) (a' a : _ → A) :
  (∀ e, a' (relocate_Element (length old) e) = g (a e)) →
  follows g (SceneBuilder.read (length old + id) a') (SceneBuilder.read id a).
Proof.
  intros Ha s. unfold SceneBuilder.read.
  by rewrite relocate_lookup_total, Ha.
Qed.

Lemma follows__element :
  follows (Nat.add (length old)) SceneBuilder._element SceneBuilder._element.
Proof.
  intros s. unfold SceneBuilder._element. simpl. rewrite fmap_last.
  by destruct (last (SceneBuilder._elements s)).
Qed.

Lemma list_pop_fmap {A B} (f : A → B) (l : list A) :
  list_pop (fmap (M:=list) f l)
  = fmap (M:=option) (λ p, (fmap (M:=list) f p.1, f p.2)) (list_pop l).
Proof.
  induction l as [|x l IH]; [done|].
  rewrite fmap_cons. cbn [list_pop]. rewrite IH.
  by destruct (list_pop l) as [[front y]|].
Qed.

Lemma follows__push_element {A} (f : A → A) e (body' body : M State A) :
  follows f body' body →
  follows f (SceneBuilder._push_element (length old + e) body')
    (SceneBuilder._push_element e body).
Proof.
  intros Hb s. unfold SceneBuilder._push_element, SceneBuilder.modify.
  run_step.
  replace (SceneBuilder.set_elements
             (SceneBuilder._elements (relocate old s) ++ [length old + e])
             (relocate old s))
    with (relocate old
            (SceneBuilder.set_elements (SceneBuilder._elements s ++ [e]) s))
    by (unfold relocate, SceneBuilder.set_elements; simpl;
        by rewrite fmap_app).
  rewrite Hb.
  destruct (body _) as [[a|ex] s1]; simpl; [|done].
  rewrite list_pop_fmap.
  destruct (list_pop (SceneBuilder._elements s1)) as [[front top]|];
    simpl; [|done].
  rewrite (bool_decide_ext (length old + top = length old + e) (top = e))
    by lia.
  by case_bool_decide.
Qed.

Lemma element_define_relocate name v e :
  element.define name (relocate_Obj (length old) v)
    (relocate_Element (length old) e)
  = relocate_outcome (relocate_Element (length old))
      (element.define name v e).
Proof.
  unfold element.define. simpl. rewrite lookup_fmap.
  destruct (element.properties e !! name); simpl; [done|].
  unfold relocate_Element. simpl. by rewrite fmap_insert.
Qed.

Lemma element_set_relocate name v e :
  element.set name (relocate_Obj (length old) v)
    (relocate_Element (length old) e)
  = relocate_outcome (relocate_Element (length old))
      (element.set name v e).
Proof.
  unfold element.set. simpl. rewrite lookup_fmap.
  destruct (element.properties e !! name); simpl; [|done].
  unfold relocate_Element. simpl. by rewrite fmap_insert.
Qed.

Lemma follows__build_Name_scan name token elements :
  follows (relocate_Obj (length old))
    (SceneBuilder._build_Name_scan name token
       (Nat.add (length old) <$> elements))
    (SceneBuilder._build_Name_scan name token elements).
Proof.
  induction elements as [|e elements IH]; [done|].
  intros s. rewrite fmap_cons. cbn [SceneBuilder._build_Name_scan].
  rewrite relocate_lookup_total. unfold element.get. simpl.
  rewrite lookup_fmap.
  destruct (element.properties (SceneBuilder.heap s !!! e) !! name);
    simpl; [done|apply IH].
Qed.

(** The handlers of [_build_Define] and [_build_Assign]: report with the
    kind of the current element. *)
Lemma follows_report (message : string → exn) :
  follows_behind (A:=unit) old id
    (bind SceneBuilder._element (λ self,
       bind (SceneBuilder.read self element.type_name) (λ type_name,
         raise (message type_name))))
    (bind SceneBuilder._element (λ self,
       bind (SceneBuilder.read self element.type_name) (λ type_name,
         raise (message type_name)))).
Proof.
  eapply follows_bind; [apply follows__element|]. intros self.
  eapply follows_bind with (f := id); [by apply follows_read|].
  intros. apply follows_raise.
Qed.

Lemma _build_children_follows children :
  Forall (λ node, follows (relocate_Obj (length old))
                    (_build node) (_build node)) children →
  follows (map (relocate_Obj (length old)))
    (_build_children children) (_build_children children).
Proof.
  induction 1 as [|child children Hchild _ IH]; simpl.
  - by intros ?.
  - eapply follows_bind; [exact Hchild|]. intros built.
    eapply follows_bind; [exact IH|]. intros rest.
    by intros ?.
Qed.

Lemma _build_follows node :
  follows (relocate_Obj (length old)) (_build node) (_build node).
Proof.
  induction node as [node IH] using parser.Node_children_ind.
  destruct node as [element name children token| | children token
                   | children token | op children token | op children token
                   | value unit children token | string children token
                   | name children token | name children token];
    simpl in IH.
  - (* Create *)
    rewrite _build_Create_eq. unfold SceneBuilder._build_Create.
    eapply follows_bind with (f := relocate_Template (length old)).
    { intros s. simpl. rewrite lookup_fmap.
      by destruct (SceneBuilder.templates s !! element). }
    intros t. eapply follows_bind; [apply follows_Element_new|].
    intros new. destruct (truthy name); [apply follows_raise|].
    eapply follows_bind with (f := fmap (Nat.add (length old))).
    { apply follows_try_except.
      - eapply follows_bind; [apply follows__element|]. intros p.
        by intros ?.
      - intros []; try apply follows_raise. by intros ?. }
    intros parent. eapply follows_bind with (f := id).
    { destruct parent as [p|]; simpl; [|done].
      apply follows_update. intros e. unfold relocate_Element. simpl.
      by rewrite fmap_app. }
    intros _. eapply follows_bind with (f := id).
    { apply follows_update. intros e. unfold relocate_Element. simpl.
      by rewrite map_fmap_union. }
    intros _. eapply follows_bind.
    { apply follows__push_element. by apply _build_children_follows. }
    intros _.
    by intros ?.
  - apply follows_raise.
  - (* Define *)
    destruct children as [|name [|value [|? ?]]]; try apply follows_raise.
    apply Forall_cons_1 in IH as [_ IH]. apply Forall_cons_1 in IH as [IH _].
    unfold SceneBuilder._build_Define.
    destruct name; try apply follows_raise.
    eapply follows_bind; [exact IH|]. intros v.
    replace (datatypes.isinstance_Value (relocate_Obj (length old) v))
      with (datatypes.isinstance_Value v) by (by destruct v).
    eapply follows_bind; [apply follows_assert|]. intros _.
    eapply follows_bind with (f := id);
      [|intros; by intros ?].
    apply follows_try_except.
    + eapply follows_bind; [apply follows__element|]. intros self.
      apply follows_call. intros e. apply element_define_relocate.
    + intros []; try apply follows_raise. apply follows_report.
  - (* Assign *)
    destruct children as [|name [|value [|? ?]]]; try apply follows_raise.
    apply Forall_cons_1 in IH as [_ IH]. apply Forall_cons_1 in IH as [IH _].
    unfold SceneBuilder._build_Assign.
    destruct name; try apply follows_raise.
    eapply follows_bind; [exact IH|]. intros v.
    replace (datatypes.isinstance_Value (relocate_Obj (length old) v))
      with (datatypes.isinstance_Value v) by (by destruct v).
    eapply follows_bind; [apply follows_assert|]. intros _.
    eapply follows_bind with (f := id);
      [|intros; by intros ?].
    apply follows_try_except.
    + eapply follows_bind; [apply follows__element|]. intros self.
      apply follows_call. intros e. apply element_set_relocate.
    + intros []; try apply follows_raise; apply follows_report.
  - (* UnaryOp *)
    destruct children as [|operand [|? ?]]; try apply follows_raise.
    apply Forall_cons_1 in IH as [IH _].
    eapply follows_bind; [exact IH|]. intros o.
    by intros ?.
  - (* BinOp *)
    destruct children as [|lhs [|rhs [|? ?]]]; try apply follows_raise.
    apply Forall_cons_1 in IH as [IHl IH].
    apply Forall_cons_1 in IH as [IHr _].
    eapply follows_bind; [exact IHl|]. intros l.
    eapply follows_bind; [exact IHr|]. intros r.
    by intros ?.
  - (* Number *)
    unfold SceneBuilder._build_Number.
    eapply follows_bind; [apply follows_assert|]. intros _.
    destruct unit as [unit|];
      [|by intros ?].
    repeat case_bool_decide.
    + by intros ?.
    + by intros ?.
    + apply follows_raise.
  - (* String *)
    eapply follows_bind; [apply follows_assert|]. intros _.
    by intros ?.
  - (* Call *)
    rewrite _build_Call_eq.
    eapply follows_bind; [by apply _build_children_follows|]. intros args.
    destruct (functions !! name) as [f|]; [|apply follows_raise].
    by intros ?.
  - (* Name *)
    unfold SceneBuilder._build_Name.
    eapply follows_bind; [apply follows_assert|]. intros _.
    eapply follows_bind with (f := fmap (Nat.add (length old))).
    { intros s. unfold SceneBuilder.gets. simpl. by rewrite fmap_reverse. }
    intros els. apply follows__build_Name_scan.
Qed.
End relocation.

Lemma builtin_registry_closed :
  Forall closed_Template list_templates →
  map_Forall (λ _ t, closed_Template t) builtin_registry.
Proof.
  unfold builtin_registry.
  assert (map_Forall (λ _ t, closed_Template t)
            (∅ : gmap string (templates.Template scalar func))) as Hacc
    by apply map_Forall_empty.
  revert Hacc. generalize (∅ : gmap string (templates.Template scalar func)).
  induction list_templates as [|t l IH]; intros acc Hacc Hl; simpl; [done|].
  apply Forall_cons_1 in Hl as [Ht Hl].
  apply IH; [|done]. by apply map_Forall_insert_2.
Qed.

Lemma builtin_registry_relocate k :
  Forall closed_Template list_templates →
  relocate_Template k <$> builtin_registry = builtin_registry.
Proof.
  intros H. apply map_eq. intros i. rewrite lookup_fmap.
  destruct (builtin_registry !! i) as [t|] eqn:E; simpl; [|done].
  by rewrite (closed_Template_relocate _ _ (builtin_registry_closed H _ _ E)).
Qed.

Lemma build_Scene name children token s :
  build (parser.Create "Scene" name children token) s
  = build_scene (parser.Create "Scene" name children token) (reset s).
Proof. done. Qed.

Lemma build_scene_follows old string :
  follows_behind old (relocate_Obj (length old))
    (build_scene string) (build_scene string).
Proof.
  unfold build_scene.
  eapply follows_bind; [apply _build_follows|]. intros scene.
  replace (datatypes.isinstance_Element (relocate_Obj (length old) scene))
    with (datatypes.isinstance_Element scene) by (by destruct scene).
  eapply follows_bind; [apply follows_assert|]. intros _.
  eapply follows_bind with (f := id); [|by intros ? ?].
  destruct scene as [|r| | | | | | | |]; try apply follows_raise. simpl.
  eapply follows_bind with (f := id); [by apply follows_read|].
  intros. apply follows_assert.
Qed.

(** C9. What a build returns does not depend on what the builder object
    went through before.  For the scene builder: run in any state, [build]
    gives the outcome and the elements it gives in a fresh builder with an
    empty store, moved behind the elements that were already there, which
    it leaves untouched; and for a ["Scene"] root the attributes it leaves
    are those of the fresh run, moved likewise.  For the interpreter: two
    runs of [interpret] from states with the same store agree, whatever
    the registries and scope stacks of the two states held.  (The
    built-in templates of the scene builder declare defaults that name no
    element.) *)
Theorem build_forgets_earlier_builds :
  Forall closed_Template list_templates →
  (∀ (node : Node) (s : State),
     let fresh := {| SceneBuilder.templates := ∅;
                     SceneBuilder._elements := [];
                     SceneBuilder.heap := [] |} in
     let k := length (SceneBuilder.heap s) in
     (build node s).1 = relocate_outcome (relocate_Obj k) (build node fresh).1
     ∧ SceneBuilder.heap (build node s).2
       = SceneBuilder.heap s
           ++ (relocate_Element k <$> SceneBuilder.heap (build node fresh).2)
     ∧ (∀ name children token,
          node = parser.Create "Scene" name children token →
          (build node s).2
          = relocate (SceneBuilder.heap s) (build node fresh).2))
  ∧ (∀ (node : Node) (s1 s2 : IState),
       Interpreter.heap s1 = Interpreter.heap s2 →
       (interpret node s1).1 = (interpret node s2).1
       ∧ Interpreter.heap (interpret node s1).2
         = Interpreter.heap (interpret node s2).2
       ∧ (∀ name children token,
            node = parser.Create "Scene" name children token →
            (interpret node s1).2 = (interpret node s2).2)).
Proof.
  intros Hclosed. split.
  - intros node s fresh k.
    assert (∀ name children token,
              node = parser.Create "Scene" name children token →
              build node s
              = (relocate_outcome (relocate_Obj k) (build node fresh).1,
                 relocate (SceneBuilder.heap s) (build node fresh).2))
      as Hscene.
    { intros name children token ->. rewrite !build_Scene. unfold k.
      rewrite <-(build_scene_follows (SceneBuilder.heap s)). f_equal.
      unfold reset, relocate. simpl.
      by rewrite builtin_registry_relocate, app_nil_r. }
    assert ((∃ name children token,
               node = parser.Create "Scene" name children token)
            ∨ (∀ name children token,
                 node ≠ parser.Create "Scene" name children token))
      as [(name & children & token & ->)|Hother].
    { destruct node as [element ? ? ?| | | | | | | | |];
        try (right; intros; discriminate).
      destruct (decide (element = "Scene")) as [->|Hne]; [left; eauto|].
      right. intros ? ? ? [= ? ? ? ?]. done. }
    + rewrite (Hscene _ _ _ eq_refl). simpl. repeat split; try done.
    + rewrite !build_rejects by done. simpl. rewrite app_nil_r.
      repeat split; try done.
      intros name children token ->. by destruct (Hother name children token).
  - intros node s1 s2 Hheap. destruct node; try done.
    unfold Interpreter.interpret, Interpreter.modify. run_step.
    case_bool_decide as Hel.
    + by rewrite Hheap.
    + repeat split; try done. by intros ? ? ? [= ? ? ? ?].
Qed.
(** * More of the two pipelines *)

(** ** Induction over the visitors of the scene builder *)

(** To show that every visit has a property it is enough to show that each
    visitor has it when the visits it makes have it. *)
Lemma _build_visitors_ind
    (P : M State Obj → Prop) (Q : M State (list Obj) → Prop) :
  P (raise AssertionError) →
  (∀ element name token body,
     Q body → P (SceneBuilder._build_Create element name token body)) →
  P SceneBuilder._build_Template →
  (∀ name token value,
     P value → P (SceneBuilder._build_Define name token value)) →
  (∀ name token value,
     P value → P (SceneBuilder._build_Assign name token value)) →
  (∀ op operand, P operand → P (SceneBuilder._build_UnaryOp op operand)) →
  (∀ op lhs rhs, P lhs → P rhs → P (SceneBuilder._build_BinOp op lhs rhs)) →
  (∀ value unit children token,
     P (SceneBuilder._build_Number TimeUnit _units value unit children token)) →
  (∀ string children, P (SceneBuilder._build_String string children)) →
  (∀ name body, Q body → P (SceneBuilder._build_Call functions name body)) →
  (∀ name children token, P (SceneBuilder._build_Name name children token)) →
  Q (mret []) →
  (∀ m ms, P m → Q ms →
     Q (built ← m; rest ← ms; mret (built :: rest))) →
  (∀ node, P (_build node)) ∧ (∀ children, Q (_build_children children)).
Proof.
  intros Hassert HCreate HTemplate HDefine HAssign HUnary HBin HNumber HString
    HCall HName Hnil Hcons.
  assert (∀ children, Forall (λ node, P (_build node)) children →
                      Q (_build_children children)) as Hchildren.
  { induction 1 as [|child children Hchild _ IH]; simpl; [exact Hnil|].
    by apply Hcons. }
  assert (∀ node, P (_build node)) as Hnode.
  { induction node as [node IH] using parser.Node_children_ind.
    destruct node as [element name children token| | children token
                     | children token | op children token | op children token
                     | value unit children token | string children token
                     | name children token | name children token];
      simpl in IH.
    - rewrite _build_Create_eq. by apply HCreate, Hchildren.
    - exact HTemplate.
    - destruct children as [|name [|value [|? ?]]]; try exact Hassert.
      apply Forall_cons_1 in IH as [_ IH]. apply Forall_cons_1 in IH as [IH _].
      by apply HDefine.
    - destruct children as [|name [|value [|? ?]]]; try exact Hassert.
      apply Forall_cons_1 in IH as [_ IH]. apply Forall_cons_1 in IH as [IH _].
      by apply HAssign.
    - destruct children as [|operand [|? ?]]; try exact Hassert.
      apply Forall_cons_1 in IH as [IH _]. by apply HUnary.
    - destruct children as [|lhs [|rhs [|? ?]]]; try exact Hassert.
      apply Forall_cons_1 in IH as [IHl IH]. apply Forall_cons_1 in IH as [IHr _].
      by apply HBin.
    - apply HNumber.
    - apply HString.
    - rewrite _build_Call_eq. by apply HCall, Hchildren.
    - apply HName. }
  split; [exact Hnode|]. intros children. apply Hchildren.
  apply Forall_forall. intros. apply Hnode.
Qed.

(** The three ways a [Create] goes, for any way of building the children. *)
Lemma _build_Create_undefined element name token (body : M State (list Obj)) s :
  SceneBuilder.templates s !! element = None →
  SceneBuilder._build_Create element name token body s
  = (Raise (SceneBuilder._create_error
              ("Creating undefined " +:+ repr element +:+ " template")
              None token), s).
Proof.
  intros Ht. unfold SceneBuilder._build_Create. run_step. by rewrite Ht.
Qed.

Lemma _build_Create_named element name token (body : M State (list Obj)) t s :
  SceneBuilder.templates s !! element = Some t →
  truthy name = true →
  SceneBuilder._build_Create element name token body s
  = (Raise NotImplementedError,
     SceneBuilder.set_heap (SceneBuilder.heap s ++ [element.new]) s).
Proof.
  intros Ht Hname. unfold SceneBuilder._build_Create. run_step.
  rewrite Ht. unfold SceneBuilder.Element_new. by rewrite Hname.
Qed.

Lemma _build_Create_run element name token (body : M State (list Obj)) t s :
  SceneBuilder.templates s !! element = Some t →
  truthy name = false →
  SceneBuilder._build_Create element name token body s
  = match body (attached t s) with
    | (Return _, s1) =>
        match list_pop (SceneBuilder._elements s1) with
        | Some (front, top) =>
            (if bool_decide (top = length (SceneBuilder.heap s))
             then Return (datatypes.ElementRef (length (SceneBuilder.heap s)))
             else Raise AssertionError,
             SceneBuilder.set_elements front s1)
        | None => (Raise IndexError, s1)
        end
    | (Raise ex, s1) => (Raise ex, s1)
    end.
Proof.
  intros Ht Hname.
  unfold SceneBuilder._build_Create, SceneBuilder.Element_new,
    SceneBuilder._element, SceneBuilder.update, SceneBuilder._push_element,
    SceneBuilder.modify.
  run_step. rewrite Ht, Hname. simpl.
  unfold attached, SceneBuilder.set_elements, SceneBuilder.set_heap. simpl.
  destruct (last (SceneBuilder._elements s)) as [p|]; simpl;
    (destruct (body _) as [[?|?] s1]; [|done];
     destruct (list_pop (SceneBuilder._elements s1)) as [[front top]|];
       [|done]; by case_bool_decide).
Qed.

Lemma _build_Define_eq n c t token (value : M State Obj) :
  SceneBuilder._build_Define (parser.Name n c t) token value
  = bind value (define_value n token).
Proof. reflexivity. Qed.

Lemma _build_Assign_eq n c t token (value : M State Obj) :
  SceneBuilder._build_Assign (parser.Name n c t) token value
  = bind value (assign_value n token).
Proof. reflexivity. Qed.

Lemma define_value_quiet name token v : quiet (define_value name token v).
Proof.
  unfold define_value.
  apply quiet_bind; [apply quiet_assert|]. intros _.
  apply quiet_bind; [|intros; apply quiet_ret].
  apply quiet_try_except.
  - apply quiet_call_current. intros e e'. unfold element.define.
    destruct (_ !! _); [done|]. by intros [= <-].
  - intros []; try apply quiet_raise.
    apply quiet_bind; [apply quiet__element|]. intros self.
    apply quiet_bind; [apply quiet_read|]. intros. apply quiet_raise.
Qed.

Lemma assign_value_quiet name token v : quiet (assign_value name token v).
Proof.
  unfold assign_value.
  apply quiet_bind; [apply quiet_assert|]. intros _.
  apply quiet_bind; [|intros; apply quiet_ret].
  apply quiet_try_except.
  - apply quiet_call_current. intros e e'. unfold element.set.
    destruct (_ !! _); [|done]. by intros [= <-].
  - intros []; try apply quiet_raise;
      (apply quiet_bind; [apply quiet__element|]; intros self;
       apply quiet_bind; [apply quiet_read|]; intros; apply quiet_raise).
Qed.

Lemma _build_Number_quiet value unit children token :
  quiet (SceneBuilder._build_Number TimeUnit _units value unit children token).
Proof.
  unfold SceneBuilder._build_Number.
  apply quiet_bind; [apply quiet_assert|]. intros _.
  destruct unit; [|apply quiet_ret].
  repeat case_bool_decide; try apply quiet_ret. apply quiet_raise.
Qed.

Lemma _build_String_quiet string children :
  quiet (SceneBuilder._build_String (scalar:=scalar) (func:=func) string children).
Proof.
  apply quiet_bind; [apply quiet_assert|]. intros _. apply quiet_ret.
Qed.

Lemma _build_Name_quiet name children token :
  quiet (SceneBuilder._build_Name (scalar:=scalar) (func:=func)
           name children token).
Proof.
  unfold SceneBuilder._build_Name.
  apply quiet_bind; [apply quiet_assert|]. intros _.
  apply quiet_bind; [apply quiet_gets|]. intros els.
  intros s out s' E. rewrite _build_Name_scan_find in E.
  injection E as <- <-. split; [apply grows_refl|done].
Qed.

(** ** The scope stack *)

Lemma quiet_scoped {A} (m : M State A) : quiet m → scoped m.
Proof. intros H s out s' E. destruct (H _ _ _ E) as [_ ->]. done. Qed.

Lemma scoped_bind {A B} (m : M State A) (k : A → M State B) :
  scoped m → (∀ a, scoped (k a)) → scoped (bind m k).
Proof.
  intros Hm Hk s out s' E. unfold bind in E.
  destruct (m s) as [[a|ex] s1] eqn:Em.
  - destruct (Hm _ _ _ Em) as [_ S1]. destruct (Hk a _ _ _ E) as [P2 S2].
    rewrite (S1 I) in P2, S2. done.
  - injection E as <- <-. destruct (Hm _ _ _ Em) as [P1 _]. split; [done|].
    intros [].
Qed.

Lemma _build_Create_scoped element name token (body : M State (list Obj)) :
  scoped body → scoped (SceneBuilder._build_Create element name token body).
Proof.
  intros Hbody s out s' E.
  destruct (SceneBuilder.templates s !! element) as [t|] eqn:Ht;
    [destruct (truthy name) eqn:Hname|].
  - rewrite (_build_Create_named _ _ _ _ _ _ Ht Hname) in E.
    by injection E as <- <-.
  - rewrite (_build_Create_run _ _ _ _ _ _ Ht Hname) in E.
    destruct (body (attached t s)) as [[built|ex] s1] eqn:Eb;
      destruct (Hbody _ _ _ Eb) as [Hpre Hst];
      change (SceneBuilder._elements (attached t s))
        with (SceneBuilder._elements s ++ [length (SceneBuilder.heap s)])
        in Hpre, Hst.
    + rewrite (Hst I), list_pop_snoc, bool_decide_eq_true_2 in E by done.
      by injection E as <- <-.
    + injection E as <- <-. split; [|intros []].
      etrans; [|exact Hpre]. by apply prefix_app_r.
  - rewrite (_build_Create_undefined _ _ _ _ _ Ht) in E.
    by injection E as <- <-.
Qed.

Lemma _build_scoped :
  (∀ node, scoped (_build node))
  ∧ (∀ children, scoped (_build_children children)).
Proof.
  apply _build_visitors_ind.
  - apply quiet_scoped, quiet_raise.
  - apply _build_Create_scoped.
  - apply quiet_scoped, quiet_raise.
  - intros name token value Hv.
    destruct name; try apply quiet_scoped, quiet_raise.
    rewrite _build_Define_eq. apply scoped_bind; [done|].
    intros. apply quiet_scoped, define_value_quiet.
  - intros name token value Hv.
    destruct name; try apply quiet_scoped, quiet_raise.
    rewrite _build_Assign_eq. apply scoped_bind; [done|].
    intros. apply quiet_scoped, assign_value_quiet.
  - intros op operand Ho. apply scoped_bind; [done|].
    intros. apply quiet_scoped, quiet_ret.
  - intros op lhs rhs Hl Hr. apply scoped_bind; [done|]. intros.
    apply scoped_bind; [done|]. intros. apply quiet_scoped, quiet_ret.
  - intros. apply quiet_scoped, _build_Number_quiet.
  - intros. apply quiet_scoped, _build_String_quiet.
  - intros name body Hb. apply scoped_bind; [done|]. intros args.
    apply quiet_scoped. destruct (functions !! name);
      [apply quiet_ret|apply quiet_raise].
  - intros. apply quiet_scoped, _build_Name_quiet.
  - apply quiet_scoped, quiet_ret.
  - intros m ms Hm Hms. apply scoped_bind; [done|]. intros.
    apply scoped_bind; [done|]. intros. apply quiet_scoped, quiet_ret.
Qed.

(** X1. A visit of the scene builder never changes the template registry;
    it only pushes onto the scope stack it was given, so that stack is still
    the bottom of the stack when the visit ends; and when the visit returns,
    the stack is exactly what it was.  (A visit that raises leaves the frames
    it pushed: [_push_element] pops only after its body returned.) *)
Theorem _build_scope_stack_discipline (node : Node) (s : State) :
  SceneBuilder.templates (_build node s).2 = SceneBuilder.templates s
  ∧ SceneBuilder._elements s `prefix_of` SceneBuilder._elements (_build node s).2
  ∧ (is_Return (_build node s).1 →
     SceneBuilder._elements (_build node s).2 = SceneBuilder._elements s).
Proof.
  destruct (_build node s) as [out s'] eqn:E. simpl.
  destruct (_build_visit_ok node _ _ _ E) as [(Ht & _) _].
  destruct (proj1 _build_scoped node _ _ _ E) as [Hpre Hst]. done.
Qed.

(** ** The exceptions a build lets out *)












(** ** What the visitors return *)

Lemma _build_returns_of (node : Node) (s s' : State) v :
  _build node s = (Return v, s') → returns_of node v.
Proof.
  destruct node as [element name children token| | children token
                   | children token | op children token | op children token
                   | value unit children token | string children token
                   | name children token | name children token]; simpl.
  - change (SceneBuilder._build_Create element name token
              (_build_children children) s = (Return v, s') →
            datatypes.isinstance_Element v = true).
    intros E.
    destruct (SceneBuilder.templates s !! element) as [t|] eqn:Ht;
      [destruct (truthy name) eqn:Hname|].
    + by rewrite (_build_Create_named _ _ _ _ _ _ Ht Hname) in E.
    + rewrite (_build_Create_run _ _ _ _ _ _ Ht Hname) in E.
      destruct (_build_children children _) as [[?|?] s1]; [|done].
      destruct (list_pop _) as [[front top]|]; [|done].
      case_bool_decide; [|done]. by injection E as <- <-.
    + by rewrite (_build_Create_undefined _ _ _ _ _ Ht) in E.
  - done.
  - destruct children as [|name [|value [|? ?]]]; try done.
    destruct name; try done. rewrite _build_Define_eq.
    unfold define_value. run_step.
    destruct (_build value s) as [[w|?] s1]; [|done].
    destruct (datatypes.isinstance_Value w); [|done].
    match goal with |- context [SceneBuilder._element ?st] =>
      destruct (SceneBuilder._element st) as [[p|?] s2] end; simpl.
    + match goal with |- context [SceneBuilder.call ?a ?b ?st] =>
        destruct (SceneBuilder.call a b st) as [[[]|[]] s3] end; simpl;
        try done; try (by intros [= <- <-]).
      destruct (SceneBuilder._element s3) as [[?|?] ?]; done.
    + destruct ex; simpl; try done.
      destruct (SceneBuilder._element s2) as [[?|?] ?]; done.
  - destruct children as [|name [|value [|? ?]]]; try done.
    destruct name; try done. rewrite _build_Assign_eq.
    unfold assign_value. run_step.
    destruct (_build value s) as [[w|?] s1]; [|done].
    destruct (datatypes.isinstance_Value w); [|done].
    match goal with |- context [SceneBuilder._element ?st] =>
      destruct (SceneBuilder._element st) as [[p|?] s2] end; simpl.
    + match goal with |- context [SceneBuilder.call ?a ?b ?st] =>
        destruct (SceneBuilder.call a b st) as [[[]|[]] s3] end; simpl;
        try done; try (by intros [= <- <-]);
        destruct (SceneBuilder._element s3) as [[?|?] ?]; done.
    + destruct ex; simpl; try done;
        destruct (SceneBuilder._element s2) as [[?|?] ?]; done.
  - destruct children as [|operand [|? ?]]; try done.
    unfold SceneBuilder._build_UnaryOp. run_step.
    destruct (_build operand s) as [[?|?] ?]; [|done]. by intros [= <- <-].
  - destruct children as [|lhs [|rhs [|? ?]]]; try done.
    unfold SceneBuilder._build_BinOp. run_step.
    destruct (_build lhs s) as [[?|?] s1]; [|done].
    destruct (_build rhs s1) as [[?|?] ?]; [|done]. by intros [= <- <-].
  - unfold SceneBuilder._build_Number, SceneBuilder._fail. run_step.
    case_bool_decide; [|done]. destruct unit; [|by intros [= <- <-]].
    repeat case_bool_decide; try done; by intros [= <- <-].
  - unfold SceneBuilder._build_String. run_step.
    case_bool_decide; [|done]. by intros [= <- <-].
  - change (SceneBuilder._build_Call functions name
              (_build_children children) s = (Return v, s') →
            datatypes.isinstance_Value v = true).
    unfold SceneBuilder._build_Call. run_step.
    destruct (_build_children children s) as [[?|?] ?]; [|done].
    destruct (functions !! name); [|done]. by intros [= <- <-].
  - unfold SceneBuilder._build_Name, SceneBuilder.gets. run_step.
    case_bool_decide; [|done]. rewrite _build_Name_scan_find.
    destruct (find _ _); [|done]. by intros [= <- <-].
Qed.

(** X3. What a visit returns is fixed by the class of the node: a [Create]
    returns an element, a [Define] or an [Assign] returns [None], a
    [Template] never returns, and every other node returns a [Value].  So a
    [Define] or an [Assign] whose value is itself a [Create], a [Template],
    a [Define] or an [Assign] never returns: the assertion on the built
    value, or the building of the value, stops it. *)
Theorem _build_returns_by_node_class :
  (∀ (node : Node) (s : State),
     match (_build node s).1 with
     | Return v => returns_of node v
     | Raise _ => True
     end)
  ∧ (∀ (name value : Node) token (s : State),
       not_a_value value = true →
       ¬ is_Return (_build (parser.Define [name; value] token) s).1
       ∧ ¬ is_Return (_build (parser.Assign [name; value] token) s).1).
Proof.
  split.
  - intros node s. destruct (_build node s) as [[v|ex] s'] eqn:E; simpl; [|done].
    by eapply _build_returns_of.
  - intros name value token s Hvalue.
    assert (∀ w s1, _build value s = (Return w, s1) →
                    datatypes.isinstance_Value w = false) as Hnot.
    { intros w s1 E. apply _build_returns_of in E.
      destruct value; try done; simpl in E; try done.
      - by destruct w.
      - by subst.
      - by subst. }
    split.
    + destruct name as [| | | | | | | | |n c t]; try (simpl; by intros []).
      change (_build (parser.Define [parser.Name n c t; value] token))
        with (SceneBuilder._build_Define (parser.Name n c t) token
                (_build value)).
      rewrite _build_Define_eq. unfold define_value. run_step.
      destruct (_build value s) as [[w|?] s1] eqn:E; simpl; [|by intros []].
      rewrite (Hnot _ _ eq_refl). simpl. by intros [].
    + destruct name as [| | | | | | | | |n c t]; try (simpl; by intros []).
      change (_build (parser.Assign [parser.Name n c t; value] token))
        with (SceneBuilder._build_Assign (parser.Name n c t) token
                (_build value)).
      rewrite _build_Assign_eq. unfold assign_value. run_step.
      destruct (_build value s) as [[w|?] s1] eqn:E; simpl; [|by intros []].
      rewrite (Hnot _ _ eq_refl). simpl. by intros [].
Qed.

(** ** Expressions *)

Lemma _build_children_pure children :
  Forall (λ node, expression node = true → ∀ s, (_build node s).2 = s)
    children →
  forallb expression children = true →
  ∀ s, (_build_children children s).2 = s.
Proof.
  induction 1 as [|child children Hchild _ IH]; simpl; [done|].
  intros [Hc Hcs]%andb_true_iff s. run_step.
  specialize (Hchild Hc s). destruct (_build child s) as [[?|?] s1];
    simpl in Hchild; subst s1; [|done].
  specialize (IH Hcs s). destruct (_build_children children s) as [[?|?] s1];
    simpl in IH; by subst s1.
Qed.

Lemma _build_expression_pure (node : Node) :
  expression node = true → ∀ s, (_build node s).2 = s.
Proof.
  induction node as [node IH] using parser.Node_children_ind.
  destruct node as [element name children token| | children token
                   | children token | op children token | op children token
                   | value unit children token | string children token
                   | name children token | name children token];
    simpl in IH; try done; intros Hexpr s.
  - destruct children as [|operand [|? ?]]; try done.
    apply Forall_cons_1 in IH as [IH _]. simpl in Hexpr.
    rewrite andb_true_r in Hexpr. specialize (IH Hexpr s). simpl.
    unfold SceneBuilder._build_UnaryOp. run_step.
    destruct (_build operand s) as [[?|?] s1]; by simpl in *.
  - destruct children as [|lhs [|rhs [|? ?]]]; try done.
    apply Forall_cons_1 in IH as [IHl IH]. apply Forall_cons_1 in IH as [IHr _].
    simpl in Hexpr. rewrite andb_true_r in Hexpr.
    apply andb_true_iff in Hexpr as [Hl Hr]. simpl.
    unfold SceneBuilder._build_BinOp. run_step.
    specialize (IHl Hl s). destruct (_build lhs s) as [[?|?] s1];
      simpl in IHl; subst s1; [|done].
    specialize (IHr Hr s). destruct (_build rhs s) as [[?|?] s1];
      by simpl in *.
  - simpl. unfold SceneBuilder._build_Number, SceneBuilder._fail. run_step.
    case_bool_decide; [|done]. destruct unit; [|done].
    by repeat case_bool_decide.
  - simpl. unfold SceneBuilder._build_String. run_step.
    by case_bool_decide.
  - rewrite _build_Call_eq. unfold SceneBuilder._build_Call. run_step.
    pose proof (_build_children_pure children IH Hexpr s) as Hpure.
    destruct (_build_children children s) as [[?|?] s1]; simpl in Hpure;
      subst s1; [|done].
    by destruct (functions !! name).
  - simpl. unfold SceneBuilder._build_Name, SceneBuilder.gets. run_step.
    case_bool_decide; [|done]. by rewrite _build_Name_scan_find.
Qed.

Lemma _build_children_refs children :
  Forall (λ node, expression node = true → ∀ s v,
            (_build node s).1 = Return v →
            Forall (in_scope s) (references v)) children →
  forallb expression children = true →
  ∀ s args, (_build_children children s).1 = Return args →
            Forall (in_scope s) (flat_map references args).
Proof.
  induction 1 as [|child children Hchild Hall IH]; simpl.
  - intros _ s args [= <-]. constructor.
  - intros [Hc Hcs]%andb_true_iff s args. run_step.
    pose proof (_build_expression_pure child Hc s) as Hpure.
    specialize (Hchild Hc s).
    destruct (_build child s) as [[built|?] s1]; simpl in *; [|done].
    subst s1. specialize (IH Hcs s).
    destruct (_build_children children s) as [[rest|?] s1]; simpl in *;
      [|done].
    intros [= <-]. simpl. apply Forall_app. split; eauto.
Qed.

Lemma _build_expression_refs (node : Node) :
  expression node = true → ∀ s v,
  (_build node s).1 = Return v → Forall (in_scope s) (references v).
Proof.
  induction node as [node IH] using parser.Node_children_ind.
  destruct node as [element name children token| | children token
                   | children token | op children token | op children token
                   | value unit children token | string children token
                   | name children token | name children token];
    simpl in IH; try done; intros Hexpr s v.
  - destruct children as [|operand [|? ?]]; try done.
    apply Forall_cons_1 in IH as [IH _]. simpl in Hexpr.
    rewrite andb_true_r in Hexpr. specialize (IH Hexpr s). simpl.
    unfold SceneBuilder._build_UnaryOp. run_step.
    destruct (_build operand s) as [[o|?] s1]; simpl in *; [|done].
    intros [= <-]. simpl. eauto.
  - destruct children as [|lhs [|rhs [|? ?]]]; try done.
    apply Forall_cons_1 in IH as [IHl IH]. apply Forall_cons_1 in IH as [IHr _].
    simpl in Hexpr. rewrite andb_true_r in Hexpr.
    apply andb_true_iff in Hexpr as [Hl Hr]. simpl.
    unfold SceneBuilder._build_BinOp. run_step.
    pose proof (_build_expression_pure lhs Hl s) as Hpure.
    specialize (IHl Hl s). destruct (_build lhs s) as [[l|?] s1];
      simpl in *; [|done].
    subst s1. specialize (IHr Hr s).
    destruct (_build rhs s) as [[r|?] s1]; simpl in *; [|done].
    intros [= <-]. simpl. apply Forall_app. split; eauto.
  - simpl. unfold SceneBuilder._build_Number, SceneBuilder._fail. run_step.
    case_bool_decide; [|done]. destruct unit; [|by intros [= <-]].
    repeat case_bool_decide; try done; by intros [= <-].
  - simpl. unfold SceneBuilder._build_String. run_step.
    case_bool_decide; [|done]. by intros [= <-].
  - rewrite _build_Call_eq. unfold SceneBuilder._build_Call. run_step.
    pose proof (_build_children_refs children IH Hexpr s) as Hrefs.
    destruct (_build_children children s) as [[args|?] s1]; simpl in *;
      [|done].
    destruct (functions !! name); [|done]. intros [= <-]. simpl. eauto.
  - simpl. unfold SceneBuilder._build_Name, SceneBuilder.gets. run_step.
    case_bool_decide; [|done]. rewrite _build_Name_scan_find.
    destruct (find _ _) as [e|] eqn:Efind; [|done]. simpl.
    intros [= <-]. simpl. apply Forall_singleton.
    apply find_some in Efind as [Hin Hdecl]. split; simpl; [|done].
    apply list_elem_of_In in Hin. by rewrite elem_of_reverse in Hin.
Qed.

(** X4. Building an expression (a tree of literals, names, operators and
    calls) has no effect: whether it returns or raises, the registry, the
    scope stack and every element are as they were. *)
Theorem expressions_build_without_effect (node : Node) (s : State) :
  expression node = true → (_build node s).2 = s.
Proof. intros H. by apply _build_expression_pure. Qed.

(** X5. Names are bound when the expression is built: every property
    reference in the value an expression builds to points to an element
    that is on the scope stack at that moment and whose property table has
    the name.  No reference is made to a sibling or to any element off the
    stack. *)
Theorem expressions_refer_to_the_scope (node : Node) (s : State) v :
  expression node = true →
  (_build node s).1 = Return v →
  Forall (in_scope s) (references v).
Proof. intros H. by apply _build_expression_refs. Qed.

(** ** References and the shape of the tree *)

Lemma valid_mono n n' (o : Obj) : n ≤ n' → valid n o = true → valid n' o = true.
Proof.
  intros Hn. revert o.
  apply (datatypes.Obj_args_ind (λ o, valid n o = true → valid n' o = true));
    simpl.
  - repeat split; try done; intros; case_bool_decide; try done;
      apply bool_decide_eq_true_2; lia.
  - done.
  - intros op l r IHl IHr [H1 H2]%andb_true_iff. by rewrite IHl, IHr.
  - intros f args IH H. induction IH as [|a args Ha _ IHargs]; simpl; [done|].
    simpl in H. apply andb_true_iff in H as [H1 H2]. by rewrite Ha, IHargs.
Qed.

Lemma element_ok_mono n n' r e :
  n ≤ n' → element_ok n r e → element_ok n' r e.
Proof.
  intros Hn [Hc Hp]. split.
  - eapply Forall_impl; [exact Hc|]. simpl. lia.
  - intros k v Hkv. eapply valid_mono; [exact Hn|]. by eapply Hp.
Qed.

Lemma list_pop_Some {A} (l front : list A) top :
  list_pop l = Some (front, top) → l = front ++ [top].
Proof.
  revert front. induction l as [|x l IH]; simpl; [done|]. intros front.
  destruct (list_pop l) as [[f y]|] eqn:El.
  - intros [= <- <-]. by rewrite (IH f eq_refl).
  - intros [= <- <-]. by destruct l as [|z l]; [|simpl in El; destruct (list_pop l) as [[] |]].
Qed.

Lemma sound_ret {A} (pre : nat → Prop) (ok : nat → A → Prop) a :
  (∀ n, pre n → ok n a) → sound pre ok (ret a).
Proof.
  intros H s out s' [= <- <-] Hwf Hpre. split; [done|]. split; [done|].
  intros ? [= <-]. by apply H.
Qed.

Lemma sound_raise {A} (pre : nat → Prop) (ok : nat → A → Prop) ex :
  sound pre ok (raise ex).
Proof. intros s out s' [= <- <-] Hwf Hpre. split; [done|]. by split. Qed.

Lemma sound_bind {A B} (pre : nat → Prop) (okA : nat → A → Prop)
    (okB : nat → B → Prop) (m : M State A) (k : A → M State B) :
  lasting pre →
  sound pre okA m →
  (∀ a, sound (λ n, pre n ∧ okA n a) okB (k a)) →
  sound pre okB (bind m k).
Proof.
  intros Hlast Hm Hk s out s' E Hwf Hpre. unfold bind in E.
  destruct (m s) as [[a|ex] s1] eqn:Em.
  - destruct (Hm _ _ _ Em Hwf Hpre) as (Hwf1 & Hlen1 & Hok1).
    destruct (Hk a _ _ _ E Hwf1) as (Hwf2 & Hlen2 & Hok2).
    { split; [by eapply Hlast|by apply Hok1]. }
    split; [done|]. split; [lia|done].
  - injection E as <- <-. destruct (Hm _ _ _ Em Hwf Hpre) as (Hwf1 & Hlen1 & _).
    split; [done|]. by split.
Qed.

Lemma sound_weaken {A} (pre pre' : nat → Prop) (ok ok' : nat → A → Prop) m :
  (∀ n, pre' n → pre n) → (∀ n a, ok n a → ok' n a) →
  sound pre ok m → sound pre' ok' m.
Proof.
  intros Hpre Hok Hm s out s' E Hwf Hp.
  destruct (Hm _ _ _ E Hwf (Hpre _ Hp)) as (? & ? & ?).
  split; [done|]. split; [done|]. eauto.
Qed.

Lemma single_parent_ext (h h' : list (element.Element scalar func)) :
  (∀ r, element.children <$> h' !! r = element.children <$> h !! r) →
  single_parent h → single_parent h'.
Proof.
  intros Hext Hsp r1 r2 e1 e2 i j c H1 H2 Hi Hj.
  pose proof (Hext r1) as X1. pose proof (Hext r2) as X2.
  rewrite H1 in X1. rewrite H2 in X2. simpl in *.
  destruct (h !! r1) as [f1|] eqn:F1; [|done].
  destruct (h !! r2) as [f2|] eqn:F2; [|done].
  simpl in *. injection X1 as X1. injection X2 as X2.
  rewrite X1 in Hi. rewrite X2 in Hj. by eapply (Hsp r1 r2 f1 f2).
Qed.

(** Rebinding a property of an element keeps the state well-formed. *)
Lemma well_formed_rebind (s : State) p e' :
  well_formed s →
  element.children e' = element.children (SceneBuilder.heap s !!! p) →
  map_Forall (λ _ v, valid (length (SceneBuilder.heap s)) v = true)
    (element.properties e') →
  well_formed (SceneBuilder.set_heap (<[p := e']> (SceneBuilder.heap s)) s).
Proof.
  intros (Hstack & Hel & Hsp & Hreg) Hch Hprops.
  unfold well_formed. simpl. rewrite length_insert.
  split; [done|]. split; [|split; [|done]].
  - intros r e Hr. destruct (decide (p = r)) as [->|Hne].
    + assert (r < length (SceneBuilder.heap s)) as Hlt.
      { apply lookup_lt_Some in Hr. by rewrite length_insert in Hr. }
      rewrite list_lookup_insert_eq in Hr by done. injection Hr as <-.
      split; [|done]. rewrite Hch.
      apply (Hel r). by apply list_lookup_lookup_total_lt.
    + rewrite list_lookup_insert_ne in Hr by done. by apply Hel.
  - eapply single_parent_ext; [|exact Hsp]. intros r.
    destruct (decide (p = r)) as [->|Hne].
    + destruct (decide (r < length (SceneBuilder.heap s))) as [Hlt|Hge].
      * rewrite list_lookup_insert_eq by done. simpl.
        by rewrite (list_lookup_lookup_total_lt _ _ Hlt), Hch.
      * by rewrite list_insert_ge by lia.
    + by rewrite list_lookup_insert_ne.
Qed.

Lemma well_formed_current (s : State) p :
  well_formed s → last (SceneBuilder._elements s) = Some p →
  p < length (SceneBuilder.heap s)
  ∧ element_ok (length (SceneBuilder.heap s)) p (SceneBuilder.heap s !!! p).
Proof.
  intros (Hstack & Hel & _) Hlast.
  assert (p < length (SceneBuilder.heap s)) as Hp.
  { apply last_Some in Hlast as [front Hfront]. rewrite Hfront in Hstack.
    apply Forall_app in Hstack as [_ Hp]. by rewrite Forall_singleton in Hp. }
  split; [done|]. apply Hel. by apply list_lookup_lookup_total_lt.
Qed.

Lemma define_value_sound name token v :
  sound (λ n, valid n v = true) (λ n o, valid n o = true)
    (define_value name token v).
Proof.
  intros s out s' E Hwf Hv.
  unfold define_value, SceneBuilder._element, SceneBuilder.call,
    SceneBuilder.read, element.define in E.
  run_step in E.
  destruct (datatypes.isinstance_Value v);
    [|injection E as <- <-; split; [done|]; by split].
  destruct (last (SceneBuilder._elements s)) as [p|] eqn:El;
    [|injection E as <- <-; split; [done|]; by split].
  destruct (well_formed_current _ _ Hwf El) as [Hp [Hch Hprops]].
  destruct (element.properties (SceneBuilder.heap s !!! p) !! name);
    simpl in E.
  - rewrite El in E. simpl in E. injection E as <- <-.
    split; [done|]. by split.
  - injection E as <- <-. split; [|split].
    + apply well_formed_rebind; [done..|]. simpl.
      by apply map_Forall_insert_2.
    + simpl. by rewrite length_insert.
    + by intros ? [= <-].
Qed.

Lemma assign_value_sound name token v :
  sound (λ n, valid n v = true) (λ n o, valid n o = true)
    (assign_value name token v).
Proof.
  intros s out s' E Hwf Hv.
  unfold assign_value, SceneBuilder._element, SceneBuilder.call,
    SceneBuilder.read, element.set in E.
  run_step in E.
  destruct (datatypes.isinstance_Value v);
    [|injection E as <- <-; split; [done|]; by split].
  destruct (last (SceneBuilder._elements s)) as [p|] eqn:El;
    [|injection E as <- <-; split; [done|]; by split].
  destruct (well_formed_current _ _ Hwf El) as [Hp [Hch Hprops]].
  destruct (element.properties (SceneBuilder.heap s !!! p) !! name);
    simpl in E.
  - injection E as <- <-. split; [|split].
    + apply well_formed_rebind; [done..|]. simpl.
      by apply map_Forall_insert_2.
    + simpl. by rewrite length_insert.
    + by intros ? [= <-].
  - rewrite El in E. simpl in E. injection E as <- <-.
    split; [done|]. by split.
Qed.

Lemma attached_lookup_new t (s : State) :
  well_formed s →
  SceneBuilder.heap (attached t s) !! length (SceneBuilder.heap s)
  = Some (templates.apply t element.new).
Proof.
  intros (Hstack & _). unfold attached. simpl.
  rewrite list_lookup_alter_eq.
  destruct (last (SceneBuilder._elements s)) as [p|] eqn:El.
  - assert (p < length (SceneBuilder.heap s)) as Hp.
    { apply last_Some in El as [front Hfront]. rewrite Hfront in Hstack.
      apply Forall_app in Hstack as [_ Hp]. by rewrite Forall_singleton in Hp. }
    rewrite list_lookup_alter_ne by lia.
    by rewrite lookup_app_r, Nat.sub_diag by lia.
  - by rewrite lookup_app_r, Nat.sub_diag by lia.
Qed.

(** The children of an element once a new element is attached. *)
Lemma attached_children t (s : State) r e' :
  well_formed s →
  SceneBuilder.heap (attached t s) !! r = Some e' →
  (r = length (SceneBuilder.heap s) ∧ element.children e' = [])
  ∨ ∃ e, SceneBuilder.heap s !! r = Some e
         ∧ element.properties e' = element.properties e
         ∧ element.children e'
           = element.children e
             ++ (if decide (last (SceneBuilder._elements s) = Some r)
                 then [length (SceneBuilder.heap s)] else []).
Proof.
  intros Hwf Hr.
  assert (r < S (length (SceneBuilder.heap s))) as Hlt.
  { apply lookup_lt_Some in Hr. by rewrite attached_length in Hr. }
  destruct (decide (r = length (SceneBuilder.heap s))) as [->|Hne].
  - left. split; [done|]. rewrite attached_lookup_new in Hr by done.
    by injection Hr as <-.
  - right. rewrite attached_lookup in Hr by lia.
    destruct (SceneBuilder.heap s !! r) as [e|]; [|done]. exists e.
    split; [done|]. simpl in Hr. injection Hr as <-.
    case_decide; simpl; [done|]. by rewrite app_nil_r.
Qed.

Lemma well_formed_attached element t (s : State) :
  well_formed s → SceneBuilder.templates s !! element = Some t →
  well_formed (attached t s).
Proof.
  intros Hwf Ht. pose proof Hwf as (Hstack & Hel & Hsp & Hreg).
  unfold well_formed. rewrite attached_length.
  set (n := length (SceneBuilder.heap s)) in *.
  split; [|split; [|split]].
  - simpl. apply Forall_app. split.
    + eapply Forall_impl; [exact Hstack|]. simpl. lia.
    + apply Forall_singleton. fold n. lia.
  - intros r e' Hr.
    destruct (attached_children _ _ _ _ Hwf Hr)
      as [[-> Hch]|(e & He & Hprops & Hch)].
    + rewrite attached_lookup_new in Hr by done. injection Hr as <-.
      split; simpl; [done|].
      intros k v Hkv. apply lookup_union_Some_raw in Hkv as [Hkv|[_ Hkv]].
      * eapply valid_mono; [|by eapply (Hreg element t Ht k v)]. lia.
      * by rewrite lookup_empty in Hkv.
    + destruct (Hel _ _ He) as [Hc Hp]. split.
      * rewrite Hch. apply Forall_app. split.
        -- eapply Forall_impl; [exact Hc|]. simpl. lia.
        -- case_decide as Hlast; [|done]. apply Forall_singleton.
           apply lookup_lt_Some in He. fold n in He. lia.
      * rewrite Hprops. intros k v Hkv.
        eapply valid_mono; [|by eapply Hp]. lia.
  - intros r1 r2 e1 e2 i j c H1 H2 Hi Hj.
    destruct (attached_children _ _ _ _ Hwf H1)
      as [[-> Hch1]|(f1 & F1 & _ & Hch1)];
      [by rewrite Hch1 in Hi|].
    destruct (attached_children _ _ _ _ Hwf H2)
      as [[-> Hch2]|(f2 & F2 & _ & Hch2)];
      [by rewrite Hch2 in Hj|].
    rewrite Hch1 in Hi. rewrite Hch2 in Hj. clear Hch1 Hch2.
    destruct (Hel _ _ F1) as [Hc1 _]. destruct (Hel _ _ F2) as [Hc2 _].
    apply lookup_app_Some in Hi as [Hi|[Hi1 Hi2]];
      apply lookup_app_Some in Hj as [Hj|[Hj1 Hj2]].
    + by eapply (Hsp r1 r2 f1 f2).
    + case_decide as Hlast; [|by rewrite lookup_nil in Hj2].
      apply list_lookup_singleton_Some in Hj2 as [_ <-].
      rewrite Forall_lookup in Hc1. apply Hc1 in Hi. fold n in Hi. lia.
    + case_decide as Hlast; [|by rewrite lookup_nil in Hi2].
      apply list_lookup_singleton_Some in Hi2 as [_ <-].
      rewrite Forall_lookup in Hc2. apply Hc2 in Hj. fold n in Hj. lia.
    + destruct (decide (last (SceneBuilder._elements s) = Some r1))
        as [Hlast1|]; [|by rewrite lookup_nil in Hi2].
      destruct (decide (last (SceneBuilder._elements s) = Some r2))
        as [Hlast2|]; [|by rewrite lookup_nil in Hj2].
      apply list_lookup_singleton_Some in Hi2 as [Hi2 _].
      apply list_lookup_singleton_Some in Hj2 as [Hj2 _].
      assert (r1 = r2) as -> by congruence. split; [done|].
      assert (f1 = f2) as -> by congruence. lia.
  - simpl. intros k t' Hk name v Hv.
    eapply valid_mono; [|by eapply (Hreg k t' Hk name v)]. lia.
Qed.

Lemma well_formed_alloc (s : State) :
  well_formed s →
  well_formed (SceneBuilder.set_heap (SceneBuilder.heap s ++ [element.new]) s).
Proof.
  intros (Hstack & Hel & Hsp & Hreg). unfold well_formed. simpl.
  rewrite length_app. simpl.
  split; [|split; [|split]].
  - eapply Forall_impl; [exact Hstack|]. simpl. lia.
  - intros r e [Hr|[_ Hr]]%lookup_app_Some.
    + eapply element_ok_mono; [|by apply Hel]. lia.
    + apply list_lookup_singleton_Some in Hr as [_ <-]. split; simpl; [done|].
      apply map_Forall_empty.
  - intros r1 r2 e1 e2 i j c [H1|[_ H1]]%lookup_app_Some
      [H2|[_ H2]]%lookup_app_Some Hi Hj.
    + by eapply (Hsp r1 r2 e1 e2).
    + apply list_lookup_singleton_Some in H2 as [_ <-]. simpl in Hj.
      by rewrite lookup_nil in Hj.
    + apply list_lookup_singleton_Some in H1 as [_ <-]. simpl in Hi.
      by rewrite lookup_nil in Hi.
    + apply list_lookup_singleton_Some in H1 as [_ <-]. simpl in Hi.
      by rewrite lookup_nil in Hi.
  - intros k t Hk name v Hv.
    eapply valid_mono; [|by eapply (Hreg k t Hk name v)]. lia.
Qed.

Lemma well_formed_set_elements (s : State) front top :
  well_formed s → SceneBuilder._elements s = front ++ [top] →
  well_formed (SceneBuilder.set_elements front s).
Proof.
  intros (Hstack & Hel & Hsp & Hreg) Hs. rewrite Hs in Hstack.
  apply Forall_app in Hstack as [Hfront _]. by split.
Qed.

Lemma _build_Create_sound element name token (body : M State (list Obj)) :
  sound (λ _, True) (λ n os, forallb (valid n) os = true) body →
  sound (λ _, True) (λ n o, valid n o = true)
    (SceneBuilder._build_Create element name token body).
Proof.
  intros Hbody s out s' E Hwf _.
  destruct (SceneBuilder.templates s !! element) as [t|] eqn:Ht.
  - destruct (truthy name) eqn:Hname.
    + rewrite (_build_Create_named _ _ _ _ _ _ Ht Hname) in E.
      injection E as <- <-. split; [by apply well_formed_alloc|].
      split; [|done]. simpl. rewrite length_app. lia.
    + rewrite (_build_Create_run _ _ _ _ _ _ Ht Hname) in E.
      pose proof (well_formed_attached _ _ _ Hwf Ht) as Hwf1.
      destruct (body (attached t s)) as [[args|ex] s1] eqn:Eb.
      * destruct (Hbody _ _ _ Eb Hwf1 I) as (Hwf2 & Hlen & _).
        rewrite attached_length in Hlen.
        destruct (list_pop (SceneBuilder._elements s1)) as [[front top]|]
          eqn:Epop.
        -- apply list_pop_Some in Epop. injection E as <- <-.
           split; [by eapply well_formed_set_elements|].
           split; [simpl; lia|].
           intros a Ha. case_bool_decide; [|done]. injection Ha as <-.
           simpl. apply bool_decide_eq_true_2. lia.
        -- injection E as <- <-. split; [done|]. split; [lia|done].
      * destruct (Hbody _ _ _ Eb Hwf1 I) as (Hwf2 & Hlen & _).
        rewrite attached_length in Hlen. injection E as <- <-.
        split; [done|]. split; [lia|done].
  - rewrite (_build_Create_undefined _ _ _ _ _ Ht) in E.
    injection E as <- <-. split; [done|]. by split.
Qed.

Lemma _build_Name_sound name children token :
  sound (λ _, True) (λ n o, valid n o = true)
    (SceneBuilder._build_Name (scalar:=scalar) (func:=func)
       name children token).
Proof.
  intros s out s' E Hwf _. unfold SceneBuilder._build_Name in E.
  run_step in E. unfold SceneBuilder.gets in E.
  case_bool_decide; [|injection E as <- <-; split; [done|]; by split].
  simpl in E. rewrite _build_Name_scan_find in E. injection E as <- <-.
  split; [done|]. split; [done|]. intros a Ha.
  destruct (find _ _) as [e|] eqn:Efind; [|done]. injection Ha as <-.
  apply find_some in Efind as [Hin _]. simpl.
  apply bool_decide_eq_true_2. destruct Hwf as (Hstack & _).
  rewrite Forall_forall in Hstack. apply Hstack.
  apply list_elem_of_In in Hin. by rewrite elem_of_reverse in Hin.
Qed.

Lemma lasting_True : lasting (λ _, True).
Proof. done. Qed.

(** Every visitor keeps the state well-formed, and what it returns names
    only elements that exist. *)
Lemma _build_sound :
  (∀ node, sound (λ _, True) (λ n o, valid n o = true) (_build node))
  ∧ (∀ children, sound (λ _, True) (λ n os, forallb (valid n) os = true)
                   (_build_children children)).
Proof.
  apply _build_visitors_ind.
  - apply sound_raise.
  - apply _build_Create_sound.
  - apply sound_raise.
  - intros name tok value Hvalue. destruct name; try apply sound_raise.
    rewrite _build_Define_eq.
    eapply sound_bind; [apply lasting_True|exact Hvalue|]. intros v.
    eapply sound_weaken; [| |apply define_value_sound]; simpl; [|done].
    by intros n [_ ?].
  - intros name tok value Hvalue. destruct name; try apply sound_raise.
    rewrite _build_Assign_eq.
    eapply sound_bind; [apply lasting_True|exact Hvalue|]. intros v.
    eapply sound_weaken; [| |apply assign_value_sound]; simpl; [|done].
    by intros n [_ ?].
  - intros op operand Hoperand. unfold SceneBuilder._build_UnaryOp.
    eapply sound_bind; [apply lasting_True|exact Hoperand|]. intros v.
    apply sound_ret. by intros n [_ ?].
  - intros op lhs rhs Hlhs Hrhs. unfold SceneBuilder._build_BinOp.
    eapply sound_bind; [apply lasting_True|exact Hlhs|]. intros l.
    eapply (sound_bind _ (λ n o, valid n o = true)).
    + intros n n' Hn [_ Hl]. split; [done|]. by eapply valid_mono.
    + eapply sound_weaken; [| |exact Hrhs]; simpl; done.
    + intros r. apply sound_ret. intros n [[_ Hl] Hr]. simpl.
      by rewrite Hl, Hr.
  - intros value unit children token s out s' E Hwf _.
    unfold SceneBuilder._build_Number, SceneBuilder._fail in E.
    run_step in E.
    assert (s' = s ∧ ∀ a, out = Return a → valid (length (SceneBuilder.heap s)) a = true)
      as [-> Hout]; [|by split].
    case_bool_decide; [|by injection E as <- <-].
    simpl in E. destruct unit as [u|]; [|injection E as <- <-; split; [done|]; by intros ? [= <-]].
    repeat case_bool_decide; injection E as <- <-; (split; [done|]);
      by intros ? [= <-].
  - intros string children s out s' E Hwf _.
    unfold SceneBuilder._build_String in E. run_step in E.
    case_bool_decide; injection E as <- <-; (split; [done|]; split; [done|]);
      [|done].
    by intros a [= <-].
  - intros name body Hbody. unfold SceneBuilder._build_Call.
    eapply sound_bind; [apply lasting_True|exact Hbody|]. intros args.
    destruct (functions !! name); [|apply sound_raise].
    apply sound_ret. by intros n [_ ?].
  - apply _build_Name_sound.
  - by apply sound_ret.
  - intros m ms Hm Hms.
    eapply sound_bind; [apply lasting_True|exact Hm|]. intros built.
    eapply (sound_bind _ (λ n os, forallb (valid n) os = true)).
    + intros n n' Hn [_ Hb]. split; [done|]. by eapply valid_mono.
    + eapply sound_weaken; [| |exact Hms]; simpl; done.
    + intros rest. apply sound_ret. intros n [[_ Hb] Hr]. simpl.
      by rewrite Hb, Hr.
Qed.

(** X6. The visitors keep the store the forest it was.  Started in a state
    where the scope stack, the property tables and the registry name only
    elements that exist, every element lists only children created after
    it, and no element is listed as a child twice, a visit ends in such a
    state again, whether it returns or raises; it removes no element; and
    the value it returns names only elements that exist. *)
Theorem _build_keeps_the_store_a_forest (node : Node) (s : State) :
  well_formed s →
  well_formed (_build node s).2
  ∧ length (SceneBuilder.heap s) ≤ length (SceneBuilder.heap (_build node s).2)
  ∧ ∀ v, (_build node s).1 = Return v →
         valid (length (SceneBuilder.heap (_build node s).2)) v = true.
Proof.
  intros Hwf. destruct _build_sound as [Hsound _].
  destruct (_build node s) as [out s'] eqn:E.
  by apply (Hsound node s out s' E Hwf).
Qed.

Lemma closed_valid n (o : Obj) : closed o = true → valid n o = true.
Proof.
  revert o.
  apply (datatypes.Obj_args_ind (λ o, closed o = true → valid n o = true));
    simpl.
  - by repeat split.
  - done.
  - intros op l r IHl IHr [H1 H2]%andb_true_iff. by rewrite IHl, IHr.
  - intros f args IH Hargs. apply forallb_forall. intros o Ho.
    rewrite Forall_forall in IH. apply IH; [by apply list_elem_of_In|].
    rewrite forallb_forall in Hargs. by apply Hargs.
Qed.

Lemma well_formed_reset (s : State) :
  Forall closed_Template list_templates →
  well_formed s → well_formed (reset s).
Proof.
  intros Hclosed (_ & Hel & Hsp & _). split; [done|]. split; [done|].
  split; [done|]. simpl. intros k t Hk name v Hv.
  apply closed_valid.
  by apply (builtin_registry_closed Hclosed k t Hk name v).
Qed.

(** ** The tree under the scene *)

Lemma parent_of_grows (s s' : State) r p i :
  grows s s' → parent_of s r p i → parent_of s' r p i.
Proof.
  intros (_ & Hlen & Hold) (e & He & Hi).
  pose proof (lookup_lt_Some _ _ _ He) as Hp.
  destruct (Hold p Hp) as [_ Hpre].
  rewrite (list_lookup_total_correct _ _ _ He) in Hpre.
  exists (SceneBuilder.heap s' !!! p). split.
  - apply list_lookup_lookup_total_lt. lia.
  - by eapply prefix_lookup_Some.
Qed.

Lemma counted_adopting {A} (m : M State A) : counted m → adopting m.
Proof. intros Hm s a s' E _ _ r. rewrite (Hm _ _ _ E). lia. Qed.

Lemma counted_ret {A} (a : A) : counted (ret (S:=State) a).
Proof. by intros s out s' [= <- <-]. Qed.

Lemma counted_raise {A} ex : counted (raise (S:=State) (A:=A) ex).
Proof. by intros s out s' [= <- <-]. Qed.

Lemma define_value_counted name token v : counted (define_value name token v).
Proof.
  intros s out s' E.
  unfold define_value, SceneBuilder._element, SceneBuilder.call,
    SceneBuilder.read, element.define in E.
  run_step in E.
  destruct (datatypes.isinstance_Value v); [|by injection E as <- <-].
  destruct (last (SceneBuilder._elements s)) as [p|] eqn:El;
    [|by injection E as <- <-].
  destruct (element.properties (SceneBuilder.heap s !!! p) !! name);
    simpl in E.
  - rewrite El in E. simpl in E. by injection E as <- <-.
  - injection E as <- <-. simpl. by rewrite length_insert.
Qed.

Lemma assign_value_counted name token v : counted (assign_value name token v).
Proof.
  intros s out s' E.
  unfold assign_value, SceneBuilder._element, SceneBuilder.call,
    SceneBuilder.read, element.set in E.
  run_step in E.
  destruct (datatypes.isinstance_Value v); [|by injection E as <- <-].
  destruct (last (SceneBuilder._elements s)) as [p|] eqn:El;
    [|by injection E as <- <-].
  destruct (element.properties (SceneBuilder.heap s !!! p) !! name);
    simpl in E.
  - injection E as <- <-. simpl. by rewrite length_insert.
  - rewrite El in E. simpl in E. by injection E as <- <-.
Qed.

Lemma adopting_bind {A B} (m : M State A) (k : A → M State B) :
  visit_ok m → sound (λ _, True) (λ _ _, True) m → adopting m →
  (∀ a, visit_ok (k a)) → (∀ a, adopting (k a)) →
  adopting (bind m k).
Proof.
  intros Hvm Hsm Ham Hvk Hak s b s' E Hwf Hstack r Hr. unfold bind in E.
  destruct (m s) as [[a|ex] s1] eqn:Em; [|done].
  destruct (Hvm _ _ _ Em) as [Hg1 Hst1]. specialize (Hst1 I).
  destruct (Hsm _ _ _ Em Hwf I) as (Hwf1 & Hlen1 & _).
  destruct (Hvk a _ _ _ E) as [Hg2 _].
  destruct (decide (r < length (SceneBuilder.heap s1))) as [Hlt|Hge].
  - destruct (Ham _ _ _ Em Hwf Hstack r) as (p & i & Hp); [lia|].
    exists p, i. by eapply parent_of_grows.
  - apply (Hak a _ _ _ E Hwf1); [by rewrite Hst1|lia].
Qed.

Lemma sound_trivial {A} (ok : nat → A → Prop) (m : M State A) :
  sound (λ _, True) ok m → sound (λ _, True) (λ _ _, True) m.
Proof. intros H. eapply sound_weaken; [| |exact H]; done. Qed.

(** A [Create] that returns: the element it made is a child of the element
    on top of the stack, if there is one, and every element made under it
    is a child of some element. *)
Lemma _build_Create_adopts element name token (body : M State (list Obj))
    s a s' :
  visit_ok body → adopting body →
  sound (λ _, True) (λ _ _, True) body →
  SceneBuilder._build_Create element name token body s = (Return a, s') →
  well_formed s →
  a = datatypes.ElementRef (length (SceneBuilder.heap s))
  ∧ length (SceneBuilder.heap s) < length (SceneBuilder.heap s')
  ∧ (∀ r, length (SceneBuilder.heap s) < r < length (SceneBuilder.heap s') →
          ∃ p i, parent_of s' r p i)
  ∧ (∀ p, last (SceneBuilder._elements s) = Some p →
          ∃ i, parent_of s' (length (SceneBuilder.heap s)) p i).
Proof.
  intros Hv Ha Hs E Hwf.
  destruct (SceneBuilder.templates s !! element) as [t|] eqn:Ht;
    [|by rewrite (_build_Create_undefined _ _ _ _ _ Ht) in E].
  destruct (truthy name) eqn:Hname;
    [by rewrite (_build_Create_named _ _ _ _ _ _ Ht Hname) in E|].
  rewrite (_build_Create_run _ _ _ _ _ _ Ht Hname) in E.
  pose proof (well_formed_attached _ _ _ Hwf Ht) as Hwf1.
  destruct (body (attached t s)) as [[args|ex] s1] eqn:Eb; [|done].
  destruct (Hs _ _ _ Eb Hwf1 I) as (_ & Hlen & _).
  destruct (Hv _ _ _ Eb) as [Hg _].
  rewrite attached_length in Hlen.
  destruct (list_pop (SceneBuilder._elements s1)) as [[front top]|]; [|done].
  case_bool_decide; [|done]. injection E as <- <-. simpl.
  split; [done|]. split; [lia|]. split.
  - intros r Hr.
    destruct (Ha _ _ _ Eb Hwf1) with (r := r) as (p & i & e & He & Hi).
    + simpl. by intros [_ ?]%app_eq_nil.
    + rewrite attached_length. lia.
    + by exists p, i, e.
  - intros p Hp.
    destruct (well_formed_current _ _ Hwf Hp) as [Hlt _].
    assert (parent_of (attached t s) (length (SceneBuilder.heap s)) p
              (length (element.children (SceneBuilder.heap s !!! p))))
      as Hparent.
    { exists (element.add (length (SceneBuilder.heap s))
                (SceneBuilder.heap s !!! p)). split.
      - rewrite attached_lookup by done. rewrite decide_True by done.
        by rewrite (list_lookup_lookup_total_lt _ _ Hlt).
      - simpl. by rewrite lookup_app_r, Nat.sub_diag by lia. }
    destruct (parent_of_grows _ _ _ _ _ Hg Hparent) as (e & He & Hi).
    by exists (length (element.children (SceneBuilder.heap s !!! p))), e.
Qed.

Lemma _build_children_adopting children :
  Forall (λ node, adopting (_build node)) children →
  adopting (_build_children children).
Proof.
  induction 1 as [|child children Hchild _ IH]; simpl.
  - apply counted_adopting, counted_ret.
  - apply adopting_bind; [apply _build_visit_ok| |done| |].
    + eapply sound_trivial, _build_sound.
    + intros built. apply visit_ok_bind.
      * apply _build_children_visit_ok, Forall_forall. intros.
        apply _build_visit_ok.
      * intros rest. apply quiet_visit_ok, quiet_ret.
    + intros built. apply adopting_bind.
      * apply _build_children_visit_ok, Forall_forall. intros.
        apply _build_visit_ok.
      * eapply sound_trivial, _build_sound.
      * done.
      * intros rest. apply quiet_visit_ok, quiet_ret.
      * intros rest. apply counted_adopting, counted_ret.
Qed.

Lemma expression_counted (node : Node) :
  expression node = true → counted (_build node).
Proof.
  intros Hnode s out s' E.
  pose proof (_build_expression_pure node Hnode s) as Hpure.
  rewrite E in Hpure. simpl in Hpure. by subst s'.
Qed.

Lemma _build_adopting (node : Node) : adopting (_build node).
Proof.
  induction node as [node IH] using parser.Node_children_ind.
  destruct node as [element name children token| | children token
                   | children token | op children token | op children token
                   | value unit children token | string children token
                   | name children token | name children token];
    simpl in IH.
  - intros s a s' E Hwf Hstack r Hr. rewrite _build_Create_eq in E.
    eapply _build_Create_adopts in E as (_ & _ & Hnew & Hroot); [|..|done].
    + destruct (decide (r = length (SceneBuilder.heap s))) as [->|Hne].
      * destruct (last (SceneBuilder._elements s)) as [p|] eqn:El.
        -- destruct (Hroot p eq_refl) as [i Hi]. by exists p, i.
        -- by apply last_None in El.
      * apply Hnew. lia.
    + apply _build_children_visit_ok, Forall_forall. intros.
      apply _build_visit_ok.
    + by apply _build_children_adopting.
    + eapply sound_trivial, _build_sound.
  - apply counted_adopting, counted_raise.
  - destruct children as [|name [|value [|? ?]]];
      try apply counted_adopting, counted_raise.
    apply Forall_cons_1 in IH as [_ IH]. apply Forall_cons_1 in IH as [IH _].
    simpl. destruct name; try apply counted_adopting, counted_raise.
    rewrite _build_Define_eq.
    apply adopting_bind; [apply _build_visit_ok| |done| |].
    + eapply sound_trivial, _build_sound.
    + intros v. apply quiet_visit_ok, define_value_quiet.
    + intros v. apply counted_adopting, define_value_counted.
  - destruct children as [|name [|value [|? ?]]];
      try apply counted_adopting, counted_raise.
    apply Forall_cons_1 in IH as [_ IH]. apply Forall_cons_1 in IH as [IH _].
    simpl. destruct name; try apply counted_adopting, counted_raise.
    rewrite _build_Assign_eq.
    apply adopting_bind; [apply _build_visit_ok| |done| |].
    + eapply sound_trivial, _build_sound.
    + intros v. apply quiet_visit_ok, assign_value_quiet.
    + intros v. apply counted_adopting, assign_value_counted.
  - destruct children as [|operand [|? ?]];
      try apply counted_adopting, counted_raise.
    apply Forall_cons_1 in IH as [IH _]. simpl.
    apply adopting_bind; [apply _build_visit_ok| |done| |].
    + eapply sound_trivial, _build_sound.
    + intros v. apply quiet_visit_ok, quiet_ret.
    + intros v. apply counted_adopting, counted_ret.
  - destruct children as [|lhs [|rhs [|? ?]]];
      try apply counted_adopting, counted_raise.
    apply Forall_cons_1 in IH as [IHl IH]. apply Forall_cons_1 in IH as [IHr _].
    simpl. apply adopting_bind; [apply _build_visit_ok| |done| |].
    + eapply sound_trivial, _build_sound.
    + intros l. apply visit_ok_bind; [apply _build_visit_ok|].
      intros r. apply quiet_visit_ok, quiet_ret.
    + intros l. apply adopting_bind; [apply _build_visit_ok| |done| |].
      * eapply sound_trivial, _build_sound.
      * intros r. apply quiet_visit_ok, quiet_ret.
      * intros r. apply counted_adopting, counted_ret.
  - by apply counted_adopting, expression_counted.
  - by apply counted_adopting, expression_counted.
  - rewrite _build_Call_eq. unfold SceneBuilder._build_Call.
    apply adopting_bind.
    + apply _build_children_visit_ok, Forall_forall. intros.
      apply _build_visit_ok.
    + eapply sound_trivial, _build_sound.
    + by apply _build_children_adopting.
    + intros args. apply quiet_visit_ok.
      destruct (functions !! name); [apply quiet_ret|apply quiet_raise].
    + intros args. apply counted_adopting.
      destruct (functions !! name); [apply counted_ret|apply counted_raise].
  - by apply counted_adopting, expression_counted.
Qed.

Lemma build_Return (scene : Node) (s s' : State) root :
  build scene s = (Return root, s') →
  ∃ name children token,
    scene = parser.Create "Scene" name children token
    ∧ _build scene (reset s) = (Return root, s').
Proof.
  intros E. destruct scene as [element name children token| | | | | | | | |];
    try done.
  destruct (decide (element = "Scene")) as [->|Hne].
  - exists name, children, token. split; [done|].
    rewrite build_Scene in E. unfold build_scene in E. run_step in E.
    destruct (_build _ (reset s)) as [[v|ex] s1]; [|done].
    destruct (datatypes.isinstance_Element v); [|done].
    destruct v; try done. unfold SceneBuilder.read in E.
    case_bool_decide; [|done]. by injection E as <- <-.
  - unfold SceneBuilder.build in E. run_step in E.
    by rewrite bool_decide_eq_false_2 in E.
Qed.

(** X7. A build that returns has made a tree under the scene.  In a
    well-formed state and with templates whose defaults name no element,
    the root is the first element the build created; every other element it
    created is the child of exactly one element, listed there exactly once,
    and that parent was created by the same build, before the child; no
    element lists the root as a child; and the elements that were there
    before are as they were. *)
Theorem build_makes_a_tree (scene : Node) (s s' : State) root :
  Forall closed_Template list_templates →
  well_formed s →
  build scene s = (Return root, s') →
  root = datatypes.ElementRef (length (SceneBuilder.heap s))
  ∧ length (SceneBuilder.heap s) < length (SceneBuilder.heap s')
  ∧ (∀ r, length (SceneBuilder.heap s) < r < length (SceneBuilder.heap s') →
          ∃ p i, length (SceneBuilder.heap s) ≤ p < r
                 ∧ parent_of s' r p i
                 ∧ ∀ p' i', parent_of s' r p' i' → p' = p ∧ i' = i)
  ∧ (∀ p i, ¬ parent_of s' (length (SceneBuilder.heap s)) p i)
  ∧ (∀ r, r < length (SceneBuilder.heap s) →
          SceneBuilder.heap s' !! r = SceneBuilder.heap s !! r).
Proof.
  intros Hclosed Hwf E.
  apply build_Return in E as (name & children & token & -> & E).
  pose proof (well_formed_reset _ Hclosed Hwf) as Hwf0.
  destruct _build_sound as [Hsound _].
  destruct (Hsound _ _ _ _ E Hwf0 I) as ((_ & Hel & Hsp & _) & _ & _).
  destruct (_build_visit_ok _ _ _ _ E) as [(_ & _ & Hold) _].
  assert (∀ r, r < length (SceneBuilder.heap s) →
            SceneBuilder.heap s' !! r = SceneBuilder.heap s !! r) as Hsame.
  { intros r Hr. by destruct (Hold r Hr) as [-> _]. }
  assert (∀ r p i, length (SceneBuilder.heap s) ≤ r → parent_of s' r p i →
            length (SceneBuilder.heap s) ≤ p < r) as Hnew.
  { intros r p i Hr (e & He & Hi). split.
    - destruct (decide (p < length (SceneBuilder.heap s))) as [Hlt|]; [|lia].
      rewrite Hsame in He by done.
      destruct Hwf as (_ & Hel0 & _). destruct (Hel0 _ _ He) as [Hc _].
      rewrite Forall_lookup in Hc. apply Hc in Hi. lia.
    - destruct (Hel _ _ He) as [Hc _].
      rewrite Forall_lookup in Hc. apply Hc in Hi. lia. }
  rewrite _build_Create_eq in E.
  eapply _build_Create_adopts in E as (-> & Hlen & Hchild & _); [|..|done].
  - simpl in *. split; [done|]. split; [done|]. split; [|split; [|done]].
    + intros r Hr. destruct (Hchild r Hr) as (p & i & Hp). exists p, i.
      split; [apply (Hnew r p i); [lia|done]|]. split; [done|].
      intros p' i' (e' & He' & Hi'). destruct Hp as (e & He & Hi).
      destruct (Hsp p' p e' e i' i r He' He Hi' Hi). by split.
    + intros p i Hp. apply Hnew in Hp; lia.
  - apply _build_children_visit_ok, Forall_forall. intros.
    apply _build_visit_ok.
  - apply _build_children_adopting, Forall_forall. intros.
    apply _build_adopting.
  - eapply sound_trivial, _build_sound.
Qed.

(** ** Definitions *)

Lemma append_nil_r (s : string) : s +:+ "" = s.
Proof.
  induction s as [|c s IH]; [done|].
  change (String c s +:+ "") with (String c (s +:+ "")). by rewrite IH.
Qed.

Lemma _create_error_located message token :
  SceneBuilder._create_error message None token
  = SceneBuilderError (message +:+ located token).
Proof.
  destruct token as [tok|]; simpl; [|by rewrite append_nil_r].
  by destruct (parser.span tok) as [[bl bc] [el ec]].
Qed.

(** X8. A [Define] whose value builds to a [Value] adds the binding to the
    table of the element on top of the scope stack when that table lacks
    the name, and touches no other element.  When the table has the name
    already, be it from the template or from an earlier [Define], it
    changes nothing and raises the [SceneBuilderError] that [_create_error]
    makes for the token of the [Define]: its message is the text of the
    exception [Element.define] raised, then [" in "] and the kind of the
    element, and then, when the [Define] has a token, the span of the
    token. *)
Theorem Define_declares_once
    name nchildren ntoken value_node token (s s1 : State) value front top :
  _build value_node s = (Return value, s1) →
  datatypes.isinstance_Value value = true →
  SceneBuilder._elements s = front ++ [top] →
  top < length (SceneBuilder.heap s1) →
  ∃ out s',
    _build (parser.Define [parser.Name name nchildren ntoken; value_node] token) s
    = (out, s')
    ∧ match element.properties (SceneBuilder.heap s1 !!! top) !! name with
      | None =>
          out = Return datatypes.PyNone
          ∧ element.properties (SceneBuilder.heap s' !!! top)
            = <[name := value]>
                (element.properties (SceneBuilder.heap s1 !!! top))
          ∧ element.children (SceneBuilder.heap s' !!! top)
            = element.children (SceneBuilder.heap s1 !!! top)
          ∧ ∀ r, r ≠ top → SceneBuilder.heap s' !! r = SceneBuilder.heap s1 !! r
      | Some _ =>
          (∃ ex,
             element.define name value (SceneBuilder.heap s1 !!! top)
             = Raise ex
             ∧ out = Raise (SceneBuilder._create_error
                              (str_exn ex +:+ " in "
                                 +:+ element.type_name
                                       (SceneBuilder.heap s1 !!! top))
                              None token)
             ∧ out = Raise (SceneBuilderError
                              ((str_exn ex +:+ " in "
                                  +:+ element.type_name
                                        (SceneBuilder.heap s1 !!! top))
                                 +:+ located token)))
          ∧ s' = s1
      end.
Proof.
  intros Ev Hval Hstack Htop.
  destruct (_build_visit_ok value_node _ _ _ Ev) as [_ Hst].
  specialize (Hst I). rewrite Hstack in Hst.
  simpl. unfold SceneBuilder._build_Define, SceneBuilder._element,
    SceneBuilder.call, SceneBuilder.read.
  run_step. rewrite Ev, Hval, Hst, last_snoc.
  unfold element.define.
  destruct (element.properties (SceneBuilder.heap s1 !!! top) !! name)
    as [old|] eqn:Eprop.
  - simpl. rewrite Hst, last_snoc. eexists _, _. split; [done|].
    split; [|done]. eexists. split; [done|]. split; [done|].
    by rewrite _create_error_located.
  - eexists _, _. split; [done|]. simpl.
    rewrite list_lookup_total_insert_eq by done. simpl.
    repeat split; try done.
    intros r Hr. by rewrite list_lookup_insert_ne.
Qed.

(** ** The registry and the scope stack of the interpreter *)

Lemma inert_keeping {A} (m : M IState A) : inert m → keeping m.
Proof. intros H s out s' E. destruct (H _ _ _ E) as [-> ->]. done. Qed.

Lemma inert_ret {A} (a : A) : inert (ret (S:=IState) a).
Proof. by intros s out s' [= <- <-]. Qed.

Lemma inert_raise {A} ex : inert (raise (S:=IState) (A:=A) ex).
Proof. by intros s out s' [= <- <-]. Qed.

Lemma inert_assert b : inert (assert (S:=IState) b).
Proof. destruct b; [apply inert_ret|apply inert_raise]. Qed.

Lemma inert_bind {A B} (m : M IState A) (k : A → M IState B) :
  inert m → (∀ a, inert (k a)) → inert (bind m k).
Proof.
  intros Hm Hk s out s' E. unfold bind in E.
  destruct (m s) as [[a|ex] s1] eqn:Em.
  - destruct (Hm _ _ _ Em) as [<- <-]. by eapply Hk.
  - injection E as <- <-. by eapply Hm.
Qed.

Lemma keeping_bind {A B} (m : M IState A) (k : A → M IState B) :
  keeping m → (∀ a, keeping (k a)) → keeping (bind m k).
Proof.
  intros Hm Hk s out s' E. unfold bind in E.
  destruct (m s) as [[a|ex] s1] eqn:Em.
  - destruct (Hm _ _ _ Em) as [Ht1 Hs1]. destruct (Hk _ _ _ _ E) as [Ht2 Hs2].
    split; by etrans.
  - injection E as <- <-. by eapply Hm.
Qed.

Lemma inert_construct e : inert (Interpreter.construct e).
Proof. by intros s out s' [= <- <-]. Qed.

Lemma inert_update id f : inert (Interpreter.update id f).
Proof. by intros s out s' [= <- <-]. Qed.

Lemma inert_gets {A} (f : IState → A) : inert (Interpreter.gets f).
Proof. by intros s out s' [= <- <-]. Qed.

Lemma inert_apply source element :
  inert (Interpreter.apply Element_apply source element).
Proof.
  intros s out s' E. unfold Interpreter.apply in E.
  destruct (Element_apply _ _ _) as [[[]|?] ?]; by injection E as <- <-.
Qed.

Lemma inert__apply_template t element :
  inert (Interpreter._apply_template Element_apply t element).
Proof.
  destruct t; simpl; [|apply inert_apply].
  apply inert_bind; [apply inert_construct|]. intros. apply inert_apply.
Qed.

Lemma inert__instantiate_template t :
  inert (Interpreter._instantiate_template Element_apply t).
Proof.
  apply inert_bind; [apply inert_construct|]. intros.
  apply inert__apply_template.
Qed.

Lemma inert__get_template name token :
  inert (Interpreter._get_template name token).
Proof.
  intros s out s' E. unfold Interpreter._get_template in E.
  destruct (_ !! _); by injection E as <- <-.
Qed.

Lemma inert_attach element child : inert (Interpreter.attach element child).
Proof.
  destruct child; simpl;
    [apply inert_ret|apply inert_raise..|apply inert_update].
Qed.

Lemma inert__interpret_Assign name value :
  inert (Interpreter._interpret_Assign Element_set name value).
Proof.
  apply inert_bind; [|intros self].
  { intros s out s' E. unfold Interpreter._element in E.
    destruct (last _); by injection E as <- <-. }
  apply inert_bind; [|intros; apply inert_ret].
  intros s out s' E. unfold Interpreter.call in E.
  destruct (Element_set _ _ _); by injection E as <- <-.
Qed.

Lemma keeping__push_element {A} element (body : M IState A) :
  balanced body → keeping body →
  keeping (Interpreter._push_element element body).
Proof.
  intros Hb Hk s out s' E.
  unfold Interpreter._push_element, Interpreter.modify in E. run_step in E.
  destruct (body _) as [[b|ex] s1] eqn:Eb.
  - pose proof (Hb _ _ _ Eb) as Hst. destruct (Hk _ _ _ Eb) as [Ht _].
    simpl in Hst, Ht. rewrite Hst, list_pop_snoc in E.
    case_bool_decide; injection E as <- <-; by split.
  - injection E as <- <-. destruct (Hk _ _ _ Eb) as [Ht Hs]. simpl in Ht, Hs.
    split; [done|]. etrans; [|exact Hs]. by apply prefix_app_r.
Qed.

Lemma children_loop_keeping children element :
  Forall (λ node, keeping (_interpret node)) children →
  keeping (children_loop children element).
Proof.
  induction 1 as [|child children Hchild _ IH]; simpl.
  - apply inert_keeping, inert_ret.
  - apply keeping_bind; [done|]. intros built.
    apply keeping_bind; [apply inert_keeping, inert_attach|done].
Qed.

Lemma _interpret_keeping node : keeping (_interpret node).
Proof.
  induction node as [node IH] using parser.Node_children_ind.
  destruct node as [element name children token
                   | name inherit children token | | children token
                   | | | | | | ]; simpl in IH;
    try (apply inert_keeping, inert_raise).
  - rewrite _interpret_Create_eq.
    apply keeping_bind; [apply inert_keeping, inert__get_template|].
    intros t. apply keeping_bind;
      [apply inert_keeping, inert__instantiate_template|].
    intros new. destruct (truthy name); [apply inert_keeping, inert_raise|].
    apply keeping_bind; [|intros; apply inert_keeping, inert_ret].
    apply keeping__push_element.
    + apply children_loop_balanced, Forall_forall. intros.
      apply _interpret_balanced.
    + by apply children_loop_keeping.
  - rewrite _interpret_Template_eq. intros s out s' E.
    unfold Interpreter._interpret_Template in E.
    unfold Interpreter.construct at 1, Interpreter.update at 1,
      Interpreter.gets, Interpreter._fail in E.
    run_step in E. simpl in E.
    destruct (Interpreter.templates s !! name) as [t|] eqn:Ht.
    { rewrite bool_decide_eq_true_2 in E by eauto. by injection E as <- <-. }
    rewrite bool_decide_eq_false_2 in E by (by intros [? ?]).
    match type of E with
    | match ?m ?s0 with _ => _ end = _ =>
        assert (inert m) as Hbase; [|destruct (m s0) as [[[]|ex] s1] eqn:E1]
    end.
    { destruct inherit; [|apply inert_ret].
      apply inert_bind; [apply inert__get_template|]. intros.
      apply inert_bind; [apply inert__apply_template|]. intros.
      apply inert_ret. }
    2:{ injection E as <- <-. destruct (Hbase _ _ _ E1) as [-> ->]. done. }
    destruct (Hbase _ _ _ E1) as [Ht1 Hs1]. simpl in Ht1, Hs1.
    match type of E with
    | match ?m s1 with _ => _ end = _ =>
        assert (keeping m) as Hbody; [|destruct (m s1) as [[[]|ex] s2] eqn:E2]
    end.
    { apply keeping__push_element.
      - apply children_loop_balanced, Forall_forall. intros.
        apply _interpret_balanced.
      - by apply children_loop_keeping. }
    + destruct (Hbody _ _ _ E2) as [Ht2 Hs2]. rewrite Ht1 in Ht2.
      rewrite Hs1 in Hs2. unfold Interpreter.modify in E.
      injection E as <- <-. simpl. split; [|done].
      by apply insert_subseteq_r.
    + destruct (Hbody _ _ _ E2) as [Ht2 Hs2]. rewrite Ht1 in Ht2.
      rewrite Hs1 in Hs2. by injection E as <- <-.
  - destruct children as [|n [|v [|? ?]]].
    + apply inert_keeping, inert_raise.
    + apply keeping_bind; [|intros; apply inert_keeping, inert_raise].
      by apply Forall_cons_1 in IH as [IH _].
    + apply Forall_cons_1 in IH as [IHn IH].
      apply Forall_cons_1 in IH as [IHv _].
      apply keeping_bind; [done|]. intros.
      apply keeping_bind; [done|]. intros.
      apply inert_keeping, inert__interpret_Assign.
    + apply Forall_cons_1 in IH as [IHn IH].
      apply Forall_cons_1 in IH as [IHv IH].
      apply Forall_cons_1 in IH as [IHe _].
      apply keeping_bind; [done|]. intros.
      apply keeping_bind; [done|]. intros.
      apply keeping_bind; [done|]. intros.
      apply inert_keeping, inert_raise.
  - apply inert_keeping.
    apply inert_bind; [apply inert_assert|intros; apply inert_ret].
  - apply inert_keeping.
    apply inert_bind; [apply inert_assert|intros; apply inert_ret].
  - apply inert_keeping.
    apply inert_bind; [apply inert_assert|intros; apply inert_ret].
Qed.

(** X9. A visit of the interpreter keeps every entry the registry had when
    it started, with the template it had: a declaration can add a name but
    never replace one that was there.  It keeps the frames of the scope
    stack it was given, also when it raises, and gives the stack back
    exactly when it returns. *)
Theorem _interpret_keeps_registry_and_stack (node : Node) (s : IState) :
  Interpreter.templates s ⊆ Interpreter.templates (_interpret node s).2
  ∧ Interpreter._elements s
    `prefix_of` Interpreter._elements (_interpret node s).2
  ∧ (is_Return (_interpret node s).1 →
     Interpreter._elements (_interpret node s).2 = Interpreter._elements s).
Proof.
  destruct (_interpret node s) as [out s'] eqn:E. simpl.
  destruct (_interpret_keeping node _ _ _ E) as [Ht Hs].
  split; [done|]. split; [done|].
  destruct out as [v|]; [|done]. intros _.
  by apply (_interpret_balanced node _ _ _ E).
Qed.

(** X10. However [interpret] ends on a scene, the registry it leaves still
    maps the name of every class of [elements] to that class: no scene can
    replace a built-in template.  And when it returns, the scope stack it
    leaves is empty. *)
Theorem interpret_keeps_the_classes name children token (s : IState) :
  Interpreter.Class <$> internal_templates
  ⊆ Interpreter.templates
      (interpret (parser.Create "Scene" name children token) s).2
  ∧ (is_Return (interpret (parser.Create "Scene" name children token) s).1 →
     Interpreter._elements
       (interpret (parser.Create "Scene" name children token) s).2 = []).
Proof.
  unfold Interpreter.interpret, Interpreter.modify, Interpreter.read.
  run_step. rewrite bool_decide_eq_true_2 by done.
  match goal with
  | |- context [ _interpret ?node ?s0 ] =>
      destruct (_interpret node s0) as [[v|ex] s1] eqn:E
  end.
  - destruct (_interpret_keeping _ _ _ _ E) as [Ht _].
    pose proof (_interpret_balanced _ _ _ _ E) as Hs. simpl in Ht, Hs.
    destruct v; simpl; try done.
    by destruct (_ || _).
  - destruct (_interpret_keeping _ _ _ _ E) as [Ht _]. simpl in Ht.
    split; [done|]. by intros [].
Qed.

(** ** What the interpreter returns *)

Lemma bind_Return {S A B} (m : M S A) (k : A → M S B) s b s' :
  bind m k s = (Return b, s') →
  ∃ a s1, m s = (Return a, s1) ∧ k a s1 = (Return b, s').
Proof.
  unfold bind. destruct (m s) as [[a|ex] s1]; [|done]. by exists a, s1.
Qed.

Lemma _push_element_Return {A} element (body : M IState A) s a s' :
  Interpreter._push_element element body s = (Return a, s') →
  ∃ s1, body (Interpreter.set_elements
                (Interpreter._elements s ++ [element]) s)
        = (Return a, s1).
Proof.
  unfold Interpreter._push_element, Interpreter.modify. run_step.
  destruct (body _) as [[b|ex] s1]; [|done]. intros E. exists s1.
  destruct (list_pop _) as [[front top]|]; [|done].
  case_bool_decide; [|done]. by injection E as <- _.
Qed.

Lemma _interpret_interprets_to (node : Node) s v s' :
  _interpret node s = (Return v, s') → interprets_to node v.
Proof.
  destruct node as [element name children token
                   | name inherit children token | | children token
                   | | | value unit nchildren token | string schildren token
                   | | name nchildren token]; try done.
  - rewrite _interpret_Create_eq. unfold Interpreter._interpret_Create.
    intros (t & s1 & _ & E)%bind_Return.
    apply bind_Return in E as (new & s2 & _ & E).
    destruct (truthy name); [done|].
    apply bind_Return in E as (? & s3 & _ & E). by injection E as <- _.
  - rewrite _interpret_Template_eq. unfold Interpreter._interpret_Template.
    intros (new & s1 & _ & E)%bind_Return.
    apply bind_Return in E as (? & s2 & _ & E).
    apply bind_Return in E as ([|] & s3 & _ & E); [done|].
    apply bind_Return in E as (? & s4 & _ & E).
    apply bind_Return in E as (? & s5 & _ & E).
    apply bind_Return in E as (? & s6 & _ & E). by injection E as <- _.
  - destruct children as [|n [|val [|? ?]]]; simpl.
    + done.
    + by intros (? & ? & _ & E)%bind_Return.
    + intros (? & ? & _ & E)%bind_Return.
      apply bind_Return in E as (? & ? & _ & E).
      unfold Interpreter._interpret_Assign in E.
      apply bind_Return in E as (? & ? & _ & E).
      apply bind_Return in E as (? & ? & _ & E). by injection E as <- _.
    + intros (? & ? & _ & E)%bind_Return.
      apply bind_Return in E as (? & ? & _ & E).
      by apply bind_Return in E as (? & ? & _ & E).
  - simpl. unfold Interpreter._interpret_Number.
    intros (? & ? & _ & E)%bind_Return. by injection E as <- _.
  - simpl. unfold Interpreter._interpret_String.
    intros (? & ? & _ & E)%bind_Return. by injection E as <- _.
  - simpl. unfold Interpreter._interpret_Name.
    intros (? & ? & _ & E)%bind_Return. by injection E as <- _.
Qed.

Lemma children_loop_statements children element s s' :
  children_loop children element s = (Return (), s') →
  forallb statement children = true.
Proof.
  revert s. induction children as [|child children IH]; intros s; [done|].
  simpl. intros (built & s1 & Echild & E)%bind_Return.
  apply bind_Return in E as ([] & s2 & Eattach & E).
  apply IH in E. rewrite E, andb_true_r.
  apply _interpret_interprets_to in Echild.
  destruct child; try done; simpl in Echild; by subst built.
Qed.

(** X11. What a visit of the interpreter returns is fixed by the class of
    the node: a [Create] returns an element, a [Template] or an [Assign]
    returns [None], a [Name] or a [String] returns its text, a [Number]
    returns the node itself, and a [Define], a [Call], a [BinOp] or a
    [UnaryOp] never returns.  An [Assign] returns only if it has exactly
    two children.  And a [Create] or a [Template] returns only if every
    child is a [Create], a [Template] or an [Assign]: any other child in
    the body stops the visit. *)
Theorem _interpret_returns_by_node_class :
  (∀ (node : Node) (s : IState),
     match (_interpret node s).1 with
     | Return v => interprets_to node v
     | Raise _ => True
     end)
  ∧ (∀ children token (s : IState),
       is_Return (_interpret (parser.Assign children token) s).1 →
       length children = 2)
  ∧ (∀ element name children token (s : IState),
       is_Return (_interpret (parser.Create element name children token) s).1 →
       forallb statement children = true)
  ∧ (∀ name inherit children token (s : IState),
       is_Return
         (_interpret (parser.Template name inherit children token) s).1 →
       forallb statement children = true).
Proof.
  split; [|split; [|split]].
  - intros node s. destruct (_interpret node s) as [[v|ex] s'] eqn:E; [|done].
    by eapply _interpret_interprets_to.
  - intros children token s.
    destruct (_interpret _ s) as [[v|ex] s'] eqn:E; [|done]. intros _.
    destruct children as [|n [|val [|? ?]]]; simpl in E; [done| |done|].
    + by apply bind_Return in E as (? & ? & _ & E).
    + apply bind_Return in E as (? & ? & _ & E).
      apply bind_Return in E as (? & ? & _ & E).
      by apply bind_Return in E as (? & ? & _ & E).
  - intros element name children token s.
    destruct (_interpret _ s) as [[v|ex] s'] eqn:E; [|done]. intros _.
    rewrite _interpret_Create_eq in E. unfold Interpreter._interpret_Create in E.
    apply bind_Return in E as (t & s1 & _ & E).
    apply bind_Return in E as (new & s2 & _ & E).
    destruct (truthy name); [done|].
    apply bind_Return in E as ([] & s3 & E & _).
    apply _push_element_Return in E as (s4 & E).
    by eapply children_loop_statements.
  - intros name inherit children token s.
    destruct (_interpret _ s) as [[v|ex] s'] eqn:E; [|done]. intros _.
    rewrite _interpret_Template_eq in E.
    unfold Interpreter._interpret_Template in E.
    apply bind_Return in E as (new & s1 & _ & E).
    apply bind_Return in E as (? & s2 & _ & E).
    apply bind_Return in E as ([|] & s3 & _ & E); [done|].
    apply bind_Return in E as (? & s4 & _ & E).
    apply bind_Return in E as ([] & s5 & E & _).
    apply _push_element_Return in E as (s6 & E).
    by eapply children_loop_statements.
Qed.

Lemma alter_snoc {A} (f : A → A) (l : list A) x :
  alter f (length l) (l ++ [x]) = l ++ [f x].
Proof. induction l as [|y l IH]; simpl; [done|]. by f_equal. Qed.

Lemma declaring_heap name (s : IState) :
  Interpreter.heap (declaring name s)
  = Interpreter.heap s ++ [elements.set_name name elements.new].
Proof. apply alter_snoc. Qed.

(** A declaration of a free name without a base, whose body runs to its
    end. *)
Lemma _interpret_Template_free name children token (s s1 : IState) :
  Interpreter.templates s !! name = None →
  children_loop children (length (Interpreter.heap s)) (declaring name s)
  = (Return (), s1) →
  _interpret (parser.Template name None children token) s
  = (Return elements.PyNone,
     {| Interpreter.templates :=
          <[name := Interpreter.Prototype (length (Interpreter.heap s))]>
            (Interpreter.templates s1);
        Interpreter._elements := Interpreter._elements s;
        Interpreter.heap := Interpreter.heap s1 |}).
Proof.
  intros Hfree Hbody. rewrite _interpret_Template_eq.
  pose proof (children_loop_balanced children (length (Interpreter.heap s))
                ltac:(apply Forall_forall; intros; apply _interpret_balanced)
                _ _ _ Hbody) as Hst.
  unfold Interpreter._interpret_Template, Interpreter.construct,
    Interpreter.update, Interpreter.gets, Interpreter._push_element,
    Interpreter.modify.
  run_step. simpl. rewrite Hfree.
  rewrite bool_decide_eq_false_2 by (by intros [? ?]).
  unfold declaring in Hbody, Hst. simpl in Hst.
  unfold Interpreter.set_elements, Interpreter.set_heap. simpl.
  rewrite Hbody, Hst, list_pop_snoc, bool_decide_eq_true_2 by done.
  done.
Qed.

(** X12. The redeclaration check of a [Template] is made before its body is
    interpreted, and the name is registered after.  So a declaration of a
    free name whose body declares the same name again is not refused: both
    declarations go through, the inner prototype is made and registered,
    and the outer registration then replaces it. *)
Theorem nested_redeclaration_is_not_refused name token inner (s : IState) :
  Interpreter.templates s !! name = None →
  _interpret (parser.Template name None [] inner) (declaring name s)
  = (Return elements.PyNone,
     {| Interpreter.templates :=
          <[name := Interpreter.Prototype (S (length (Interpreter.heap s)))]>
            (Interpreter.templates s);
        Interpreter._elements :=
          Interpreter._elements s ++ [length (Interpreter.heap s)];
        Interpreter.heap :=
          Interpreter.heap s
            ++ [elements.set_name name elements.new;
                elements.set_name name elements.new] |})
  ∧ _interpret
      (parser.Template name None [parser.Template name None [] inner] token) s
    = (Return elements.PyNone,
       {| Interpreter.templates :=
            <[name := Interpreter.Prototype (length (Interpreter.heap s))]>
              (Interpreter.templates s);
          Interpreter._elements := Interpreter._elements s;
          Interpreter.heap :=
            Interpreter.heap s
              ++ [elements.set_name name elements.new;
                  elements.set_name name elements.new] |}).
Proof.
  intros Hfree.
  assert (_interpret (parser.Template name None [] inner) (declaring name s)
          = (Return elements.PyNone,
             {| Interpreter.templates :=
                  <[name := Interpreter.Prototype
                              (S (length (Interpreter.heap s)))]>
                    (Interpreter.templates s);
                Interpreter._elements :=
                  Interpreter._elements s ++ [length (Interpreter.heap s)];
                Interpreter.heap :=
                  Interpreter.heap s
                    ++ [elements.set_name name elements.new;
                        elements.set_name name elements.new] |})) as Hinner.
  { erewrite _interpret_Template_free; [|done|reflexivity].
    rewrite !declaring_heap, length_app, <-app_assoc. simpl.
    by rewrite Nat.add_1_r. }
  split; [exact Hinner|].
  eassert (children_loop [parser.Template name None [] inner]
             (length (Interpreter.heap s)) (declaring name s)
           = (Return (), _)) as Hbody.
  { change (children_loop [?child] ?element)
      with (bind (_interpret child)
              (λ built, bind (Interpreter.attach element built)
                          (λ _, children_loop [] element))).
    unfold bind at 1. rewrite Hinner. reflexivity. }
  rewrite (_interpret_Template_free name _ token s _ Hfree Hbody).
  simpl. by rewrite insert_insert_eq.
Qed.

(** ** What [build] leaves in the builder *)

Lemma registry_lookup (l : list (templates.Template scalar func))
    (acc : gmap string (templates.Template scalar func)) name :
  foldl (λ d template, <[templates.__name__ template := template]> d) acc l
    !! name
  = match last (filter (λ t, templates.__name__ t = name) l) with
    | Some t => Some t
    | None => acc !! name
    end.
Proof.
  revert acc. induction l as [|t l IH]; intros acc; [done|].
  simpl. rewrite IH. destruct (decide (templates.__name__ t = name)) as [Ht|Ht].
  - rewrite filter_cons_True by done. rewrite last_cons.
    destruct (last _); [done|]. rewrite <-Ht. by rewrite lookup_insert_eq.
  - rewrite filter_cons_False by done.
    destruct (last _); [done|]. by rewrite lookup_insert_ne.
Qed.

Lemma build_scene_state (node : Node) (s : State) :
  (build_scene node s).2 = (_build node s).2
  ∧ (is_Return (build_scene node s).1 → is_Return (_build node s).1).
Proof.
  unfold build_scene, SceneBuilder.read. run_step.
  destruct (_build node s) as [[v|ex] s1]; [|done]. simpl.
  destruct (datatypes.isinstance_Element v); [|done].
  destruct v; try done. by case_bool_decide.
Qed.

(** X18. Whatever a build of a scene comes to, the registry it leaves is
    the one made from [Template.list_templates()], in which a name stands
    for the last template of the list that bears it; and when the build
    returns, the scope stack it leaves is empty. *)
Theorem build_resets_the_builder name children token (s : State) :
  SceneBuilder.templates
    (build (parser.Create "Scene" name children token) s).2
  = builtin_registry
  ∧ (∀ template_name,
       builtin_registry !! template_name
       = last (filter (λ t, templates.__name__ t = template_name)
                 list_templates))
  ∧ (is_Return (build (parser.Create "Scene" name children token) s).1 →
     SceneBuilder._elements
       (build (parser.Create "Scene" name children token) s).2 = []).
Proof.
  rewrite build_Scene.
  destruct (build_scene_state (parser.Create "Scene" name children token)
              (reset s)) as [-> Hreturn].
  destruct (_build _ (reset s)) as [out s'] eqn:E.
  destruct (_build_visit_ok _ _ _ _ E) as [(Ht & _) Hst].
  split; [exact Ht|]. split.
  - intros template_name. unfold builtin_registry.
    rewrite registry_lookup. by destruct (last _).
  - intros Hout. simpl. by rewrite Hst by (by apply Hreturn).
Qed.

(** ** The order of the children *)

Lemma define_value_children name token v s a s' :
  define_value name token v s = (Return a, s') →
  SceneBuilder._elements s' = SceneBuilder._elements s
  ∧ a = datatypes.PyNone
  ∧ ∀ r, element.children (SceneBuilder.heap s' !!! r)
         = element.children (SceneBuilder.heap s !!! r).
Proof.
  intros E.
  unfold define_value, SceneBuilder._element, SceneBuilder.call,
    SceneBuilder.read, element.define in E.
  run_step in E.
  destruct (datatypes.isinstance_Value v); [|done].
  destruct (last (SceneBuilder._elements s)) as [p|] eqn:El; [|done].
  destruct (element.properties (SceneBuilder.heap s !!! p) !! name);
    simpl in E.
  - rewrite El in E. by simpl in E.
  - injection E as <- <-. split; [done|]. split; [done|]. intros r. simpl.
    destruct (decide (p = r)) as [->|Hne];
      [|by rewrite list_lookup_total_insert_ne].
    destruct (decide (r < length (SceneBuilder.heap s))) as [Hlt|Hge].
    + by rewrite list_lookup_total_insert_eq.
    + by rewrite list_insert_ge by lia.
Qed.

Lemma assign_value_children name token v s a s' :
  assign_value name token v s = (Return a, s') →
  SceneBuilder._elements s' = SceneBuilder._elements s
  ∧ a = datatypes.PyNone
  ∧ ∀ r, element.children (SceneBuilder.heap s' !!! r)
         = element.children (SceneBuilder.heap s !!! r).
Proof.
  intros E.
  unfold assign_value, SceneBuilder._element, SceneBuilder.call,
    SceneBuilder.read, element.set in E.
  run_step in E.
  destruct (datatypes.isinstance_Value v); [|done].
  destruct (last (SceneBuilder._elements s)) as [p|] eqn:El; [|done].
  destruct (element.properties (SceneBuilder.heap s !!! p) !! name);
    simpl in E.
  - injection E as <- <-. split; [done|]. split; [done|]. intros r. simpl.
    destruct (decide (p = r)) as [->|Hne];
      [|by rewrite list_lookup_total_insert_ne].
    destruct (decide (r < length (SceneBuilder.heap s))) as [Hlt|Hge].
    + by rewrite list_lookup_total_insert_eq.
    + by rewrite list_insert_ge by lia.
  - rewrite El in E. by simpl in E.
Qed.

Lemma expression_lists_nothing (node : Node) s v s' :
  expression node = true → _build node s = (Return v, s') →
  s' = s ∧ created [v] = [].
Proof.
  intros Hnode E. split.
  - pose proof (_build_expression_pure node Hnode s) as Hpure.
    by rewrite E in Hpure.
  - apply _build_returns_of in E.
    destruct node; try done; simpl in E; by destruct v.
Qed.

Lemma flat_lists_what_it_returns (node : Node) s v s' p :
  flat node = true →
  _build node s = (Return v, s') →
  well_formed s →
  last (SceneBuilder._elements s) = Some p →
  element.children (SceneBuilder.heap s' !!! p)
  = element.children (SceneBuilder.heap s !!! p) ++ created [v].
Proof.
  intros Hflat E Hwf Hp.
  assert (expression node = true →
          element.children (SceneBuilder.heap s' !!! p)
          = element.children (SceneBuilder.heap s !!! p) ++ created [v])
    as Hexpression.
  { intros Hnode.
    destruct (expression_lists_nothing _ _ _ _ Hnode E) as [-> ->].
    by rewrite app_nil_r. }
  destruct (well_formed_current _ _ Hwf Hp) as [Hlt _].
  destruct node as [element name children token| | children token
                   | children token | | | | | | ]; try by apply Hexpression.
  - rewrite _build_Create_eq in E.
    destruct (SceneBuilder.templates s !! element) as [t|] eqn:Ht;
      [|by rewrite (_build_Create_undefined _ _ _ _ _ Ht) in E].
    destruct (truthy name) eqn:Hname;
      [by rewrite (_build_Create_named _ _ _ _ _ _ Ht Hname) in E|].
    rewrite (_build_Create_run _ _ _ _ _ _ Ht Hname) in E.
    destruct (_build_children children (attached t s)) as [[built|ex] s1]
      eqn:Eb; [|done].
    destruct (_build_children_visit_ok children
                ltac:(apply Forall_forall; intros; apply _build_visit_ok)
                _ _ _ Eb) as [(_ & _ & Hold) _].
    destruct (list_pop (SceneBuilder._elements s1)) as [[front top]|]; [|done].
    case_bool_decide; [|done]. injection E as <- <-. simpl.
    destruct (Hold p) as [Hsame _]; [rewrite attached_length; lia|].
    assert (SceneBuilder.heap s1 !! p
            = Some (element.add (length (SceneBuilder.heap s))
                      (SceneBuilder.heap s !!! p))) as Hp1.
    { rewrite Hsame.
      - rewrite attached_lookup by done. rewrite decide_True by done.
        by rewrite (list_lookup_lookup_total_lt _ _ Hlt).
      - simpl. rewrite last_snoc. intros [= ?]. lia. }
    by rewrite (list_lookup_total_correct _ _ _ Hp1).
  - destruct children as [|nm [|value [|? ?]]]; try done.
    simpl in Hflat, E. destruct nm; try done. rewrite _build_Define_eq in E.
    apply bind_Return in E as (built & s1 & Evalue & E).
    destruct (expression_lists_nothing _ _ _ _ Hflat Evalue) as [-> _].
    apply define_value_children in E as (_ & -> & Hchildren).
    by rewrite Hchildren, app_nil_r.
  - destruct children as [|nm [|value [|? ?]]]; try done.
    simpl in Hflat, E. destruct nm; try done. rewrite _build_Assign_eq in E.
    apply bind_Return in E as (built & s1 & Evalue & E).
    destruct (expression_lists_nothing _ _ _ _ Hflat Evalue) as [-> _].
    apply assign_value_children in E as (_ & -> & Hchildren).
    by rewrite Hchildren, app_nil_r.
Qed.

(** X19. The children of an element are listed in the order of the
    source.  When a run of children, each a [Create], a [Define] or an
    [Assign] of an expression, or an expression, returns under the element
    on top of the scope stack, what it has appended to the children of that
    element is exactly the elements that the [Create] children returned, in
    the order of the children. *)
Theorem children_are_listed_in_source_order children (s s' : State) built p :
  well_formed s →
  last (SceneBuilder._elements s) = Some p →
  forallb flat children = true →
  _build_children children s = (Return built, s') →
  element.children (SceneBuilder.heap s' !!! p)
  = element.children (SceneBuilder.heap s !!! p) ++ created built.
Proof.
  revert s built. induction children as [|child children IH];
    intros s built Hwf Hp Hflat E.
  - injection E as <- <-. by rewrite app_nil_r.
  - simpl in Hflat. apply andb_true_iff in Hflat as [Hchild Hrest].
    simpl in E. apply bind_Return in E as (v & s1 & Ev & E).
    apply bind_Return in E as (rest & s2 & Erest & E).
    injection E as <- <-.
    destruct (_build_visit_ok _ _ _ _ Ev) as [_ Hst]. specialize (Hst I).
    destruct _build_sound as [Hsound _].
    destruct (Hsound _ _ _ _ Ev Hwf I) as (Hwf1 & _ & _).
    rewrite (IH s1 rest Hwf1 ltac:(by rewrite Hst) Hrest Erest).
    rewrite (flat_lists_what_it_returns _ _ _ _ _ Hchild Ev Hwf Hp).
    rewrite <-app_assoc. f_equal. unfold created. simpl.
    by destruct v.
Qed.

(** ** The exceptions the interpreter lets out *)

Lemma guarded_ret {A} (a : A) : guarded (ret (S:=IState) a).
Proof. by intros s ex s' [=]. Qed.

Lemma guarded_raise {A} ex :
  interpret_error ex = true → guarded (raise (S:=IState) (A:=A) ex).
Proof. intros Hex s ex' s' [= <- <-] _. by left. Qed.

Lemma guarded_assert b : guarded (assert (S:=IState) b).
Proof. destruct b; [apply guarded_ret|by apply guarded_raise]. Qed.

Lemma guarded_bind {A B} (m : M IState A) (k : A → M IState B) :
  keeping m → guarded m → (∀ a, guarded (k a)) → guarded (bind m k).
Proof.
  intros Hk Hm Hka s ex s' E Hstack. unfold bind in E.
  destruct (m s) as [[a|ex1] s1] eqn:Em.
  - apply (Hka a _ _ _ E). destruct (Hk _ _ _ Em) as [_ Hpre].
    intros Hnil. rewrite Hnil in Hpre. by apply prefix_nil_inv in Hpre.
  - injection E as <- <-. by eapply Hm.
Qed.

Lemma guarded_construct e : guarded (Interpreter.construct e).
Proof. by intros s ex s' [=]. Qed.

Lemma guarded_update id f : guarded (Interpreter.update id f).
Proof. by intros s ex s' [=]. Qed.

Lemma guarded_apply source element :
  guarded (Interpreter.apply Element_apply source element).
Proof.
  intros s ex s' E _. unfold Interpreter.apply in E.
  destruct (Element_apply _ _ _) as [[[]|ex1] h] eqn:Ea; [done|].
  injection E as <- <-. right. left. by eexists _, _, _, _.
Qed.

Lemma guarded__apply_template t element :
  guarded (Interpreter._apply_template Element_apply t element).
Proof.
  destruct t; simpl; [|apply guarded_apply].
  apply guarded_bind; [apply inert_keeping, inert_construct
                      |apply guarded_construct|].
  intros. apply guarded_apply.
Qed.

Lemma guarded__instantiate_template t :
  guarded (Interpreter._instantiate_template Element_apply t).
Proof.
  apply guarded_bind; [apply inert_keeping, inert_construct
                      |apply guarded_construct|].
  intros. apply guarded__apply_template.
Qed.

Lemma guarded__get_template name token :
  guarded (Interpreter._get_template name token).
Proof.
  intros s ex s' E _. unfold Interpreter._get_template in E.
  destruct (_ !! _); [done|]. injection E as <- <-. left.
  unfold Interpreter._create_error. destruct token as [tok|]; [|done].
  by destruct (parser.span tok) as [[? ?] [? ?]].
Qed.

Lemma guarded_attach element child :
  guarded (Interpreter.attach element child).
Proof.
  destruct child; simpl;
    [apply guarded_ret|by apply guarded_raise..|apply guarded_update].
Qed.

Lemma guarded__interpret_Assign name value :
  guarded (Interpreter._interpret_Assign Element_set name value).
Proof.
  intros s ex s' E Hstack.
  unfold Interpreter._interpret_Assign, Interpreter._element,
    Interpreter.call in E.
  run_step in E.
  destruct (last (Interpreter._elements s)) as [self|] eqn:El;
    [|by apply last_None in El].
  destruct (Element_set _ _ _) as [e|ex1] eqn:Es; [done|].
  injection E as <- <-. right. right. by eexists _, _, _.
Qed.

Lemma guarded__push_element {A} element (body : M IState A) :
  balanced body → guarded body →
  ∀ s ex s', Interpreter._push_element element body s = (Raise ex, s') →
             interpret_error ex = true ∨ raised_by_elements ex.
Proof.
  intros Hb Hg s ex s' E.
  unfold Interpreter._push_element, Interpreter.modify in E. run_step in E.
  destruct (body _) as [[b|ex1] s1] eqn:Eb.
  - pose proof (Hb _ _ _ Eb) as Hst. simpl in Hst.
    rewrite Hst, list_pop_snoc in E. by case_bool_decide.
  - injection E as <- <-. apply (Hg _ _ _ Eb). simpl.
    by intros [_ ?]%app_eq_nil.
Qed.

Lemma children_loop_guarded children element :
  Forall (λ node, guarded (_interpret node)) children →
  guarded (children_loop children element).
Proof.
  induction 1 as [|child children Hchild _ IH]; simpl.
  - apply guarded_ret.
  - apply guarded_bind; [apply _interpret_keeping|done|]. intros built.
    apply guarded_bind; [apply inert_keeping, inert_attach
                        |apply guarded_attach|done].
Qed.

(** A [Create] needs no element on the stack. *)
Lemma _interpret_Create_guarded element name children token s ex s' :
  Forall (λ node, guarded (_interpret node)) children →
  _interpret (parser.Create element name children token) s = (Raise ex, s') →
  interpret_error ex = true ∨ raised_by_elements ex.
Proof.
  intros Hchildren E. rewrite _interpret_Create_eq in E.
  unfold Interpreter._interpret_Create in E. unfold mbind, M_bind in E.
  unfold bind at 1 in E.
  destruct (Interpreter._get_template element token s) as [[t|ex1] s1] eqn:Et.
  2:{ injection E as <- <-. unfold Interpreter._get_template in Et.
      destruct (_ !! _); [done|]. injection Et as <- <-. left.
      unfold Interpreter._create_error. destruct token as [tok|]; [|done].
      by destruct (parser.span tok) as [[? ?] [? ?]]. }
  unfold bind at 1 in E.
  destruct (Interpreter._instantiate_template Element_apply t s1)
    as [[new|ex1] s2] eqn:Ei.
  2:{ injection E as <- <-.
      unfold Interpreter._instantiate_template, Interpreter.construct in Ei.
      run_step in Ei. destruct t as [constructed|id]; simpl in Ei.
      - unfold Interpreter.construct, Interpreter.apply in Ei. run_step in Ei.
        simpl in Ei.
        destruct (Element_apply _ _ _) as [[[]|ex2] h] eqn:Ea; [done|].
        injection Ei as <- <-. right. left. by eexists _, _, _, _.
      - unfold Interpreter.apply in Ei. simpl in Ei.
        destruct (Element_apply _ _ _) as [[[]|ex2] h] eqn:Ea; [done|].
        injection Ei as <- <-. right. left. by eexists _, _, _, _. }
  destruct (truthy name); [injection E as <- <-; by left|].
  unfold bind at 1 in E.
  destruct (Interpreter._push_element new _ s2) as [[[]|ex1] s3] eqn:Ep;
    [done|].
  injection E as <- <-.
  eapply guarded__push_element; [| |exact Ep].
  - apply children_loop_balanced, Forall_forall. intros.
    apply _interpret_balanced.
  - by apply children_loop_guarded.
Qed.

Lemma _interpret_guarded node : guarded (_interpret node).
Proof.
  induction node as [node IH] using parser.Node_children_ind.
  destruct node as [element name children token
                   | name inherit children token | | children token
                   | | | | | | ]; simpl in IH;
    try (by apply guarded_raise).
  - intros s ex s' E _. by eapply _interpret_Create_guarded.
  - rewrite _interpret_Template_eq. unfold Interpreter._interpret_Template.
    apply guarded_bind; [apply inert_keeping, inert_construct
                        |apply guarded_construct|]. intros new.
    apply guarded_bind; [apply inert_keeping, inert_update
                        |apply guarded_update|]. intros _.
    apply guarded_bind; [apply inert_keeping, inert_gets
                        |by intros s ex s' [=]|].
    intros [|].
    { intros s ex s' [= <- <-] _. left.
      unfold Interpreter._create_error. destruct token as [tok|]; [|done].
      by destruct (parser.span tok) as [[? ?] [? ?]]. }
    apply guarded_bind.
    { apply inert_keeping. destruct inherit; [|apply inert_ret].
      apply inert_bind; [apply inert__get_template|]. intros.
      apply inert_bind; [apply inert__apply_template|]. intros.
      apply inert_ret. }
    { destruct inherit; [|apply guarded_ret].
      apply guarded_bind; [apply inert_keeping, inert__get_template
                          |apply guarded__get_template|]. intros.
      apply guarded_bind; [apply inert_keeping, inert__apply_template
                          |apply guarded__apply_template|]. intros.
      apply guarded_ret. }
    intros _. apply guarded_bind.
    { apply keeping__push_element.
      - apply children_loop_balanced, Forall_forall. intros.
        apply _interpret_balanced.
      - apply children_loop_keeping, Forall_forall. intros.
        apply _interpret_keeping. }
    { intros s ex s' E _. eapply guarded__push_element; [| |exact E].
      - apply children_loop_balanced, Forall_forall. intros.
        apply _interpret_balanced.
      - by apply children_loop_guarded. }
    intros _ s ex s' E _. unfold Interpreter.modify in E. by run_step in E.
  - destruct children as [|n [|v [|? ?]]].
    + by apply guarded_raise.
    + apply Forall_cons_1 in IH as [IH _].
      apply guarded_bind; [apply _interpret_keeping|done|].
      intros. by apply guarded_raise.
    + apply Forall_cons_1 in IH as [IHn IH].
      apply Forall_cons_1 in IH as [IHv _].
      apply guarded_bind; [apply _interpret_keeping|done|]. intros.
      apply guarded_bind; [apply _interpret_keeping|done|]. intros.
      apply guarded__interpret_Assign.
    + apply Forall_cons_1 in IH as [IHn IH].
      apply Forall_cons_1 in IH as [IHv IH].
      apply Forall_cons_1 in IH as [IHe _].
      apply guarded_bind; [apply _interpret_keeping|done|]. intros.
      apply guarded_bind; [apply _interpret_keeping|done|]. intros.
      apply guarded_bind; [apply _interpret_keeping|done|]. intros.
      by apply guarded_raise.
  - apply guarded_bind; [apply inert_keeping, inert_assert
                        |apply guarded_assert|intros; apply guarded_ret].
  - apply guarded_bind; [apply inert_keeping, inert_assert
                        |apply guarded_assert|intros; apply guarded_ret].
  - apply guarded_bind; [apply inert_keeping, inert_assert
                        |apply guarded_assert|intros; apply guarded_ret].
Qed.

(** X20. [_interpret] calls itself once for each level of nesting, and the
    embedding follows it to any depth, where Python stops with a
    [RecursionError] once its stack is full.  So this is about the trees
    Python has room for: [limit] stands for the depth of nesting up to
    which the stack suffices.  For a tree nested no deeper than [limit],
    the exceptions [interpret] lets out are those the interpreter raises
    itself, [InterpreterError], [AssertionError], [NotImplementedError],
    the [AttributeError] of a node class without a visitor and the
    [ValueError] of an [Assign] that does not unpack, and those that
    [Element.apply] and [Element.set] raise; the same holds of every visit
    of such a tree made under a non-empty scope stack.  In particular the
    [IndexError] of [self._element] never reaches the caller. *)
Theorem interpret_lets_out_only_its_errors
    (limit : nat) (node : Node) (s : IState) :
  height node ≤ limit →
  match (interpret node s).1 with
  | Raise ex => interpret_error ex = true ∨ raised_by_elements ex
  | Return _ => True
  end
  ∧ (Interpreter._elements s ≠ [] →
     match (_interpret node s).1 with
     | Raise ex => interpret_error ex = true ∨ raised_by_elements ex
     | Return _ => True
     end).
Proof.
  intros _. split.
  - destruct node as [element name children token| | | | | | | | |];
      try (by left).
    unfold Interpreter.interpret, Interpreter.modify, Interpreter.read.
    run_step. case_bool_decide; [|by left].
    match goal with
    | |- context [ _interpret ?node ?s0 ] =>
        destruct (_interpret node s0) as [[v|ex] s1] eqn:E
    end.
    + destruct v; simpl; try (by left). by destruct (_ || _); [|left].
    + simpl. eapply _interpret_Create_guarded; [|exact E].
      apply Forall_forall. intros. apply _interpret_guarded.
  - intros Hstack. destruct (_interpret node s) as [[v|ex] s'] eqn:E; [done|].
    by eapply _interpret_guarded.
Qed.

(** ** Attaching a created element *)





End facts.

(** * The rasterizer *)

Lemma _is_opaque_loop_Forall (data : list rasterizer.Pixel) :
  rasterizer._is_opaque_loop data
  = bool_decide (Forall (λ pixel, pixel.2 = 255%Z) data).
Proof.
  induction data as [|[[[r g] b] a] data IH].
  - symmetry. by apply bool_decide_eq_true_2.
  - cbn [rasterizer._is_opaque_loop].
    destruct (decide (a = 255%Z)) as [->|Ha].
    + rewrite bool_decide_eq_false_2 by (by intros ?). rewrite IH.
      apply bool_decide_ext. rewrite Forall_cons. simpl. tauto.
    + rewrite bool_decide_eq_true_2 by done.
      symmetry. apply bool_decide_eq_false_2.
      by intros [? _]%Forall_cons_1.
Qed.

(** X13. [_is_opaque] refuses, by its assertion, every image whose mode is
    neither ["RGB"] nor ["RGBA"]; it takes an ["RGB"] image for opaque
    without looking at a pixel; and it takes an ["RGBA"] image for opaque
    exactly when the alpha of every pixel is 255. *)
Theorem _is_opaque_iff_every_alpha_is_255 (image : rasterizer.PIL_Image) :
  rasterizer._is_opaque image
  = if bool_decide (rasterizer.mode image = "RGB") then Return true
    else if bool_decide (rasterizer.mode image = "RGBA")
         then Return (bool_decide
                        (Forall (λ pixel, pixel.2 = 255%Z)
                           (rasterizer.getdata image)))
         else Raise AssertionError.
Proof.
  unfold rasterizer._is_opaque. rewrite _is_opaque_loop_Forall.
  destruct (decide (rasterizer.mode image = "RGB")) as [HRGB|HRGB].
  - rewrite (bool_decide_eq_true_2 (_ = "RGB")) by done.
    rewrite (bool_decide_eq_true_2 (_ ∈ _)); [done|].
    rewrite HRGB. set_solver.
  - rewrite (bool_decide_eq_false_2 (_ = "RGB")) by done.
    destruct (decide (rasterizer.mode image = "RGBA")) as [HRGBA|HRGBA].
    + rewrite (bool_decide_eq_true_2 (_ = "RGBA")) by done.
      rewrite (bool_decide_eq_true_2 (_ ∈ _)); [done|].
      rewrite HRGBA. set_solver.
    + rewrite (bool_decide_eq_false_2 (_ = "RGBA")) by done.
      rewrite (bool_decide_eq_false_2 (_ ∈ _)); [done|].
      intros [?|[?|?%elem_of_nil]%elem_of_cons]%elem_of_cons; done.
Qed.

(** X14. The opacity of an [Image] is decided at the first reading of
    [opaque] that does not raise, from the image wrapped at that moment,
    and never again: every later reading returns that answer without a
    look at the image, whatever [self._image] has been replaced with since.
    A reading that raises leaves the object as it was. *)
Theorem opaque_is_decided_once (self : rasterizer.Image) :
  match rasterizer.opaque self with
  | (Return b, self') =>
      (rasterizer._opaque self = None →
       rasterizer._is_opaque (rasterizer._image self) = Return b)
      ∧ rasterizer._image self' = rasterizer._image self
      ∧ ∀ image,
          rasterizer.opaque (rasterizer.set_image image self')
          = (Return b, rasterizer.set_image image self')
  | (Raise ex, self') =>
      self' = self ∧ rasterizer._opaque self = None
      ∧ rasterizer._is_opaque (rasterizer._image self) = Raise ex
  end.
Proof.
  unfold rasterizer.opaque.
  destruct (rasterizer._opaque self) as [b|] eqn:Ecache.
  - split; [done|]. split; [done|]. intros image. simpl. by rewrite Ecache.
  - destruct (rasterizer._is_opaque _) as [b|ex]; [|done].
    by repeat split.
Qed.

(** ** The size of a text *)

Lemma measure_text_loop_closed spacing i (lines : list (Z * Z)) w h :
  rasterizer.measure_text_loop spacing i lines w h
  = (foldl Z.max w (fst <$> lines),
     (h + total (snd <$> lines)
      + spacing * Z.of_nat (if bool_decide (0 < i)%nat then length lines
                            else (length lines - 1)%nat))%Z).
Proof.
  revert i w h. induction lines as [|[w0 h0] lines IH]; intros i w h.
  - simpl. f_equal. destruct (bool_decide _); simpl; lia.
  - cbn [rasterizer.measure_text_loop]. rewrite IH.
    rewrite (bool_decide_eq_true_2 (0 < S i)) by lia.
    rewrite !fmap_cons. unfold total. cbn [foldl foldr fst snd length].
    f_equal.
    case_bool_decide.
    + rewrite Nat2Z.inj_succ, Z.mul_succ_r. lia.
    + replace (S (length lines) - 1)%nat with (length lines) by lia. lia.
Qed.

Lemma foldl_max_le (l : list Z) w : (w ≤ foldl Z.max w l)%Z.
Proof.
  revert w. induction l as [|a l IH]; intros w; simpl; [done|].
  etrans; [|apply IH]. lia.
Qed.

Lemma foldl_max_elem_of (l : list Z) w a :
  a ∈ l → (a ≤ foldl Z.max w l)%Z.
Proof.
  revert w. induction l as [|b l IH]; intros w Ha; [by apply elem_of_nil in Ha|].
  apply elem_of_cons in Ha as [->|Ha]; simpl.
  - etrans; [|apply foldl_max_le]. lia.
  - by apply IH.
Qed.

(** X15. [measure_text] returns, as width, the largest of 0 and the widths
    of the lines, and as height, the sum of the heights of the lines plus
    the spacing once between every two consecutive lines: nothing for a
    text without lines, and no spacing for a single line.  So the width is
    never negative and no line is wider than it. *)
Theorem measure_text_closed_form getsize splitlines text spacing :
  rasterizer.measure_text getsize splitlines text spacing
  = (foldl Z.max 0%Z (fst ∘ getsize <$> splitlines text),
     (total (snd ∘ getsize <$> splitlines text)
      + spacing * Z.of_nat (length (splitlines text) - 1)%nat)%Z)
  ∧ (0 ≤ (rasterizer.measure_text getsize splitlines text spacing).1)%Z
  ∧ ∀ line, line ∈ splitlines text →
      ((getsize line).1
       ≤ (rasterizer.measure_text getsize splitlines text spacing).1)%Z.
Proof.
  assert (rasterizer.measure_text getsize splitlines text spacing
          = (foldl Z.max 0%Z (fst ∘ getsize <$> splitlines text),
             (total (snd ∘ getsize <$> splitlines text)
              + spacing * Z.of_nat (length (splitlines text) - 1)%nat)%Z))
    as Hclosed.
  { unfold rasterizer.measure_text, rasterizer.measure_lines,
      rasterizer.measure_line.
    rewrite measure_text_loop_closed. rewrite <-!list_fmap_compose.
    rewrite length_fmap. by rewrite bool_decide_eq_false_2 by lia. }
  rewrite Hclosed. simpl. split; [done|]. split.
  - apply foldl_max_le.
  - intros line Hline. apply foldl_max_elem_of.
    by apply (list_elem_of_fmap_2 (fst ∘ getsize)).
Qed.

(** ** The font cache *)

(** X16. [Font.load] stores a font under the font object it has just made,
    not under the name it was asked for.  So, from the empty cache the
    module starts with, every key of the cache holds a font object; a call
    with a file name never finds an entry: it calls [truetype] again and,
    unless that raises, returns a [Font] around a new object and adds one
    more entry to the cache; and the cache answers only a call that is
    given a font object it holds, with that object itself and not with a
    [Font]. *)
Theorem Font_load_never_finds_a_file_name
    (truetype_raises : rasterizer.font_source → Z → option exn) :
  keyed_by_objects (rasterizer.mkFonts ∅ 0)
  ∧ (∀ font size st,
       keyed_by_objects st →
       keyed_by_objects (rasterizer.load truetype_raises font size st).2)
  ∧ (∀ filename size st,
       keyed_by_objects st →
       rasterizer._fonts st !! (inr (rasterizer.objects st), size) = None
       ∧ rasterizer.load truetype_raises (inl filename) size st
         = match truetype_raises (inl filename) size with
           | Some ex => (Raise ex, st)
           | None =>
               (Return (rasterizer.Font (rasterizer.objects st) size),
                {| rasterizer._fonts :=
                     <[(inr (rasterizer.objects st), size)
                       := rasterizer.objects st]> (rasterizer._fonts st);
                   rasterizer.objects := S (rasterizer.objects st) |})
           end)
  ∧ (∀ font size st found st',
       keyed_by_objects st →
       rasterizer.load truetype_raises font size st
       = (Return (rasterizer.cached found), st') →
       font = inr found ∧ st' = st).
Proof.
  split; [|split; [|split]].
  - intros font size found Hfound. simpl in Hfound.
    by rewrite lookup_empty in Hfound.
  - intros font size st Hst.
    unfold rasterizer.load, rasterizer.truetype, rasterizer.setitem.
    run_step.
    destruct (rasterizer._fonts st !! (font, size)); [done|].
    destruct (truetype_raises font size); [done|]. simpl.
    intros font' size' found Hfound. simpl in Hfound.
    apply lookup_insert_Some in Hfound as [[[= <- <-] <-]|[_ Hold]]; simpl.
    + split; [done|]. lia.
    + destruct (Hst _ _ _ Hold). split; [done|]. lia.
  - intros filename size st Hst.
    assert (rasterizer._fonts st !! (inr (rasterizer.objects st), size) = None)
      as Hfresh.
    { destruct (rasterizer._fonts st !! _) as [found|] eqn:E; [|done].
      destruct (Hst _ _ _ E) as [[= <-] ?]. lia. }
    split; [exact Hfresh|].
    unfold rasterizer.load, rasterizer.truetype, rasterizer.setitem.
    run_step.
    assert (rasterizer._fonts st !! (inl filename, size) = None) as Hmiss.
    { destruct (rasterizer._fonts st !! (inl filename, size))
        as [found|] eqn:E; [|done].
      by destruct (Hst _ _ _ E) as [[=] _]. }
    rewrite Hmiss. by destruct (truetype_raises (inl filename) size).
  - intros font size st found st' Hst.
    unfold rasterizer.load, rasterizer.truetype, rasterizer.setitem.
    run_step.
    destruct (rasterizer._fonts st !! (font, size)) as [found'|] eqn:E.
    + intros [= <- <-]. by destruct (Hst _ _ _ E).
    + by destruct (truetype_raises font size).
Qed.

(** ** The outline of a polygon *)

Lemma getitem_at {A} (sequence : list A) (i : nat) a :
  sequence !! i = Some a → rasterizer.getitem sequence (Z.of_nat i) = Return a.
Proof.
  intros Ha. unfold rasterizer.getitem. cbv zeta.
  rewrite (bool_decide_eq_false_2 (_ < 0)%Z) by lia.
  rewrite bool_decide_eq_true_2 by lia. by rewrite Nat2Z.id, Ha.
Qed.

Lemma getitem_before {A} (sequence : list A) (i : nat) a :
  i < length sequence →
  sequence !! ((i + length sequence - 1) `mod` length sequence) = Some a →
  rasterizer.getitem sequence (Z.of_nat i - 1) = Return a.
Proof.
  intros Hi Ha. unfold rasterizer.getitem. cbv zeta. destruct i as [|i].
  - rewrite (bool_decide_eq_true_2 (_ < 0)%Z) by lia.
    rewrite bool_decide_eq_true_2 by lia.
    replace ((0 + length sequence - 1) `mod` length sequence)
      with (length sequence - 1) in Ha by (rewrite Nat.mod_small; lia).
    replace (Z.to_nat (Z.of_nat (length sequence) + (Z.of_nat 0 - 1)))
      with (length sequence - 1) by lia.
    by rewrite Ha.
  - rewrite (bool_decide_eq_false_2 (_ < 0)%Z) by lia.
    rewrite bool_decide_eq_true_2 by lia.
    replace ((S i + length sequence - 1) `mod` length sequence) with i in Ha.
    + replace (Z.to_nat (Z.of_nat (S i) - 1)) with i by lia. by rewrite Ha.
    + replace (S i + length sequence - 1) with (i + 1 * length sequence)
        by lia.
      rewrite Nat.Div0.mod_add. rewrite Nat.mod_small; lia.
Qed.

Lemma side_is_Some {number} (points : list (rasterizer.Point number)) i :
  i < length points → is_Some (side points i).
Proof.
  intros Hi. unfold side.
  destruct (lookup_lt_is_Some_2 points
              ((i + length points - 1) `mod` length points)) as [p ->].
  { apply Nat.mod_upper_bound. lia. }
  destruct (lookup_lt_is_Some_2 points i Hi) as [q ->]. by eexists.
Qed.

Lemma outline_loop_sides {number} (points : list (rasterizer.Point number))
    range lines :
  Forall (λ i, i < length points) range →
  ∃ sides,
    rasterizer.outline_loop points range lines = Return (lines ++ sides)
    ∧ Forall2 (λ i drawn, side points i = Some drawn) range sides.
Proof.
  intros Hrange. revert lines.
  induction Hrange as [|i range Hi _ IH]; intros lines.
  - exists []. by rewrite app_nil_r.
  - destruct (side_is_Some points i Hi) as [drawn Hdrawn].
    pose proof Hdrawn as Hside. unfold side in Hdrawn.
    destruct (points !! ((i + length points - 1) `mod` length points))
      as [p|] eqn:Ep; [|done].
    destruct (points !! i) as [q|] eqn:Eq; [|done].
    simpl in Hdrawn. injection Hdrawn as <-.
    destruct (IH (lines ++ [(rasterizer.x p, rasterizer.y p,
                             rasterizer.x q, rasterizer.y q)]))
      as (sides & Hloop & Hsides).
    eexists (_ :: sides). split; [|by constructor].
    cbn [rasterizer.outline_loop].
    rewrite (getitem_before _ _ _ Hi Ep), (getitem_at _ _ _ Eq), Hloop.
    by rewrite <-app_assoc.
Qed.

(** X17. The outline loop of [draw_polygon] never indexes out of range, and
    draws one line for each point: line [i] runs from the point before
    point [i] to point [i], and the point before the first is the last,
    which the index [-1] of the first turn picks.  So the lines close the
    polygon, and the outline of a single point is one line from the point
    to itself. *)
Theorem polygon_outline_is_closed {number}
    (points : list (rasterizer.Point number)) :
  ∃ lines,
    rasterizer.outline points = Return lines
    ∧ length lines = length points
    ∧ ∀ i, i < length points →
        is_Some (lines !! i) ∧ lines !! i = side points i.
Proof.
  destruct (outline_loop_sides points (seq 0 (length points)) [])
    as (sides & Hloop & Hsides).
  { apply Forall_seq. intros. lia. }
  exists sides. split; [exact Hloop|].
  pose proof (Forall2_length _ _ _ Hsides) as Hlen.
  rewrite length_seq in Hlen. split; [done|]. intros i Hi.
  destruct (Forall2_lookup_l _ _ _ i i Hsides) as (drawn & Hdrawn & Hside).
  { by apply lookup_seq_lt. }
  rewrite Hdrawn, Hside. split; [by eexists|done].
Qed.

(** * The properties at work on the sample installation *)

(** C4. A call of a function the registry lacks: the arguments are built,
    then [functions[call.name]] raises [KeyError], and [KeyError] is what
    [build] lets out; no [SceneBuilderError] is made of it, as is done for
    the [KeyError] of an unknown template or of an undefined property. *)
Theorem unknown_function_escapes_as_KeyError :
  (sample.build
     (parser.Create "Scene" None
        [parser.Define
           [parser.Name "x" [] None;
            parser.Call "cos" [parser.Number 1%Z None [] None] None] None]
        None)
     sample.fresh).1
  = Raise (KeyError "cos")
  ∧ (sample.build
       (parser.Create "Scene" None
          [parser.Define
             [parser.Name "x" [] None;
              parser.Call "sin" [parser.Number 1%Z None [] None] None] None]
          None)
       sample.fresh).1
    = Return (datatypes.ElementRef 0)
  ∧ (sample.build (parser.Create "Circle" None [] None) sample.fresh).1
    = Raise AssertionError
  ∧ (sample._build (parser.Create "Circle" None [] None) sample.in_scene).1
    = Raise (SceneBuilderError "Creating undefined 'Circle' template").
Proof. by vm_compute. Qed.



(** C6 on the sample: the scene's declared [width] is assigned. *)
Lemma Assign_replaces_declared_witness :
  (sample._build (parser.Number 1280%Z None [] None) sample.in_scene
   = (Return (datatypes.Number 1280%Z), sample.in_scene)
   ∧ datatypes.isinstance_Value (datatypes.Number (func:=nat) 1280%Z) = true
   ∧ SceneBuilder._elements sample.in_scene = [] ++ [0]
   ∧ 0 < length (SceneBuilder.heap sample.in_scene))
  ∧ ∃ out s',
      sample._build
        (parser.Assign [parser.Name "width" [] None;
                        parser.Number 1280%Z None [] None] None)
        sample.in_scene = (out, s')
      ∧ match element.properties (SceneBuilder.heap sample.in_scene !!! 0)
              !! "width" with
        | Some _ =>
            out = Return datatypes.PyNone
            ∧ element.properties (SceneBuilder.heap s' !!! 0)
              = <["width" := datatypes.Number 1280%Z]>
                  (element.properties (SceneBuilder.heap sample.in_scene !!! 0))
            ∧ ∀ r, r ≠ 0 →
                SceneBuilder.heap s' !! r = SceneBuilder.heap sample.in_scene !! r
        | None =>
            out = Raise (SceneBuilder._create_error
                           ("Assigning value to undefined property "
                              +:+ repr "width" +:+ " in "
                              +:+ element.type_name
                                    (SceneBuilder.heap sample.in_scene !!! 0))
                           None None)
            ∧ s' = sample.in_scene
        end
      ∧ ∀ r, dom (element.properties (SceneBuilder.heap s' !!! r))
             = dom (element.properties (SceneBuilder.heap sample.in_scene !!! r)).
Proof.
  split; [repeat split; simpl; lia|].
  apply (Assign_replaces_declared sample.functions sample.TimeUnit sample._units
           "width" [] None (parser.Number 1280%Z None [] None) None
           sample.in_scene sample.in_scene (datatypes.Number 1280%Z) [] 0
           eq_refl eq_refl eq_refl).
  simpl. lia.
Defined.

(** C7, the claim as it was stated.  In the scene builder a [Template]
    declaration of a free name registers nothing, and one of a taken name
    raises [NotImplementedError], not a redeclaration error. *)
Lemma build_does_not_declare_templates :
  (sample.build
     (parser.Create "Scene" None [parser.Template "Card" None [] None] None)
     sample.fresh).1
  = Raise NotImplementedError
  ∧ SceneBuilder.templates
      (sample.build
         (parser.Create "Scene" None [parser.Template "Card" None [] None] None)
         sample.fresh).2 !! "Card"
    = None
  ∧ is_Some (SceneBuilder.templates sample.in_scene !! "Scene")
  ∧ sample._build (parser.Template "Scene" None [] None) sample.in_scene
    = (Raise NotImplementedError, sample.in_scene).
Proof. repeat split; try (by vm_compute). by eexists; vm_compute. Qed.

(** C7, as amended, on the sample: in the interpreter ["Scene"] is taken and
    ["Card"] is free. *)
Lemma Template_declaration_witness :
  (is_Some (Interpreter.templates sample.interpreting !! "Scene")
   ∧ ∃ s',
       sample._interpret (parser.Template "Scene" None [] None)
         sample.interpreting
       = (Raise (Interpreter._create_error
                   ("Redeclaration of " +:+ repr "Scene") None), s')
       ∧ Interpreter.templates s' = Interpreter.templates sample.interpreting)
  ∧ (Interpreter.templates sample.interpreting !! "Card" = None
     ∧ Interpreter.children_loop sample.Element_apply sample.Element_set []
         1 (declaring "Card" sample.interpreting)
       = (Return (), declaring "Card" sample.interpreting)
     ∧ sample._interpret (parser.Template "Card" None [] None)
         sample.interpreting
       = (Return elements.PyNone,
          {| Interpreter.templates :=
               <["Card" := Interpreter.Prototype 1]>
                 (Interpreter.templates sample.interpreting);
             Interpreter._elements := [0];
             Interpreter.heap :=
               Interpreter.heap (declaring "Card" sample.interpreting) |})).
Proof.
  pose proof (Template_declaration (func:=nat) sample.functions sample.TimeUnit
                sample._units sample.Element_apply sample.Element_set)
    as Hdecl.
  assert (is_Some (Interpreter.templates sample.interpreting !! "Scene"))
    as Htaken by (eexists; by vm_compute).
  assert (Interpreter.templates sample.interpreting !! "Card" = None)
    as Hfree by (by vm_compute).
  split; [split; [exact Htaken|]|split; [exact Hfree|split; [reflexivity|]]].
  - exact (proj1 (Hdecl "Scene" None [] None) sample.interpreting Htaken).
  - exact (proj1 (proj2 (Hdecl "Card" None [] None))
             sample.interpreting _ Hfree eq_refl).
Defined.

(** C8 on the sample: [Create ... as box]. *)
Lemma named_Create_fails_fast_witness :
  truthy (Some "box") = true
  ∧ sample._build (parser.Create "Rectangle" (Some "box") [] None)
      sample.in_scene
    = (Raise NotImplementedError,
       SceneBuilder.set_heap
         (SceneBuilder.heap sample.in_scene ++ [element.new]) sample.in_scene)
  ∧ ∃ ex s',
      sample._interpret (parser.Create "Scene" (Some "box") [] None)
        sample.interpreting = (Raise ex, s').
Proof.
  pose proof (named_Create_fails_fast (func:=nat) sample.functions
                sample.TimeUnit sample._units sample.Element_apply
                sample.Element_set "Rectangle" (Some "box") [] None eq_refl)
    as [Hbuild _].
  pose proof (named_Create_fails_fast (func:=nat) sample.functions
                sample.TimeUnit sample._units sample.Element_apply
                sample.Element_set "Scene" (Some "box") [] None eq_refl)
    as [_ Hinterpret].
  split; [reflexivity|]. split.
  - exact (Hbuild sample.in_scene).
  - destruct (Hinterpret sample.interpreting) as (ex & s' & E & _).
    by exists ex, s'.
Defined.

(** C9 on the sample: the same scene built twice by one builder. *)
Lemma build_forgets_earlier_builds_witness :
  Forall closed_Template sample.list_templates
  ∧ (sample.build sample.a_scene (sample.build sample.a_scene sample.fresh).2).1
    = relocate_outcome (relocate_Obj 2) (sample.build sample.a_scene sample.fresh).1
  ∧ SceneBuilder.heap
      (sample.build sample.a_scene (sample.build sample.a_scene sample.fresh).2).2
    = SceneBuilder.heap (sample.build sample.a_scene sample.fresh).2
        ++ (relocate_Element 2
              <$> SceneBuilder.heap (sample.build sample.a_scene sample.fresh).2).
Proof.
  assert (Forall closed_Template sample.list_templates) as Hclosed.
  { apply Forall_cons_2; [|apply Forall_cons_2; [|apply Forall_nil_2]];
      intros k v Hkv; simpl in Hkv;
      apply lookup_singleton_Some in Hkv as [_ <-]; reflexivity. }
  split; [exact Hclosed|].
  destruct (build_forgets_earlier_builds sample.functions sample.TimeUnit
              sample._units sample.list_templates sample.internal_templates
              sample.Element_apply sample.Element_set Hclosed)
    as [Hbuild _].
  destruct (Hbuild sample.a_scene
              (sample.build sample.a_scene sample.fresh).2) as (Hout & Hheap & _).
  split; [exact Hout|exact Hheap].
Defined.

(** ** The further properties on the sample *)

(** X4 on the sample: [width * 2] built inside the scene. *)
Lemma expressions_build_without_effect_witness :
  expression sample.an_expression = true
  ∧ (sample._build sample.an_expression sample.in_scene).2 = sample.in_scene.
Proof.
  split; [reflexivity|].
  apply (expressions_build_without_effect (func:=nat) sample.functions
           sample.TimeUnit sample._units sample.an_expression sample.in_scene).
  reflexivity.
Defined.

(** X5 on the sample: the [width] of [width * 2] is the scene's. *)
Lemma expressions_refer_to_the_scope_witness :
  expression sample.an_expression = true
  ∧ (sample._build sample.an_expression sample.in_scene).1
    = Return (datatypes.BinOp "*" (datatypes.ElementProperty 0 "width")
                (datatypes.Number 2%Z))
  ∧ Forall (in_scope sample.in_scene) [(0, "width")].
Proof.
  assert ((sample._build sample.an_expression sample.in_scene).1
          = Return (datatypes.BinOp "*" (datatypes.ElementProperty 0 "width")
                      (datatypes.Number 2%Z))) as Hbuilt
    by (by vm_compute).
  split; [reflexivity|]. split; [exact Hbuilt|].
  exact (expressions_refer_to_the_scope (func:=nat) sample.functions
           sample.TimeUnit sample._units sample.an_expression sample.in_scene
           _ eq_refl Hbuilt).
Defined.

(** X6 on the sample: a rectangle created inside the scene. *)
Lemma _build_keeps_the_store_a_forest_witness :
  well_formed sample.in_scene
  ∧ well_formed (sample._build sample.a_rectangle sample.in_scene).2
  ∧ (sample._build sample.a_rectangle sample.in_scene).1
    = Return (datatypes.ElementRef 1).
Proof.
  assert (well_formed sample.in_scene) as Hwf.
  { split; [by apply Forall_singleton; simpl; lia|].
    split; [|split].
    - intros [|r] e Hr; [|done]. injection Hr as <-. split; simpl; [done|].
      intros k v Hkv. rewrite (right_id_L ∅ (∪)) in Hkv.
      by apply lookup_singleton_Some in Hkv as [_ <-].
    - intros [|r1] [|r2] e1 e2 i j c H1 H2 Hi Hj; try done.
      by injection H1 as <-.
    - intros k t Hk name v Hv. simpl in Hk.
      apply lookup_insert_Some in Hk as [[_ <-]|[_ Hk]].
      + simpl in Hv. by apply lookup_singleton_Some in Hv as [_ <-].
      + apply lookup_singleton_Some in Hk as [_ <-]. simpl in Hv.
        by apply lookup_singleton_Some in Hv as [_ <-]. }
  split; [exact Hwf|].
  destruct (_build_keeps_the_store_a_forest (func:=nat) sample.functions
              sample.TimeUnit sample._units sample.a_rectangle
              sample.in_scene Hwf) as (Hwf' & _ & _).
  split; [exact Hwf'|]. by vm_compute.
Defined.

(** X7 on the sample: the scene with its rectangle, built by a builder
    that was never used. *)
Lemma build_makes_a_tree_witness :
  Forall closed_Template sample.list_templates
  ∧ well_formed sample.fresh
  ∧ (sample.build sample.a_scene sample.fresh).1
    = Return (datatypes.ElementRef 0)
  ∧ length (SceneBuilder.heap (sample.build sample.a_scene sample.fresh).2) = 2
  ∧ ∃ i, parent_of (sample.build sample.a_scene sample.fresh).2 1 0 i.
Proof.
  assert (Forall closed_Template sample.list_templates) as Hclosed.
  { apply Forall_cons_2; [|apply Forall_cons_2; [|apply Forall_nil_2]];
      intros k v Hkv; simpl in Hkv;
      apply lookup_singleton_Some in Hkv as [_ <-]; reflexivity. }
  assert (well_formed sample.fresh) as Hwf.
  { split; [apply Forall_nil_2|]. split; [done|]. split; [|done].
    by intros r1 r2 e1 e2 i j c H1. }
  assert (sample.build sample.a_scene sample.fresh
          = (Return (datatypes.ElementRef 0),
             (sample.build sample.a_scene sample.fresh).2)) as Hbuilt
    by (by vm_compute).
  assert (length (SceneBuilder.heap
                    (sample.build sample.a_scene sample.fresh).2) = 2)
    as Hlen by (by vm_compute).
  split; [exact Hclosed|]. split; [exact Hwf|].
  split; [by rewrite Hbuilt|]. split; [exact Hlen|].
  destruct (build_makes_a_tree (func:=nat) sample.functions sample.TimeUnit
              sample._units sample.list_templates sample.a_scene sample.fresh
              _ _ Hclosed Hwf Hbuilt) as (_ & _ & Hchild & _).
  destruct (Hchild 1) as (p & i & Hp & Hparent & _).
  { rewrite Hlen. simpl. lia. }
  simpl in Hp. assert (p = 0) as -> by lia. by exists i.
Defined.

(** X8 on the sample: the scene defines a property [y]. *)
Lemma Define_declares_once_witness :
  (sample._build (parser.Number 3%Z None [] None) sample.in_scene
   = (Return (datatypes.Number 3%Z), sample.in_scene)
   ∧ datatypes.isinstance_Value (datatypes.Number (func:=nat) 3%Z) = true
   ∧ SceneBuilder._elements sample.in_scene = [] ++ [0]
   ∧ 0 < length (SceneBuilder.heap sample.in_scene))
  ∧ ∃ out s',
      sample._build
        (parser.Define [parser.Name "y" [] None;
                        parser.Number 3%Z None [] None] None)
        sample.in_scene = (out, s')
      ∧ match element.properties (SceneBuilder.heap sample.in_scene !!! 0)
              !! "y" with
        | None =>
            out = Return datatypes.PyNone
            ∧ element.properties (SceneBuilder.heap s' !!! 0)
              = <["y" := datatypes.Number 3%Z]>
                  (element.properties (SceneBuilder.heap sample.in_scene !!! 0))
            ∧ element.children (SceneBuilder.heap s' !!! 0)
              = element.children (SceneBuilder.heap sample.in_scene !!! 0)
            ∧ ∀ r, r ≠ 0 →
                SceneBuilder.heap s' !! r = SceneBuilder.heap sample.in_scene !! r
        | Some _ =>
            (∃ ex,
               element.define "y" (datatypes.Number 3%Z)
                 (SceneBuilder.heap sample.in_scene !!! 0) = Raise ex
               ∧ out = Raise (SceneBuilder._create_error
                                (str_exn ex +:+ " in "
                                   +:+ element.type_name
                                         (SceneBuilder.heap sample.in_scene !!! 0))
                                None None)
               ∧ out = Raise (SceneBuilderError
                                ((str_exn ex +:+ " in "
                                    +:+ element.type_name
                                          (SceneBuilder.heap sample.in_scene
                                             !!! 0))
                                   +:+ located None)))
            ∧ s' = sample.in_scene
        end.
Proof.
  split; [repeat split; simpl; lia|].
  apply (Define_declares_once sample.functions sample.TimeUnit sample._units
           "y" [] None (parser.Number 3%Z None [] None) None
           sample.in_scene sample.in_scene (datatypes.Number 3%Z) [] 0
           eq_refl eq_refl eq_refl).
  simpl. lia.
Defined.

(** X12 on the sample: [Card] declared inside the declaration of [Card]. *)
Lemma nested_redeclaration_is_not_refused_witness :
  Interpreter.templates sample.interpreting !! "Card" = None
  ∧ sample._interpret
      (parser.Template "Card" None [parser.Template "Card" None [] None] None)
      sample.interpreting
    = (Return elements.PyNone,
       {| Interpreter.templates :=
            <["Card" := Interpreter.Prototype 1]>
              (Interpreter.templates sample.interpreting);
          Interpreter._elements := [0];
          Interpreter.heap :=
            [sample.Scene_class;
             elements.set_name "Card" elements.new;
             elements.set_name "Card" elements.new] |}).
Proof.
  assert (Interpreter.templates sample.interpreting !! "Card" = None)
    as Hfree by (by vm_compute).
  split; [exact Hfree|].
  exact (proj2 (nested_redeclaration_is_not_refused sample.Element_apply
                  sample.Element_set "Card" None None sample.interpreting
                  Hfree)).
Defined.

(** X19 on the sample: the body of the scene, run inside the scene. *)
Lemma children_are_listed_in_source_order_witness :
  well_formed sample.in_scene
  ∧ last (SceneBuilder._elements sample.in_scene) = Some 0
  ∧ forallb flat sample.a_body = true
  ∧ (sample._build_children sample.a_body sample.in_scene).1
    = Return [datatypes.PyNone; datatypes.ElementRef 1]
  ∧ element.children
      (SceneBuilder.heap
         (sample._build_children sample.a_body sample.in_scene).2 !!! 0)
    = [1].
Proof.
  assert (well_formed sample.in_scene) as Hwf.
  { split; [by apply Forall_singleton; simpl; lia|].
    split; [|split].
    - intros [|r] e Hr; [|done]. injection Hr as <-. split; simpl; [done|].
      intros k v Hkv. rewrite (right_id_L ∅ (∪)) in Hkv.
      by apply lookup_singleton_Some in Hkv as [_ <-].
    - intros [|r1] [|r2] e1 e2 i j c H1 H2 Hi Hj; try done.
      by injection H1 as <-.
    - intros k t Hk name v Hv. simpl in Hk.
      apply lookup_insert_Some in Hk as [[_ <-]|[_ Hk]].
      + simpl in Hv. by apply lookup_singleton_Some in Hv as [_ <-].
      + apply lookup_singleton_Some in Hk as [_ <-]. simpl in Hv.
        by apply lookup_singleton_Some in Hv as [_ <-]. }
  assert (sample._build_children sample.a_body sample.in_scene
          = (Return [datatypes.PyNone; datatypes.ElementRef 1],
             (sample._build_children sample.a_body sample.in_scene).2))
    as Hbuilt by (by vm_compute).
  split; [exact Hwf|]. split; [reflexivity|]. split; [reflexivity|].
  split; [by rewrite Hbuilt|].
  exact (children_are_listed_in_source_order (func:=nat) sample.functions
           sample.TimeUnit sample._units sample.a_body sample.in_scene
           _ _ 0 Hwf eq_refl eq_refl Hbuilt).
Defined.


(** X20 on the sample: a scene that uses an operator, three levels deep. *)
Lemma interpret_lets_out_only_its_errors_witness :
  height (parser.Create "Scene" None [sample.an_expression] None) ≤ 3
  ∧ (Interpreter.interpret sample.internal_templates sample.Element_apply
       sample.Element_set
       (parser.Create "Scene" None [sample.an_expression] None)
       sample.interpreting).1
    = Raise NotImplementedError
  ∧ (interpret_error NotImplementedError = true
     ∨ raised_by_elements sample.Element_apply sample.Element_set
         NotImplementedError).
Proof.
  assert (height (parser.Create "Scene" None [sample.an_expression] None) ≤ 3)
    as Hheight by (vm_compute; lia).
  assert ((Interpreter.interpret sample.internal_templates
             sample.Element_apply sample.Element_set
             (parser.Create "Scene" None [sample.an_expression] None)
             sample.interpreting).1
          = Raise NotImplementedError) as Hout by (by vm_compute).
  split; [exact Hheight|]. split; [exact Hout|].
  destruct (interpret_lets_out_only_its_errors sample.internal_templates
              sample.Element_apply sample.Element_set 3
              (parser.Create "Scene" None [sample.an_expression] None)
              sample.interpreting Hheight) as [Hraised _].
  by rewrite Hout in Hraised.
Defined.
